(** * Urho3D-Blender-Mod: hierarchy sort and prefab XML assembly

    A shallow embedding of the exporter's core:
    - [io_mesh_urho/export_scene.py]: [Node], [Tree], [UrhoScene.AddFile],
      [UrhoScene.FindFile], [UrhoScene.SortModels];
    - [io_mesh_urho/prefabs.py]: [GetBitMask], [UrhoExportPrefabs];
    - [urho_scene_prefab.py]: the instance loop of
      [ExportScenePrefabButton.execute].

    Conventions.  A Python [dict] whose iteration order is observed is an
    association list in insertion order; a [dict] that is only looked up is
    a [gmap].  Python [float] is the binary64 [PrimFloat.float].  Mutable
    [xml.etree] elements live in an explicit store and are named by their
    address, so that two references to one element alias.  Unbounded
    recursion takes a fuel argument and answers [None] when it runs out. *)

From Stdlib Require Import PrimFloat SpecFloat FloatOps ZArith Ascii.
From stdpp Require Import gmap strings list relations pretty.

Set Warnings "-clear-no-such-hyp,-register-all".

Local Open Scope string_scope.
Local Open Scope list_scope.
Local Open Scope stdpp_scope.

(** Python truthiness of a string: only the empty string is false. *)
Definition truthy (s : string) : bool := negb (String.eqb s "").

(** [not name] for a name that may be [None]. *)
Definition falsy (name : option string) : bool :=
  match name with Some n => negb (truthy n) | None => true end.

Lemma truthy_true s : truthy s = true ↔ s ≠ "".
Proof.
  unfold truthy. rewrite negb_true_iff.
  destruct (String.eqb_spec s ""); split; congruence.
Qed.

(** ** mathutils and math

    Components are kept as binary64 values; the single-precision storage
    of [mathutils.Vector] is not modelled. *)

Record Vector := mkVector { vx : float; vy : float; vz : float }.

Record BoundingBox := mkBoundingBox { bbox_min : Vector; bbox_max : Vector }.

(** [math.degrees] *)
Definition degrees (x : float) : float :=
  (x * (180 / 0x1.921fb54442d18p+1))%float.

(** ** export_scene.py *)

Module ExportScene.

(** *** Hierarchical sorting: [Node] and [Tree]

    [Tree.nodes] maps a name to the one [Node] object created for it and
    never replaces or deletes an entry, so a [Node] reference (in
    [children], in [parent]) is represented by that name. *)

Record Node := mkNode {
  children : list string;
  parent : option string
}.

(** [Tree.nodes], in insertion order. *)
Definition Tree := list (string * Node).

Definition Tree_init : Tree := [].

Fixpoint get (n : string) (t : Tree) : option Node :=
  match t with
  | [] => None
  | (k, nd) :: t' => if decide (k = n) then Some nd else get n t'
  end.

(** In-place update of the node stored under [n]. *)
Definition update (n : string) (f : Node → Node) (t : Tree) : Tree :=
  (λ e : string * Node, if decide (e.1 = n) then (e.1, f e.2) else e) <$> t.

(** [if name not in self.nodes: self.nodes[name] = Node(name)] *)
Definition ensure (n : string) (t : Tree) : Tree :=
  match get n t with
  | Some _ => t
  | None => t ++ [(n, mkNode [] None)]
  end.

Definition set_parent (p : string) (nd : Node) : Node :=
  mkNode (children nd) (Some p).

Definition append_child (c : string) (nd : Node) : Node :=
  mkNode (children nd ++ [c]) (parent nd).

Definition Item : Type := string * option string.

(** [Tree.push] *)
Definition push (t : Tree) (item : Item) : Tree :=
  let '(name, parent) := item in
  let t := ensure name t in
  match parent with
  | None => t
  | Some p =>
      if truthy p then
        let t := ensure p t in
        if decide (p = name) then t
        else update p (append_child name) (update name (set_parent p) t)
      else t
  end.

Definition push_all (items : list Item) : Tree := foldl push Tree_init items.

(** [names.extend(child.to_list())] over a list of nodes, starting from
    [names]; [walk] is the recursive call. *)
Definition extend_all (walk : string → option (list string))
    (names : list string) (ns : list string) : option (list string) :=
  foldl (λ acc n, names ← acc; l ← walk n; Some (names ++ l)) (Some names) ns.

(** [Node.to_list].  [None] stands for a recursion that does not return
    within [fuel] nested calls. *)
Fixpoint Node_to_list (fuel : nat) (t : Tree) (n : string) : option (list string) :=
  match fuel with
  | 0 => None
  | S fuel =>
      nd ← get n t;
      extend_all (Node_to_list fuel t) [n] (children nd)
  end.

(** [Tree.to_list]: the nodes without parent, in dictionary order. *)
Definition roots (t : Tree) : list string :=
  (filter (λ e : string * Node, parent e.2 = None) t).*1.

Definition Tree_to_list (fuel : nat) (t : Tree) : option (list string) :=
  extend_all (Node_to_list fuel t) [] (roots t).

(** *** File registry: [UrhoScene.AddFile], [UrhoScene.FindFile] *)

Record AddFileResult := mkAddFileResult {
  added : bool;                       (* the return value *)
  files_after : gmap string string;   (* [self.files] afterwards *)
  reported : option string            (* the [log.critical] message, if any *)
}.

(** [AddFile].  [pathType] is one of the [PathType] strings of [utils.py];
    the key stored is the concatenation [pathType + name], the key tested
    by [name in self.files] is [name]. *)
Definition AddFile (pathType : string) (name : option string)
    (fileUrhoPath : string) (files : gmap string string) : AddFileResult :=
  match name with
  | Some n =>
      if negb (truthy n) then
        mkAddFileResult false files
          (Some ("Name null type:" +:+ pathType +:+ " path:" +:+ fileUrhoPath))
      else if bool_decide (is_Some (files !! n)) then
        mkAddFileResult false files
          (Some ("Already added type:" +:+ pathType +:+ " name:" +:+ n))
      else mkAddFileResult true (<[pathType +:+ n := fileUrhoPath]> files) None
  | None =>
      mkAddFileResult false files
        (Some ("Name null type:" +:+ pathType +:+ " path:" +:+ fileUrhoPath))
  end.

Definition FindFile (pathType : string) (name : option string)
    (files : gmap string string) : option string :=
  match name with
  | None => None
  | Some n => files !! (pathType +:+ n)
  end.

(** *** Scene models: [UrhoSceneModel], [UrhoScene.SortModels] *)

Record UrhoSceneModel := mkUrhoSceneModel {
  name : string;
  parentObjectName : option string;
  type : string;                         (* "StaticModel" or "AnimatedModel" *)
  materialsList : list (option string);  (* the materials' names *)
  boundingBox : BoundingBox
}.

Record UrhoScene := mkUrhoScene {
  blenderSceneName : string;
  modelsList : list UrhoSceneModel;
  files : gmap string string
}.

(** The inner loop of [SortModels]: take the first model called [n] out
    of [models]; nothing happens when there is none. *)
Fixpoint take_model (n : string) (models : list UrhoSceneModel)
    : option (UrhoSceneModel * list UrhoSceneModel) :=
  match models with
  | [] => None
  | m :: models =>
      if decide (name m = n) then Some (m, models)
      else '(m', rest) ← take_model n models; Some (m', m :: rest)
  end.

(** The outer loop: [(orderedModelsList, self.modelsList)] through the
    names. *)
Definition rearrange (names : list string) (models : list UrhoSceneModel)
    : list UrhoSceneModel * list UrhoSceneModel :=
  foldl (λ '(ordered, models) n,
           match take_model n models with
           | Some (m, rest) => (ordered ++ [m], rest)
           | None => (ordered, models)
           end) ([], models) names.

(** [SortModels]: the new [self.modelsList]; [None] when [to_list] does
    not return. *)
Definition SortModels (fuel : nat) (models : list UrhoSceneModel)
    : option (list UrhoSceneModel) :=
  let names_tree := foldl (λ t m, push t (name m, parentObjectName m)) Tree_init models in
  names ← Tree_to_list fuel names_tree;
  Some (rearrange names models).1.

(** *** Materials list: [UrhoWriteMaterialsList] *)

(** ["\n"] *)
Definition newline : string := String "010"%char "".

Inductive MaterialsListResult :=
  | ModelNotFound                 (* the [for ... else: return] *)
  | CannotOpen                    (* [open] raised; the handler is not modelled *)
  | FileWritten (content : string).

(** [UrhoWriteMaterialsList], with [uModel.name] for [uModel] and the
    string [PathType.MATERIALS] of [utils.py] as a parameter; [can_open]
    tells whether [open(filepath, "w")] succeeds. *)
Definition UrhoWriteMaterialsList (MATERIALS : string) (can_open : bool)
    (uScene : UrhoScene) (uModelName : string) : MaterialsListResult :=
  match list_find (λ uSceneModel, name uSceneModel = uModelName) (modelsList uScene) with
  | None => ModelNotFound
  | Some (_, uSceneModel) =>
      let content :=
        foldl (λ content uSceneMaterial,
                 let file := FindFile MATERIALS uSceneMaterial (files uScene) in
                 let file := if falsy file then "null" else default "" file in
                 content +:+ file +:+ newline)
              "" (materialsList uSceneModel) in
      if can_open then FileWritten content else CannotOpen
  end.

End ExportScene.

(** ** xml.etree.ElementTree

    Elements are mutable objects: they live in a store and are referred to
    by address.  [ET.Element] and [ET.SubElement] allocate at the end of
    the store, so addresses are never reused. *)

Module ET.

(** [Element.attrib] is a dictionary; kept in insertion order, as it is
    serialized. *)
Definition Attrib : Type := list (string * string).

Fixpoint attrib_get (k : string) (a : Attrib) : option string :=
  match a with
  | [] => None
  | (k', v) :: a => if decide (k' = k) then Some v else attrib_get k a
  end.

Fixpoint attrib_set (k v : string) (a : Attrib) : Attrib :=
  match a with
  | [] => [(k, v)]
  | (k', v') :: a =>
      if decide (k' = k) then (k, v) :: a else (k', v') :: attrib_set k v a
  end.

Record Element := mkElement {
  tag : string;
  attrib : Attrib;
  kids : list nat
}.

Abbreviation Store := (list Element).

Definition add_kid (c : nat) (e : Element) : Element :=
  mkElement (tag e) (attrib e) (kids e ++ [c]).

Definition set_attrib (k v : string) (e : Element) : Element :=
  mkElement (tag e) (attrib_set k v (attrib e)) (kids e).

(** [ET.Element(tag)] *)
Definition new (tg : string) (h : Store) : nat * Store :=
  (length h, h ++ [mkElement tg [] []]).

(** [parent.append(child)] *)
Definition append (parent child : nat) (h : Store) : Store :=
  alter (add_kid child) parent h.

(** [ET.SubElement(parent, tag)] *)
Definition SubElement (parent : nat) (tg : string) (h : Store) : nat * Store :=
  let '(e, h) := new tg h in (e, append parent e h).

(** [elem.set(key, value)] *)
Definition set (e : nat) (k v : string) (h : Store) : Store :=
  alter (set_attrib k v) e h.

(** [elem.get(key)] *)
Definition get (e : nat) (k : string) (h : Store) : option string :=
  el ← h !! e; attrib_get k (attrib el).

Definition children (e : nat) (h : Store) : list nat :=
  from_option kids [] (h !! e).

Definition has_tag (tg : string) (h : Store) (e : nat) : bool :=
  bool_decide (tag <$> h !! e = Some tg).

(** [elem.findall(tag)]: the direct children with that tag, in order. *)
Definition findall (e : nat) (tg : string) (h : Store) : list nat :=
  filter (λ c, has_tag tg h c = true) (children e h).

(** A document as a value: what a file holds. *)
Inductive Xml := XNode (xtag : string) (xattrib : Attrib) (xkids : list Xml).

(** [ET.parse(file).getroot()]: fresh elements for the whole document. *)
Fixpoint load (x : Xml) (h : Store) : nat * Store :=
  match x with
  | XNode tg a ks =>
      let e := length h in
      let h := h ++ [mkElement tg a []] in
      (e, foldl (λ h k, let '(c, h) := load k h in append e c h) h ks)
  end.

(** The document below an element; [None] if [fuel] nested levels do not
    reach the leaves. *)
Fixpoint render (fuel : nat) (h : Store) (e : nat) : option Xml :=
  match fuel with
  | 0 => None
  | S fuel =>
      el ← h !! e;
      ks ← mapM (render fuel h) (kids el);
      Some (XNode (tag el) (attrib el) ks)
  end.

(** The [(name, value)] pairs of the [attribute] children of an element,
    in document order. *)
Definition read_attribute (h : Store) (c : nat) : option (string * string) :=
  n ← get c "name" h; v ← get c "value" h; Some (n, v).

Definition attributes (e : nat) (h : Store) : list (string * string) :=
  omap (read_attribute h) (findall e "attribute" h).

End ET.

(** ** prefabs.py *)

Module Prefabs.
Import ExportScene.

(** *** Bit masks *)

Definition MAX_BITMASK_BITS : Z := 8.
Definition MAX_BITMASK_VALUE : Z := Z.shiftl 1 MAX_BITMASK_BITS - 1.

Definition GetBitMask (layers : list bool) : Z :=
  let mask :=
    foldl (λ mask (ib : nat * bool),
             Z.lor mask (if ib.2 then Z.shiftl 1 (Z.of_nat ib.1) else 0))
          0%Z (imap (λ i bit, (i, bit)) layers) in
  if decide (mask = MAX_BITMASK_VALUE) then (-1)%Z else mask.

(** *** Options and object settings *)

Record SOptions := mkSOptions {
  doIndividualPrefab : bool;
  doCollectivePrefab : bool;
  doScenePrefab : bool;
  doPhysics : bool;
  mergeObjects : bool;
  batchComponents : bool;
  navigation : bool;
  createSkybox : bool;
  skyboxPath : string;
  exportMode : string
}.

(** The custom properties of a Blender object, grouped as the panel and
    its three reset operators group them.  Mask properties are read as
    Python lists of booleans. *)

(** StaticModel / AnimatedModel *)
Record ModelProps := mkModelProps {
  urho_is_occluder : bool;
  urho_can_be_occluded : bool;
  urho_cast_shadows : bool;
  urho_draw_distance : float;
  urho_shadow_distance : float;
  urho_lod_bias : float;
  urho_max_lights : Z;
  urho_view_mask : list bool;
  urho_light_mask : list bool;
  urho_shadow_mask : list bool;
  urho_zone_mask : list bool;
  urho_occlusion_lod_level : Z
}.

(** CollisionShape *)
Record ShapeProps := mkShapeProps {
  urho_shape_type : string;
  urho_size_factor : Vector;
  urho_offset_rotation : Vector;
  urho_lod_level : Z;
  urho_collision_margin : float;
  urho_customgeometry_nodeid : Z;
  urho_overwrite_model : bool;
  urho_model : string;
  urho_overwrite_size : bool;
  urho_size : Vector;
  urho_overwrite_offset_position : bool;
  urho_offset_position : Vector
}.

(** RigidBody *)
Record BodyProps := mkBodyProps {
  urho_mass : float;
  urho_friction : float;
  urho_anisotropic_friction : Vector;
  urho_rolling_friction : float;
  urho_restitution : float;
  urho_linear_velocity : Vector;
  urho_angular_velocity : Vector;
  urho_linear_factor : Vector;
  urho_angular_factor : Vector;
  urho_linear_damping : float;
  urho_angular_damping : float;
  urho_linear_rest_threshold : float;
  urho_angular_rest_threshold : float;
  urho_collision_layer : list bool;
  urho_collision_mask : list bool;
  urho_contact_threshold : float;
  urho_ccd_radius : float;
  urho_ccd_motion_threshold : float;
  urho_collision_event_mode : string;
  urho_use_gravity : bool;
  urho_is_kinematic : bool;
  urho_is_trigger : bool;
  urho_gravity_override : Vector
}.

(** [nodePos], [nodeRot] and [nodeScale] are the results of the matrix
    computations of lines 189-221, which stay outside the model. *)
Record Object := mkObject {
  urho_activate_physics : bool;
  urho_create_subnode : bool;
  urho_subnode_rotation : Vector;
  urho_create_navigable : bool;
  model : ModelProps;
  shape : ShapeProps;
  body : BodyProps;
  nodePos : Vector;
  nodeRot : Vector;
  nodeScale : Vector
}.

(** What the function takes from outside this file: [utils.py] (its
    [fOptions] argument folded in), Python's ['{:g}'] and [bpy]. *)
Record Env := mkEnv {
  PathType_MODELS : string;
  PathType_MATERIALS : string;
  PathType_OBJECTS : string;
  PathType_SCENES : string;
  GetFilepath : string → string → string * string;
  CheckFilepath : string → bool;
  FloatToString : float → string;
  Vector3ToString : Vector → string;
  format_g : float → string;
  objects : gmap string Object;      (* [bpy.data.objects] *)
  active : Object;                   (* [bpy.context.scene.objects.active] *)
  globalOrigin : bool                (* [tOptions.globalOrigin] *)
}.

(** *** The values the reset operators restore, lines 561-635 *)

Definition UrhoComponentModelReset : ModelProps :=
  {| urho_is_occluder := false;
     urho_can_be_occluded := true;
     urho_cast_shadows := false;
     urho_draw_distance := 0.0;
     urho_shadow_distance := 0.0;
     urho_lod_bias := 1.0;
     urho_max_lights := 0;
     urho_view_mask := replicate 8 true;
     urho_light_mask := replicate 8 true;
     urho_shadow_mask := replicate 8 true;
     urho_zone_mask := replicate 8 true;
     urho_occlusion_lod_level := -1 |}.

Definition UrhoComponentShapeReset : ShapeProps :=
  {| urho_shape_type := "TriangleMesh";
     urho_size_factor := mkVector 1.0 1.0 1.0;
     urho_offset_rotation := mkVector 0.0 0.0 0.0;
     urho_lod_level := 0;
     urho_collision_margin := 0x1.47ae147ae147bp-5;   (* 0.04 *)
     urho_customgeometry_nodeid := 0;
     urho_overwrite_model := false;
     urho_model := "";
     urho_overwrite_size := false;
     urho_size := mkVector 0.0 0.0 0.0;
     urho_overwrite_offset_position := false;
     urho_offset_position := mkVector 0.0 0.0 0.0 |}.

Definition UrhoComponentBodyReset : BodyProps :=
  {| urho_mass := 0.0;
     urho_friction := 0.5;
     urho_anisotropic_friction := mkVector 1.0 1.0 1.0;
     urho_rolling_friction := 0.0;
     urho_restitution := 0.0;
     urho_linear_velocity := mkVector 0.0 0.0 0.0;
     urho_angular_velocity := mkVector 0.0 0.0 0.0;
     urho_linear_factor := mkVector 1.0 1.0 1.0;
     urho_angular_factor := mkVector 1.0 1.0 1.0;
     urho_linear_damping := 0.0;
     urho_angular_damping := 0.0;
     urho_linear_rest_threshold := 0x1.999999999999ap-1;   (* 0.8 *)
     urho_angular_rest_threshold := 1.0;
     urho_collision_layer := [true; false; false; false; false; false; false; false];
     urho_collision_mask := replicate 8 true;
     urho_contact_threshold := 1e18;
     urho_ccd_radius := 0.0;
     urho_ccd_motion_threshold := 0.0;
     urho_collision_event_mode := "WHENACTIVE";
     urho_use_gravity := true;
     urho_is_kinematic := false;
     urho_is_trigger := false;
     urho_gravity_override := mkVector 0.0 0.0 0.0 |}.




(** *** State, exceptions and the monad of [UrhoExportPrefabs] *)

Inductive Exn :=
  | UnboundLocalError (var : string)
  | KeyError (key : string)
  | RecursionError.

(** The locals [bbox], [x], [y], [z] are bound together, by the
    size-from-bounding-box branch, and keep their values from one loop
    iteration to the next. *)
Record BBoxLocals := mkBBoxLocals {
  bbox : BoundingBox;
  x : float;
  y : float;
  z : float
}.

Record State := mkState {
  xml : ET.Store;
  elements : gmap string nat;        (* model name to its node element *)
  nodeID : Z;
  compoID : Z;
  bbox_locals : option BBoxLocals;
  written : list (string * nat);     (* [WriteXmlFile(xml, path)], oldest first *)
  logged : list (string * string)    (* level and message, oldest first *)
}.

Inductive Outcome (A : Type) :=
  | Normal (a : A) (s : State)
  | Returned (s : State)             (* a [return] statement was reached *)
  | Raised (e : Exn) (s : State).
Arguments Normal {A} a s.
Arguments Returned {A} s.
Arguments Raised {A} e s.

Definition M (A : Type) : Type := State → Outcome A.

Global Instance M_ret : MRet M := λ A a s, Normal a s.
Global Instance M_bind : MBind M := λ A B f m s,
  match m s with
  | Normal a s => f a s
  | Returned s => Returned s
  | Raised e s => Raised e s
  end.

Definition state_of {A} (o : Outcome A) : State :=
  match o with Normal _ s | Returned s | Raised _ s => s end.

Definition return_ {A} : M A := λ s, Returned s.
Definition raise {A} (e : Exn) : M A := λ s, Raised e s.
Definition gets {A} (f : State → A) : M A := λ s, Normal (f s) s.
Definition modify (f : State → State) : M unit := λ s, Normal () (f s).

Fixpoint for_each {A} (l : list A) (f : A → M unit) : M unit :=
  match l with
  | [] => mret ()
  | a :: l => f a;; for_each l f
  end.

Definition when (b : bool) (m : M unit) : M unit := if b then m else mret ().

Definition with_xml (h : ET.Store) (s : State) : State :=
  mkState h (elements s) (nodeID s) (compoID s) (bbox_locals s) (written s) (logged s).
Definition with_element (k : string) (e : nat) (s : State) : State :=
  mkState (xml s) (<[k := e]> (elements s)) (nodeID s) (compoID s)
          (bbox_locals s) (written s) (logged s).
Definition with_nodeID (n : Z) (s : State) : State :=
  mkState (xml s) (elements s) n (compoID s) (bbox_locals s) (written s) (logged s).
Definition with_compoID (n : Z) (s : State) : State :=
  mkState (xml s) (elements s) (nodeID s) n (bbox_locals s) (written s) (logged s).
Definition with_bbox_locals (l : BBoxLocals) (s : State) : State :=
  mkState (xml s) (elements s) (nodeID s) (compoID s) (Some l) (written s) (logged s).
Definition with_written (path : string) (e : nat) (s : State) : State :=
  mkState (xml s) (elements s) (nodeID s) (compoID s) (bbox_locals s)
          (written s ++ [(path, e)]) (logged s).
Definition with_logged (level msg : string) (s : State) : State :=
  mkState (xml s) (elements s) (nodeID s) (compoID s) (bbox_locals s)
          (written s) (logged s ++ [(level, msg)]).

Definition Element (tg : string) : M nat := λ s,
  let '(e, h) := ET.new tg (xml s) in Normal e (with_xml h s).
Definition SubElement (parent : nat) (tg : string) : M nat := λ s,
  let '(e, h) := ET.SubElement parent tg (xml s) in Normal e (with_xml h s).
Definition set (e : nat) (k v : string) : M unit :=
  modify (λ s, with_xml (ET.set e k v (xml s)) s).
Definition log (level msg : string) : M unit := modify (with_logged level msg).
Definition WriteXmlFile (e : nat) (path : string) : M unit :=
  modify (with_written path e).

(** ['{:d}'.format(n)] *)
Definition format_d (n : Z) : string := pretty n.

Definition Attr : Type := string * string.

(** The recurring three lines
    [e = ET.SubElement(parent, 'attribute'); e.set('name', n); e.set('value', v)]. *)
Definition attribute (parent : nat) (a : Attr) : M unit :=
  e ← SubElement parent "attribute";
  set e "name" a.1;;
  set e "value" a.2.

(** A run of such triples, each under its own [if]. *)
Definition shown (table : list (bool * Attr)) : list Attr :=
  omap (λ ca : bool * Attr, if ca.1 then Some ca.2 else None) table.

Definition attributes_if (parent : nat) (table : list (bool * Attr)) : M unit :=
  for_each (shown table) (attribute parent).

(** *** The attribute runs of the three components

    Each entry is one [if] of the source: its condition, the attribute
    name and the value written. *)

Definition differs (a b : float) : bool := negb (a =? b)%float.

(** RigidBody, lines 263-376 *)
Definition RigidBody_attributes (u : Env) (b : BodyProps) : list (bool * Attr) :=
  let f := FloatToString u in
  let v := Vector3ToString u in
  [ (differs (urho_mass b) 0.0, ("Mass", f (urho_mass b)));
    (differs (urho_friction b) 0.5, ("Friction", f (urho_friction b)));
    (negb (String.eqb (v (urho_anisotropic_friction b)) "1 1 1"),
      ("Anisotropic Friction", v (urho_anisotropic_friction b)));
    (differs (urho_rolling_friction b) 0.0,
      ("Rolling Friction", f (urho_rolling_friction b)));
    (differs (urho_restitution b) 0.0, ("Restitution", f (urho_restitution b)));
    (negb (String.eqb (v (urho_linear_velocity b)) "0 0 0"),
      ("Linear Velocity", v (urho_linear_velocity b)));
    (negb (String.eqb (v (urho_angular_velocity b)) "0 0 0"),
      ("Angular Velocity", v (urho_angular_velocity b)));
    (negb (String.eqb (v (urho_linear_factor b)) "1 1 1"),
      ("Linear Factor", v (urho_linear_factor b)));
    (negb (String.eqb (v (urho_angular_factor b)) "1 1 1"),
      ("Angular Factor", v (urho_angular_factor b)));
    (differs (urho_linear_damping b) 0.0,
      ("Linear Damping", f (urho_linear_damping b)));
    (differs (urho_angular_damping b) 0.0,
      ("Angular Damping", f (urho_angular_damping b)));
    (negb (String.eqb (f (urho_linear_rest_threshold b)) "0.8"),
      ("Linear Rest Threshold", f (urho_linear_rest_threshold b)));
    (differs (urho_angular_rest_threshold b) 1.0,
      ("Angular Rest Threshold", f (urho_angular_rest_threshold b)));
    (negb (bool_decide (urho_collision_layer b =
                        [true; false; false; false; false; false; false; false])),
      ("Collision Layer", format_d (GetBitMask (urho_collision_layer b))));
    (negb (bool_decide (urho_collision_mask b = replicate 8 true)),
      ("Collision Mask", format_d (GetBitMask (urho_collision_mask b))));
    ((urho_contact_threshold b <? 1e17)%float,
      ("Contact Threshold", f (urho_contact_threshold b)));
    (differs (urho_ccd_radius b) 0.0, ("CCD Radius", f (urho_ccd_radius b)));
    (differs (urho_ccd_motion_threshold b) 0.0,
      ("CCD Motion Threshold", f (urho_ccd_motion_threshold b)));
    (negb (String.eqb (urho_collision_event_mode b) "WHENACTIVE"),
      ("CCD Motion Threshold", urho_collision_event_mode b));
    (negb (urho_use_gravity b), ("Use Gravity", "false"));
    (urho_is_kinematic b, ("Is Kinematic", "true"));
    (urho_is_trigger b, ("Is Trigger", "true"));
    (negb (String.eqb (v (urho_gravity_override b)) "0 0 0"),
      ("Gravity Override", v (urho_gravity_override b))) ].

(** CollisionShape, after its size or model: lines 408-426 *)
Definition CollisionShape_attributes (u : Env) (sh : ShapeProps) : list (bool * Attr) :=
  [ (negb (String.eqb (Vector3ToString u (urho_offset_rotation sh)) "0 0 0"),
      ("Offset Rotation", Vector3ToString u (urho_offset_rotation sh)));
    (negb (bool_decide (urho_lod_level sh = 0%Z)),
      ("LOD Level", format_d (urho_lod_level sh)));
    (negb (String.eqb (FloatToString u (urho_collision_margin sh)) "0.04"),
      ("Collision Margin", FloatToString u (urho_collision_margin sh)));
    (negb (bool_decide (urho_customgeometry_nodeid sh = 0%Z)),
      ("CustomGeometry NodeID", format_d (urho_customgeometry_nodeid sh))) ].

(** StaticModel / AnimatedModel, after Model and Material: lines 471-529 *)
Definition Model_attributes (u : Env) (p : ModelProps) : list (bool * Attr) :=
  let f := FloatToString u in
  [ (urho_is_occluder p, ("Is Occluder", "true"));
    (negb (urho_can_be_occluded p), ("Can Be Occluded", "false"));
    (urho_cast_shadows p, ("Cast Shadows", "true"));
    (differs (urho_draw_distance p) 0.0, ("Draw Distance", f (urho_draw_distance p)));
    (differs (urho_shadow_distance p) 0.0,
      ("Shadow Distance", f (urho_shadow_distance p)));
    (differs (urho_lod_bias p) 1.0, ("LOD Bias", f (urho_lod_bias p)));
    (negb (bool_decide (urho_max_lights p = 0%Z)),
      ("Max Lights", format_d (urho_max_lights p)));
    (negb (bool_decide (urho_view_mask p = replicate 8 true)),
      ("View Mask", format_d (GetBitMask (urho_view_mask p))));
    (negb (bool_decide (urho_light_mask p = replicate 8 true)),
      ("Light Mask", format_d (GetBitMask (urho_light_mask p))));
    (negb (bool_decide (urho_shadow_mask p = replicate 8 true)),
      ("Shadow Mask", format_d (GetBitMask (urho_shadow_mask p))));
    (negb (bool_decide (urho_zone_mask p = replicate 8 true)),
      ("Zone Mask", format_d (GetBitMask (urho_zone_mask p))));
    (negb (bool_decide (urho_occlusion_lod_level p = (-1)%Z)),
      ("Occlusion LOD Level", format_d (urho_occlusion_lod_level p))) ].

(** *** Physics: lines 226-426 *)

Definition with_y (v : Vector) (a : float) : Vector := mkVector (vx v) a (vz v).

Definition is_flat_box (shapeType : string) (y : float) : bool :=
  String.eqb shapeType "Box" && (y =? 0)%float.

(** CollisionShape size, lines 231-242 *)
Definition CollisionShape_size (m : UrhoSceneModel) (sh : ShapeProps) : M Vector :=
  if urho_overwrite_size sh then mret (urho_size sh)
  else
    let bbox := boundingBox m in
    let x := (vx (bbox_max bbox) - vx (bbox_min bbox))%float in
    let y := (vy (bbox_max bbox) - vy (bbox_min bbox))%float in
    let z := (vz (bbox_max bbox) - vz (bbox_min bbox))%float in
    modify (with_bbox_locals (mkBBoxLocals bbox x y z));;
    let size_factor := urho_size_factor sh in
    let shapeSize :=
      mkVector (x * vx size_factor) (y * vy size_factor) (z * vz size_factor) in
    mret (if is_flat_box (urho_shape_type sh) y then with_y shapeSize 1 else shapeSize).

(** CollisionShape offset position, lines 244-252: [bbox], [x], [y] and
    [z] are read, not assigned. *)
Definition CollisionShape_offset (sh : ShapeProps) : M Vector :=
  if urho_overwrite_offset_position sh then mret (urho_offset_position sh)
  else
    locals ← gets bbox_locals;
    match locals with
    | None => raise (UnboundLocalError "bbox")
    | Some l =>
        let offsetX := (vx (bbox_max (bbox l)) - x l / 2)%float in
        let offsetY := (vy (bbox_max (bbox l)) - y l / 2)%float in
        let offsetZ := (vz (bbox_max (bbox l)) - z l / 2)%float in
        let shapeOffset := mkVector offsetX offsetY offsetZ in
        mret (if is_flat_box (urho_shape_type sh) (y l)
              then with_y shapeOffset (-0.5) else shapeOffset)
    end.

(** Lines 231-252 together. *)
Definition CollisionShape_vectors (m : UrhoSceneModel) (sh : ShapeProps)
    : M (Vector * Vector) :=
  shapeSize ← CollisionShape_size m sh;
  shapeOffset ← CollisionShape_offset sh;
  mret (shapeSize, shapeOffset).

(** A component element with its type and the next component id. *)
Definition component (parent : nat) (ty : string) : M nat :=
  e ← SubElement parent "component";
  set e "type" ty;;
  id ← gets compoID;
  set e "id" (format_d id);;
  modify (λ s, with_compoID (compoID s + 1) s);;
  mret e.

(** RigidBody, lines 254-376 *)
Definition RigidBody (u : Env) (currentPass : nat) (node : nat) (b : BodyProps)
    : M unit :=
  bodyElem ← SubElement node "component";
  when (bool_decide (currentPass = 0)) (modify (with_compoID 0x1000000));;
  set bodyElem "type" "RigidBody";;
  id ← gets compoID;
  set bodyElem "id" (format_d id);;
  modify (λ s, with_compoID (compoID s + 1) s);;
  attributes_if bodyElem (RigidBody_attributes u b).

(** CollisionShape, lines 378-426 *)
Definition CollisionShape (u : Env) (node : nat) (sh : ShapeProps)
    (modelFile : string) (shapeSize shapeOffset : Vector) : M unit :=
  let shapeType := urho_shape_type sh in
  shapeElem ← component node "CollisionShape";
  attribute shapeElem ("Shape Type", shapeType);;
  (if String.eqb shapeType "TriangleMesh" || String.eqb shapeType "ConvexHull" then
     let triangleMesh := if urho_overwrite_model sh then urho_model sh else modelFile in
     attribute shapeElem ("Model", "Model;" +:+ triangleMesh)
   else
     attributes_if shapeElem
       [ (negb (String.eqb (Vector3ToString u shapeSize) "1 1 1"),
           ("Size", Vector3ToString u shapeSize));
         (negb (String.eqb (Vector3ToString u shapeOffset) "0 0 0"),
           ("Offset Position", Vector3ToString u shapeOffset)) ]);;
  attributes_if shapeElem (CollisionShape_attributes u sh).

Definition physics_enabled (so : SOptions) (obj : Object) : bool :=
  doPhysics so && urho_activate_physics obj
  && negb (String.eqb (exportMode so) "Props").

Definition Physics (u : Env) (so : SOptions) (currentPass : nat) (node : nat)
    (m : UrhoSceneModel) (obj : Object) (modelFile : string) : M unit :=
  when (physics_enabled so obj) (
    CollisionShape_vectors m (shape obj) ≫= λ '(shapeSize, shapeOffset),
    RigidBody u currentPass node (body obj);;
    CollisionShape u node (shape obj) modelFile shapeSize shapeOffset).

(** *** Node, sub-node and model component *)

Definition lookup_element (k : string) : M nat :=
  els ← gets elements;
  match els !! k with
  | Some e => mret e
  | None => raise (KeyError k)
  end.

(** The individual node of pass 0, lines 166-168 *)
Definition individual_node : M nat :=
  individualNode ← Element "node";
  id ← gets nodeID;
  set individualNode "id" (format_d id);;
  modify (with_nodeID 0x1000000);;
  mret individualNode.

(** [type == 'StaticModel' and parentObjectName and parentObjectName in elements] *)
Definition nests (m : UrhoSceneModel) (els : gmap string nat) : bool :=
  String.eqb (type m) "StaticModel"
  && negb (falsy (parentObjectName m))
  && bool_decide (is_Some (parentObjectName m ≫= (els !!.))).

(** The node of the later passes, lines 170-178 *)
Definition attach_node (models : list UrhoSceneModel) (root : nat)
    (m : UrhoSceneModel) : M nat :=
  let modelNode := name m in
  els ← gets elements;
  (if nests m els then
     match list_find (λ usm, Some (name usm) = parentObjectName m) models with
     | Some (_, usm) =>
         parent ← lookup_element (name usm);
         e ← SubElement parent "node";
         modify (with_element modelNode e)
     | None => mret ()
     end
   else
     e ← SubElement root "node";
     modify (with_element modelNode e));;
  modify (λ s, with_nodeID (nodeID s + 1) s);;
  e ← lookup_element modelNode;
  id ← gets nodeID;
  set e "id" (format_d id);;
  mret e.

Definition format_g3 (u : Env) (a b c : float) : string :=
  format_g u a +:+ " " +:+ format_g u b +:+ " " +:+ format_g u c.

(** Position, rotation and scale, lines 211-224 *)
Definition transforms (u : Env) (node : nat) (obj : Object) : M unit :=
  let nodePos := nodePos obj in
  let nodeRot := nodeRot obj in
  let nodeScale := nodeScale obj in
  attribute node ("Position", format_g3 u (vx nodePos) (vz nodePos) (vy nodePos));;
  attribute node ("Rotation",
    format_g3 u (degrees (- vx nodeRot)) (degrees (- vz nodeRot))
                (degrees (- vy nodeRot)));;
  attribute node ("Scale", format_g3 u (vx nodeScale) (vz nodeScale) (vy nodeScale)).

(** Sub-node, lines 430-440 *)
Definition SubNode (u : Env) (individualNode : nat) (obj : Object) : M nat :=
  subNodeElem ← SubElement individualNode "node";
  id ← gets nodeID;
  set subNodeElem "id" (format_d id);;
  attribute subNodeElem ("Name", "SubNode");;
  attributes_if subNodeElem
    [ (negb (String.eqb (Vector3ToString u (urho_subnode_rotation obj)) "0 0 0"),
        ("Rotation", Vector3ToString u (urho_subnode_rotation obj))) ];;
  mret subNodeElem.

(** StaticModel / AnimatedModel, lines 457-529 *)
Definition Model (u : Env) (parent : nat) (m : UrhoSceneModel) (p : ModelProps)
    (modelFile materials : string) : M unit :=
  typeElem ← component parent (type m);
  attribute typeElem ("Model", "Model;" +:+ modelFile);;
  attribute typeElem ("Material", "Material" +:+ materials);;
  attributes_if typeElem (Model_attributes u p).

(** Gather materials, lines 158-163 *)
Definition gather_materials (u : Env) (files : gmap string string)
    (m : UrhoSceneModel) : string :=
  foldl (λ materials mat,
           materials +:+ ";" +:+ default "" (FindFile (PathType_MATERIALS u) mat files))
        "" (materialsList m).

(** *** The loop body, lines 143-538 *)

Definition export_model (u : Env) (uScene : UrhoScene) (so : SOptions)
    (currentPass : nat) (models : list UrhoSceneModel) (root : nat)
    (uSceneModel : UrhoSceneModel) : M unit :=
  let modelNode := name uSceneModel in
  obj ← (if mergeObjects so || batchComponents so then mret (active u)
         else match objects u !! modelNode with
              | Some obj => mret obj
              | None => raise (KeyError modelNode)
              end);
  let modelFile :=
    FindFile (PathType_MODELS u) (Some (name uSceneModel)) (files uScene) in
  if falsy modelFile then
    log "warning" ("Prefab generation failure: " +:+ name uSceneModel +:+
      ".mdl does not exist. You should remove this object from selection (probably 0 face geometry).");;
    return_
  else
    let modelFile := default "" modelFile in
    let materials := gather_materials u (files uScene) uSceneModel in
    (* [individualNode] in pass 0, [elements[modelNode]] later *)
    node ← (if bool_decide (currentPass = 0) then individual_node
            else attach_node models root uSceneModel);
    attribute node ("Name", name uSceneModel);;
    when (negb (globalOrigin u) && bool_decide (0 < currentPass))
         (transforms u node obj);;
    Physics u so currentPass node uSceneModel obj modelFile;;
    parent ← (if urho_create_subnode obj && bool_decide (currentPass = 0)
              then SubNode u node obj else mret node);
    when (urho_create_navigable obj
          && (String.eqb (type uSceneModel) "StaticModel"
              || String.eqb (type uSceneModel) "TerrainPatch"))
         (component parent "Navigable" ≫= λ _, mret ());;
    Model u parent uSceneModel (model obj) modelFile materials;;
    when (bool_decide (currentPass = 0)) (
      let filepath := GetFilepath u (PathType_OBJECTS u) (name uSceneModel) in
      when (CheckFilepath u filepath.1) (
        log "info" ("Creating individual prefab " +:+ filepath.2);;
        WriteXmlFile node filepath.1)).

(** *** Scene components, lines 66-137 *)

Definition scene_components (so : SOptions) : M nat :=
  sceneRoot ← Element "scene";
  set sceneRoot "id" "1";;
  octreeElem ← SubElement sceneRoot "component";
  set octreeElem "type" "Octree";;
  set octreeElem "id" "1";;
  debugElem ← SubElement sceneRoot "component";
  set debugElem "type" "DebugRenderer";;
  set debugElem "id" "2";;
  when (createSkybox so) (
    skyboxElem ← SubElement sceneRoot "component";
    set skyboxElem "type" "Skybox";;
    set skyboxElem "id" "4";;
    attribute skyboxElem ("Model", "Model;Models/Box.mdl");;
    attribute skyboxElem ("Material", "Material;" +:+ skyboxPath so));;
  when (navigation so) (
    navigationElem ← SubElement sceneRoot "component";
    set navigationElem "type" "NavigationMesh";;
    set navigationElem "id" "5");;
  when (doPhysics so && negb (String.eqb (exportMode so) "Props")) (
    physicsElem ← SubElement sceneRoot "component";
    set physicsElem "type" "PhysicsWorld";;
    set physicsElem "id" "6");;
  lightNodeElem ← SubElement sceneRoot "node";
  id ← gets nodeID;
  set lightNodeElem "id" (format_d id);;
  modify (λ s, with_nodeID (nodeID s + 1) s);;
  attribute lightNodeElem ("Name", "DirectionalLight");;
  attribute lightNodeElem ("Rotation", "0.9 0.4 0.25 0");;
  lightElem ← SubElement lightNodeElem "component";
  set lightElem "type" "Light";;
  set lightElem "id" "7";;
  attribute lightElem ("Light Type", "Directional");;
  mret sceneRoot.

(** *** [UrhoExportPrefabs] *)

Definition initial_state : State :=
  mkState [] ∅ 0x1000000 0x1000000 None [] [].

(** Scene components and root node, lines 65-137 *)
Definition setup (uScene : UrhoScene) (so : SOptions) : M (option nat * nat) :=
  sceneRoot ← (if doScenePrefab so then scene_components so ≫= λ e, mret (Some e)
               else mret None);
  root ← match sceneRoot with
         | Some sceneRoot => SubElement sceneRoot "node"
         | None => Element "node"
         end;
  id ← gets nodeID;
  set root "id" (format_d id);;
  attribute root ("Name", blenderSceneName uScene);;
  when (navigation so) (
    navigableElem ← SubElement root "component";
    set navigableElem "type" "Navigable");;
  mret (sceneRoot, root).

(** Write collective and scene prefab files, lines 540-551 *)
Definition finish (u : Env) (uScene : UrhoScene) (so : SOptions)
    (sceneRoot : option nat) (root : nat) : M unit :=
  when (doCollectivePrefab so && negb (mergeObjects so)) (
    let filepath := GetFilepath u (PathType_OBJECTS u) (blenderSceneName uScene) in
    when (CheckFilepath u filepath.1) (
      log "info" ("Creating collective prefab " +:+ filepath.2);;
      WriteXmlFile root filepath.1));;
  match sceneRoot with
  | Some sceneRoot =>
      let filepath := GetFilepath u (PathType_SCENES u) (blenderSceneName uScene) in
      when (CheckFilepath u filepath.1) (
        log "info" ("Creating scene prefab " +:+ filepath.2);;
        WriteXmlFile sceneRoot filepath.1)
  | None => mret ()
  end.

Definition UrhoExportPrefabs_body (u : Env) (uScene : UrhoScene) (so : SOptions)
    (currentPass : nat) (fuel : nat) : M unit :=
  setup uScene so ≫= λ '(sceneRoot, root),
  (* [uScene.SortModels()], line 140 *)
  match SortModels fuel (modelsList uScene) with
  | None => raise RecursionError
  | Some models =>
      for_each models (export_model u uScene so currentPass models root);;
      finish u uScene so sceneRoot root
  end.

Definition UrhoExportPrefabs (u : Env) (uScene : UrhoScene) (so : SOptions)
    (currentPass : nat) (fuel : nat) : Outcome unit :=
  UrhoExportPrefabs_body u uScene so currentPass fuel initial_state.

End Prefabs.

(** ** urho_scene_prefab.py *)

Module ScenePrefab.
Import Prefabs.

(** [matrix] is replaced by the three vectors computed from it on lines
    264-290 ([nodePos], [nodeRot], [nodeScale]); that computation stays
    outside the model. *)
Record UrhoInstance := mkUrhoInstance {
  name : string;                 (* prefab name *)
  parentName : option string;
  objectName : string;
  nodePos : Vector;
  nodeRot : Vector;
  nodeScale : Vector
}.

(** The scene settings read by [execute]. *)
Record Scene := mkScene {
  scene_name : string;
  urho_skyboxPath : string;
  urho_navigation : bool;
  urho_navigable : bool;
  urho_physics : bool
}.

(** [ET.parse(prefabFile).getroot()] *)
Definition parse (doc : ET.Xml) : M nat := λ s,
  let '(e, h) := ET.load doc (xml s) in Normal e (with_xml h s).

(** [GetPrefabRoot]: [disk] holds the parsed content of the prefab files
    that exist, by prefab name. *)
Definition GetPrefabRoot (u : Env) (disk : gmap string ET.Xml) (name : string)
    : M (option nat) :=
  let prefabFile := (GetFilepath u (PathType_OBJECTS u) name).1 in
  match disk !! name with
  | None =>
      log "critical" ("Cannot find prefab: " +:+ prefabFile +:+ " ");;
      mret None
  | Some doc =>
      prefab_root ← parse doc;
      gets (λ s, ET.has_tag "node" (xml s) prefab_root) ≫= λ is_node : bool,
      if is_node then mret (Some prefab_root)
      else
        log "critical" ("Invalid prefab: " +:+ prefabFile +:+ " ");;
        mret None
  end.

(** One turn of the loop over [prefab_root.findall('attribute')], lines
    297-313: [t] holds the locals [pos], [rot], [scale]. *)
Definition retarget (t : string * string * string) (attribute : nat)
    : M (string * string * string) :=
  let '(pos, rot, scale) := t in
  elem ← gets (λ s, ET.get attribute "name" (xml s));
  if decide (elem = Some "Position") then
    set attribute "value" pos;; mret ("", rot, scale)
  else if decide (elem = Some "Rotation") then
    set attribute "value" rot;; mret (pos, "", scale)
  else if decide (elem = Some "Scale") then
    set attribute "value" scale;; mret (pos, rot, "")
  else mret (pos, rot, scale).

Fixpoint fold_each {A B} (f : B → A → M B) (b : B) (l : list A) : M B :=
  match l with
  | [] => mret b
  | a :: l => b ← f b a; fold_each f b l
  end.

(** Set new transforms, lines 296-327 *)
Definition set_transforms (prefab_root : nat) (pos rot scale : string) : M unit :=
  found ← gets (λ s, ET.findall prefab_root "attribute" (xml s));
  '(pos, rot, scale) ← fold_each retarget (pos, rot, scale) found;
  when (truthy pos) (attribute prefab_root ("Position", pos));;
  when (truthy rot) (attribute prefab_root ("Rotation", rot));;
  when (truthy scale) (attribute prefab_root ("Scale", scale)).

(** Append prefab instance to scene root or parent prefab element, lines
    329-333 *)
Definition place (sceneRoot prefab_root : nat) (instance : UrhoInstance) : M unit :=
  els ← gets elements;
  if negb (falsy (parentName instance))
     && bool_decide (is_Some (els !! objectName instance))
  then
    parent ← lookup_element (default "" (parentName instance));
    modify (λ s, with_xml (ET.append parent prefab_root (xml s)) s)
  else
    modify (λ s, with_xml (ET.append sceneRoot prefab_root (xml s)) s).

(** The loop body, lines 253-333.  An element without children is false
    in Python, so [if not prefab_root] also skips a childless root. *)
Definition export_instance (u : Env) (disk : gmap string ET.Xml) (sceneRoot : nat)
    (instance : UrhoInstance) : M unit :=
  prefab_root ← GetPrefabRoot u disk (name instance);
  match prefab_root with
  | None => mret ()
  | Some prefab_root =>
      gets (λ s, bool_decide (ET.children prefab_root (xml s) = []))
      ≫= λ childless : bool,
      if childless then mret ()
      else
        modify (with_element (objectName instance) prefab_root);;
        let nodePos := nodePos instance in
        let nodeRot := nodeRot instance in
        let nodeScale := nodeScale instance in
        let pos := format_g3 u (vx nodePos) (vz nodePos) (vy nodePos) in
        let rot := format_g3 u (degrees (- vx nodeRot)) (degrees (- vz nodeRot))
                               (degrees (- vy nodeRot)) in
        let scale := format_g3 u (vx nodeScale) (vz nodeScale) (vy nodeScale) in
        set_transforms prefab_root pos rot scale;;
        place sceneRoot prefab_root instance
  end.

(** Scene components and root node, lines 175-246 *)
Definition scene_components (scn : Scene) : M nat :=
  sceneRoot ← Element "scene";
  set sceneRoot "id" "1";;
  octreeElem ← SubElement sceneRoot "component";
  set octreeElem "type" "Octree";;
  set octreeElem "id" "1";;
  debugElem ← SubElement sceneRoot "component";
  set debugElem "type" "DebugRenderer";;
  set debugElem "id" "2";;
  when (truthy (urho_skyboxPath scn)) (
    skyboxElem ← SubElement sceneRoot "component";
    set skyboxElem "type" "Skybox";;
    set skyboxElem "id" "4";;
    attribute skyboxElem ("Model", "Model;Models/Box.mdl");;
    attribute skyboxElem ("Material", "Material;" +:+ urho_skyboxPath scn));;
  when (urho_navigation scn) (
    navigationElem ← SubElement sceneRoot "component";
    set navigationElem "type" "NavigationMesh";;
    set navigationElem "id" "5");;
  when (urho_physics scn) (
    physicsElem ← SubElement sceneRoot "component";
    set physicsElem "type" "PhysicsWorld";;
    set physicsElem "id" "6");;
  lightNodeElem ← SubElement sceneRoot "node";
  id ← gets nodeID;
  set lightNodeElem "id" (format_d id);;
  modify (λ s, with_nodeID (nodeID s + 1) s);;
  attribute lightNodeElem ("Name", "DirectionalLight");;
  attribute lightNodeElem ("Rotation", "0.9 0.4 0.25 0");;
  lightElem ← SubElement lightNodeElem "component";
  set lightElem "type" "Light";;
  set lightElem "id" "7";;
  attribute lightElem ("Light Type", "Directional");;
  root ← SubElement sceneRoot "node";
  id ← gets nodeID;
  set root "id" (format_d id);;
  attribute root ("Name", scene_name scn);;
  when (urho_navigation scn && urho_navigable scn) (
    navigableElem ← SubElement root "component";
    set navigableElem "type" "Navigable");;
  mret sceneRoot.

(** [ExportScenePrefabButton.execute], from line 175 on, for the
    instances gathered on lines 248-250. *)
Definition execute_body (u : Env) (scn : Scene) (disk : gmap string ET.Xml)
    (instances : list UrhoInstance) : M unit :=
  sceneRoot ← scene_components scn;
  for_each instances (export_instance u disk sceneRoot);;
  let filepath := GetFilepath u (PathType_SCENES u) (scene_name scn) in
  when (CheckFilepath u filepath.1) (
    log "info" ("Creating scene prefab " +:+ filepath.2);;
    WriteXmlFile sceneRoot filepath.1).

Definition execute (u : Env) (scn : Scene) (disk : gmap string ET.Xml)
    (instances : list UrhoInstance) : Outcome unit :=
  execute_body u scn disk instances initial_state.

(** *** Gathering the instances: lines 49-146 and 248-250 *)

(** A [mathutils.Matrix] value, as the expression that builds it. *)
Inductive Matrix :=
  | matrix_world (object : string)
  | matrix_local (object : string)
  | matrix_mul (a b : Matrix).

(** The class [UrhoInstance] as it is filled in, with its matrix. *)
Record Gathered := mkGathered {
  g_name : string;
  g_parentName : option string;
  g_matrix : Matrix;
  g_objectName : string
}.

(** A Blender object, as far as it is read: [ob_parent] is the name and
    the type of [obj.parent], [ob_has_children] is the truth value of
    [obj.children], [ob_rotated] and [ob_scaled] tell whether the rotation
    and the scale of [obj.matrix_local] differ from the identity, and
    [ob_dupli_group] holds the objects of [obj.dupli_group]. *)
Inductive BObject := mkBObject {
  ob_name : string;
  ob_hide : bool;
  ob_type : string;
  ob_data_name : string;
  ob_parent : option (string * string);
  ob_has_children : bool;
  ob_rotated : bool;
  ob_scaled : bool;
  ob_dupli_group : option (list BObject)
}.

(** [UrhoDupliTransforms(dupli, root, parent)] inside
    [UrhoGatherInstances(obj)]: the instance it appends. *)
Definition UrhoDupliTransforms (obj dupli root : BObject) (parent : option BObject)
    : M Gathered :=
  when (ob_rotated dupli)
       (log "warning" ("You should apply rotation to object " +:+ ob_name dupli));;
  when (ob_scaled dupli)
       (log "warning" ("You should apply scale to object " +:+ ob_name dupli));;
  let matrix := matrix_world (ob_name root) in
  let matrix := match parent with
                | Some parent => matrix_mul matrix (matrix_world (ob_name parent))
                | None => matrix
                end in
  let objectName := if ob_has_children dupli then ob_name obj +:+ ob_name dupli
                    else ob_name obj in
  mret (match ob_parent dupli with
        | Some (parent_name, parent_type) =>
            if negb (String.eqb parent_type "ARMATURE") then
              mkGathered (ob_name dupli) (Some (ob_name obj +:+ parent_name))
                         (matrix_local (ob_name dupli)) objectName
            else mkGathered (ob_name dupli) None matrix objectName
        | None => mkGathered (ob_name dupli) None matrix objectName
        end).

(** The instance of a mesh object, lines 107-115. *)
Definition mesh_instance (obj : BObject) : Gathered :=
  match ob_parent obj with
  | Some (parent_name, parent_type) =>
      if String.eqb parent_type "MESH" then
        mkGathered (ob_data_name obj) (Some parent_name)
                   (matrix_local (ob_name obj)) (ob_name obj)
      else mkGathered (ob_data_name obj) None (matrix_world (ob_name obj)) (ob_name obj)
  | None => mkGathered (ob_data_name obj) None (matrix_world (ob_name obj)) (ob_name obj)
  end.

(** [obj.type == 'EMPTY' and obj.dupli_group] *)
Definition is_group_instance (obj : BObject) : bool :=
  String.eqb (ob_type obj) "EMPTY" && bool_decide (is_Some (ob_dupli_group obj)).

(** [UrhoGatherInstances(obj)]: [instances] is the module-level list
    before the call, the result is the list after it. *)
Definition UrhoGatherInstances (obj : BObject) (instances : list Gathered)
    : M (list Gathered) :=
  if ob_hide obj then mret instances
  else if is_group_instance obj then
    fold_each (λ instances dupli,
      if ob_hide dupli || String.eqb (ob_type dupli) "ARMATURE" then mret instances
      else if is_group_instance dupli then
        fold_each (λ instances subDupli,
          instance ← UrhoDupliTransforms obj subDupli obj (Some dupli);
          mret (instances ++ [instance]))
          instances (default [] (ob_dupli_group dupli))
      else
        instance ← UrhoDupliTransforms obj dupli obj None;
        mret (instances ++ [instance]))
      instances (default [] (ob_dupli_group obj))
  else if String.eqb (ob_type obj) "MESH" then mret (instances ++ [mesh_instance obj])
  else mret instances.

(** [ExportScenePrefabButton.SortModels], the copy of
    [UrhoScene.SortModels] that sorts the visible objects of the scene. *)
Fixpoint take_object (n : string) (models : list BObject)
    : option (BObject * list BObject) :=
  match models with
  | [] => None
  | m :: models =>
      if decide (ob_name m = n) then Some (m, models)
      else '(m', rest) ← take_object n models; Some (m', m :: rest)
  end.

Definition ExportScenePrefabButton_SortModels (fuel : nat) (objects : list BObject)
    : option (list BObject) :=
  let models := filter (λ model, ob_hide model = false) objects in
  let names_tree :=
    foldl (λ t model, ExportScene.push t (ob_name model, fst <$> ob_parent model))
          ExportScene.Tree_init models in
  names ← ExportScene.Tree_to_list fuel names_tree;
  Some (foldl (λ '(sortedModels, models) n,
                 match take_object n models with
                 | Some (m, rest) => (sortedModels ++ [m], rest)
                 | None => (sortedModels, models)
                 end) ([], models) names).1.

(** [ExportScenePrefabButton.execute] as a whole.  [instances] is the
    module-level list when the operator starts, the result is the list
    when it ends; [decompose] stands for the computation of [nodePos],
    [nodeRot] and [nodeScale] from the matrix of an instance on lines
    264-290. *)
Definition ExportScenePrefabButton_execute (u : Env) (scn : Scene)
    (disk : gmap string ET.Xml) (decompose : Matrix → Vector * Vector * Vector)
    (fuel : nat) (objects : list BObject) (instances : list Gathered)
    : M (list Gathered) :=
  sceneRoot ← scene_components scn;
  match ExportScenePrefabButton_SortModels fuel objects with
  | None => raise RecursionError
  | Some sorted =>
      instances ← fold_each (λ instances obj, UrhoGatherInstances obj instances)
                            instances sorted;
      for_each
        ((λ instance,
            let '(pos, rot, scale) := decompose (g_matrix instance) in
            mkUrhoInstance (g_name instance) (g_parentName instance)
                           (g_objectName instance) pos rot scale) <$> instances)
        (export_instance u disk sceneRoot);;
      (let filepath := GetFilepath u (PathType_SCENES u) (scene_name scn) in
       when (CheckFilepath u filepath.1) (
         log "info" ("Creating scene prefab " +:+ filepath.2);;
         WriteXmlFile sceneRoot filepath.1));;
      mret instances
  end.

End ScenePrefab.

(** ** Theory: positions in a list *)

(** [a] stands at an earlier position than [b] in [l]. *)
Definition before {A} (a b : A) (l : list A) : Prop :=
  ∃ i j, l !! i = Some a ∧ l !! j = Some b ∧ i < j.

Section before.
Context {A : Type}.
Implicit Types (a b c : A) (l k : list A).

Lemma list_elem_of_concat (ls : list (list A)) a :
  a ∈ concat ls ↔ ∃ l, l ∈ ls ∧ a ∈ l.
Proof.
  induction ls as [|l0 ls IH]; simpl.
  - split; [by intros ?%elem_of_nil|by intros (? & ?%elem_of_nil & _)].
  - rewrite elem_of_app, IH. split.
    + intros [?|(l & ? & ?)]; [exists l0|exists l]; split; try done;
        [left|by right].
    + intros (l & [->|?]%elem_of_cons & ?); eauto.
Qed.

Lemma before_app_l a b l k : before a b l → before a b (l ++ k).
Proof.
  intros (i & j & Hi & Hj & Hij). exists i, j.
  eauto using lookup_app_l_Some.
Qed.

Lemma before_app_r a b l k : before a b k → before a b (l ++ k).
Proof.
  intros (i & j & Hi & Hj & Hij). exists (length l + i), (length l + j).
  rewrite !lookup_app_r by lia.
  replace (length l + i - length l) with i by lia.
  replace (length l + j - length l) with j by lia.
  split_and!; [done..|lia].
Qed.

Lemma before_middle a b l k1 k2 : before a b l → before a b (k1 ++ l ++ k2).
Proof. intros. by apply before_app_r, before_app_l. Qed.

Lemma before_head a b l : b ∈ l → before a b (a :: l).
Proof.
  intros [j Hj]%list_elem_of_lookup. exists 0, (S j).
  split_and!; [done..|lia].
Qed.

Lemma before_trans a b c l :
  NoDup l → before a b l → before b c l → before a c l.
Proof.
  intros Hl (i & j & Hi & Hj & Hij) (j' & k & Hj' & Hk & Hjk).
  assert (j = j') as <- by eauto using NoDup_lookup.
  exists i, k. split_and!; [done..|lia].
Qed.

(** Two lists of a concatenation: the head of the earlier one comes
    before the head of the later one. *)
Lemma before_concat_heads (ls : list (list A)) i j a b la lb :
  ls !! i = Some (a :: la) → ls !! j = Some (b :: lb) → i < j →
  before a b (concat ls).
Proof.
  revert i j. induction ls as [|l0 ls IH]; intros i j Hi Hj Hij; [done|].
  destruct i as [|i], j as [|j]; try lia; simpl in *.
  - injection Hi as ->. apply before_head.
    apply elem_of_app; right. apply list_elem_of_concat.
    exists (b :: lb). split; [by eapply list_elem_of_lookup_2|left].
  - apply before_app_r. eapply IH; eauto with lia.
Qed.

Lemma concat_split (ls : list (list A)) l :
  l ∈ ls → ∃ k1 k2, concat ls = k1 ++ l ++ k2.
Proof.
  intros (ls1 & ls2 & ->)%list_elem_of_split.
  exists (concat ls1), (concat ls2). by rewrite concat_app.
Qed.
End before.

(** ** Theory: pre-order traversal of a finite forest

    The forest is given by a child function [kids] and a parent function
    [par] over the nodes [keys]; [walk] is [Node.to_list] over [kids]. *)

Module Forest.
Section forest.
Variable kids : string → list string.
Variable par : string → option string.
Variable keys : list string.

Fixpoint walk (fuel : nat) (n : string) : option (list string) :=
  match fuel with
  | 0 => None
  | S fuel => ls ← mapM (walk fuel) (kids n); Some (n :: concat ls)
  end.

Definition top : list string := filter (λ n, par n = None) keys.

Definition flatten (fuel : nat) : option (list string) :=
  ls ← mapM (walk fuel) top; Some (concat ls).

(** [link p c]: [p] is the parent of [c]. *)
Definition link (p c : string) : Prop := par c = Some p.

Hypothesis keys_nodup : NoDup keys.
Hypothesis kids_par : ∀ p c, c ∈ kids p ↔ par c = Some p.
Hypothesis kids_nodup : ∀ p, NoDup (kids p).
Hypothesis par_keys : ∀ c p, par c = Some p → c ∈ keys ∧ p ∈ keys.
Hypothesis acyclic : ∀ n, ¬ tc link n n.

Lemma walk_S f n l :
  walk (S f) n = Some l ↔
  ∃ ls, Forall2 (λ c lc, walk f c = Some lc) (kids n) ls ∧ l = n :: concat ls.
Proof.
  simpl. split.
  - intros H. destruct (mapM (walk f) (kids n)) as [ls|] eqn:E; [|done].
    simpl in H. injection H as <-. exists ls. by apply mapM_Some in E.
  - intros (ls & H%mapM_Some & ->). by rewrite H.
Qed.

Lemma walk_head f n l : walk f n = Some l → ∃ l', l = n :: l'.
Proof. destruct f; [done|]. intros (ls & _ & ->)%walk_S. eauto. Qed.

Lemma walk_self f n l : walk f n = Some l → n ∈ l.
Proof. intros (l' & ->)%walk_head. left. Qed.

(** The traversal of [n] lists [n] and its descendants, and only them. *)
Lemma walk_rtc f n l x : walk f n = Some l → x ∈ l → rtc link n x.
Proof.
  revert n l. induction f as [|f IH]; intros n l; [done|].
  intros (ls & Hls & ->)%walk_S [->|Hx]%elem_of_cons; [done|].
  apply list_elem_of_concat in Hx as (lc & Hlc & Hx).
  apply list_elem_of_lookup in Hlc as [i Hi].
  destruct (Forall2_lookup_r _ _ _ _ _ Hls Hi) as (c & Hc & Hw).
  eapply rtc_l; [|by eapply IH].
  apply kids_par. by eapply list_elem_of_lookup_2.
Qed.

Lemma rtc_walk f n l x : walk f n = Some l → rtc link n x → x ∈ l.
Proof.
  revert n l. induction f as [|f IH]; intros n l; [done|].
  intros (ls & Hls & ->)%walk_S [->|(c & Hc & Hcx)]%rtc_inv; [left|].
  right. apply kids_par, list_elem_of_lookup in Hc as [i Hi].
  destruct (Forall2_lookup_l _ _ _ _ _ Hls Hi) as (lc & Hlc & Hw).
  apply list_elem_of_concat. exists lc.
  split; [by eapply list_elem_of_lookup_2|by eapply IH].
Qed.

(** The ancestors of a node form a chain, since [par] is a function. *)
Lemma ancestors_chain a b x :
  rtc link a x → rtc link b x → rtc link a b ∨ rtc link b a.
Proof.
  intros Ha. revert b. revert x Ha.
  apply (rtc_ind_r (λ x, ∀ b, rtc link b x → rtc link a b ∨ rtc link b a));
    [by right|].
  intros y x Hay Hyx IH b Hb.
  apply rtc_inv_r in Hb as [->|(y' & Hby' & Hy'x)].
  - left. by eapply rtc_r.
  - unfold link in *. assert (y' = y) as -> by congruence. eauto.
Qed.

Lemma link_below_parent p c a :
  link p c → rtc link a c → a = c ∨ rtc link a p.
Proof.
  intros Hpc [->|(y & Hay & Hyc)]%rtc_inv_r; [by left|right].
  unfold link in *. by assert (y = p) as -> by congruence.
Qed.

Lemma siblings_incomparable p c1 c2 :
  link p c1 → link p c2 → rtc link c1 c2 → c1 = c2.
Proof.
  intros H1 H2 H12.
  destruct (link_below_parent _ _ _ H2 H12) as [|H]; [done|].
  destruct (acyclic p). apply (tc_rtc_r p c1 p); [by apply tc_once|done].
Qed.

Lemma tops_incomparable r1 r2 :
  par r2 = None → rtc link r1 r2 → r1 = r2.
Proof.
  intros H2 [|(y & _ & Hy)]%rtc_inv_r; [done|].
  unfold link in Hy. congruence.
Qed.

(** Traversals of pairwise incomparable nodes do not overlap. *)
Lemma concat_walk_NoDup f cs ls :
  NoDup cs →
  (∀ c1 c2, c1 ∈ cs → c2 ∈ cs → rtc link c1 c2 → c1 = c2) →
  Forall2 (λ c lc, walk f c = Some lc) cs ls →
  Forall (NoDup (A:=string)) ls →
  NoDup (concat ls).
Proof.
  intros Hcs Hinc Hw. induction Hw as [|c lc cs ls Hc Hw IH];
    intros Hnd; [constructor|].
  apply NoDup_cons in Hcs as [Hc_cs Hcs].
  apply Forall_cons in Hnd as [Hlc Hnd]. simpl.
  apply NoDup_app. split_and!; [done| |].
  - intros x Hx (lc' & Hlc' & Hx')%list_elem_of_concat.
    apply list_elem_of_lookup in Hlc' as [i Hi].
    destruct (Forall2_lookup_r _ _ _ _ _ Hw Hi) as (c' & Hc' & Hw').
    apply list_elem_of_lookup_2 in Hc'.
    assert (c = c') as ->; [|done].
    destruct (ancestors_chain c c' x) as [H|H];
      [by eapply walk_rtc..| |].
    + apply Hinc; [left|by right|done].
    + symmetry. apply Hinc; [by right|left|done].
  - apply IH; [done| |done].
    intros c1 c2 ??. apply Hinc; by right.
Qed.

Lemma walk_NoDup f n l : walk f n = Some l → NoDup l.
Proof.
  revert n l. induction f as [|f IH]; intros n l; [done|].
  intros (ls & Hls & ->)%walk_S. apply NoDup_cons. split.
  - intros (lc & Hlc & Hx)%list_elem_of_concat.
    apply list_elem_of_lookup in Hlc as [i Hi].
    destruct (Forall2_lookup_r _ _ _ _ _ Hls Hi) as (c & Hc & Hw).
    apply list_elem_of_lookup_2, kids_par in Hc.
    destruct (acyclic n). apply (tc_rtc_r n c n); [by apply tc_once|].
    by eapply walk_rtc.
  - eapply concat_walk_NoDup; [apply kids_nodup| |done|].
    + intros c1 c2 H1%kids_par H2%kids_par. by eapply siblings_incomparable.
    + apply Forall_forall. intros lc [i Hi]%list_elem_of_lookup.
      destruct (Forall2_lookup_r _ _ _ _ _ Hls Hi) as (c & Hc & Hw).
      by eapply IH.
Qed.
(** *** Termination: enough fuel always gives the traversal *)

Lemma descendants_in_keys n x : tc link n x → x ∈ keys.
Proof. induction 1 as [n x H|]; [by apply par_keys in H as []|done]. Qed.

Lemma ancestors_in_keys n x : tc (flip link) n x → x ∈ keys.
Proof. induction 1 as [n x H|]; [by apply par_keys in H as []|done]. Qed.

Lemma tc_flip_link x y : tc (flip link) x y → tc link y x.
Proof.
  induction 1 as [x y H|x y z H _ IH]; [by apply tc_once|].
  eapply tc_r; eauto.
Qed.

Lemma down_wf n : Acc (flip link) n.
Proof.
  apply tc_finite_sn.
  - intros x. apply acyclic.
  - exists keys. apply descendants_in_keys.
Qed.

Lemma up_wf n : Acc link n.
Proof.
  apply (tc_finite_sn (R:=flip link)).
  - intros x Hx%tc_flip_link. by apply acyclic in Hx.
  - exists keys. apply ancestors_in_keys.
Qed.

Lemma mapM_walk_total cs :
  (∀ c, c ∈ cs → ∃ (f0 : nat) l, ∀ f : nat, (f0 ≤ f)%nat → walk f c = Some l) →
  ∃ (f0 : nat) ls, ∀ f : nat, (f0 ≤ f)%nat → mapM (walk f) cs = Some ls.
Proof.
  induction cs as [|c cs IH]; intros H.
  - by exists 0, [].
  - destruct (H c) as (f1 & l & Hl); [left|].
    destruct IH as (f2 & ls & Hls); [intros; apply H; by right|].
    exists (f1 `max` f2), (l :: ls). intros f Hf. simpl.
    rewrite Hl, Hls by lia. done.
Qed.

Lemma walk_total n : ∃ (f0 : nat) l, ∀ f : nat, (f0 ≤ f)%nat → walk f n = Some l.
Proof.
  induction (down_wf n) as [n _ IH].
  destruct (mapM_walk_total (kids n)) as (f0 & ls & Hls).
  { intros c Hc%kids_par. by apply IH. }
  exists (S f0), (n :: concat ls). intros [|f] Hf; [lia|].
  simpl. rewrite Hls by lia. done.
Qed.

Lemma flatten_total : ∃ (f0 : nat) out, ∀ f : nat, (f0 ≤ f)%nat → flatten f = Some out.
Proof.
  destruct (mapM_walk_total top) as (f0 & ls & Hls).
  { intros; apply walk_total. }
  exists f0, (concat ls). intros f Hf. unfold flatten. by rewrite Hls.
Qed.

(** *** The flattened forest *)

Lemma flatten_Some f out :
  flatten f = Some out ↔
  ∃ ls, Forall2 (λ r lr, walk f r = Some lr) top ls ∧ out = concat ls.
Proof.
  unfold flatten. split.
  - intros H. destruct (mapM (walk f) top) as [ls|] eqn:E; [|done].
    simpl in H. injection H as <-. exists ls. by apply mapM_Some in E.
  - intros (ls & H%mapM_Some & ->). by rewrite H.
Qed.

Lemma elem_of_top r : r ∈ top ↔ par r = None ∧ r ∈ keys.
Proof. unfold top. by rewrite list_elem_of_filter. Qed.

Lemma flatten_NoDup f out : flatten f = Some out → NoDup out.
Proof.
  intros (ls & Hls & ->)%flatten_Some.
  eapply concat_walk_NoDup; [|  |done|].
  - by apply NoDup_filter.
  - intros r1 r2 _ [H2 _]%elem_of_top. by apply tops_incomparable.
  - apply Forall_forall. intros lr [i Hi]%list_elem_of_lookup.
    destruct (Forall2_lookup_r _ _ _ _ _ Hls Hi) as (r & Hr & Hw).
    by eapply walk_NoDup.
Qed.

Lemma top_of n : n ∈ keys → ∃ r, r ∈ top ∧ rtc link r n.
Proof.
  induction (up_wf n) as [n _ IH]. intros Hn.
  destruct (par n) as [p|] eqn:Hp.
  - destruct (IH p) as (r & Hr & Hrp); [done|by apply par_keys in Hp as []|].
    exists r. split; [done|]. by eapply rtc_r.
  - exists n. split; [by apply elem_of_top|done].
Qed.

Lemma flatten_elem_of f out x : flatten f = Some out → x ∈ out ↔ x ∈ keys.
Proof.
  intros (ls & Hls & ->)%flatten_Some. rewrite list_elem_of_concat. split.
  - intros (lr & [i Hi]%list_elem_of_lookup & Hx).
    destruct (Forall2_lookup_r _ _ _ _ _ Hls Hi) as (r & Hr%list_elem_of_lookup_2 & Hw).
    apply elem_of_top in Hr as [_ Hr].
    apply (walk_rtc _ _ _ x) in Hw; [|done].
    apply rtc_tc in Hw as [<-|?]; [done|by eapply descendants_in_keys].
  - intros (r & [i Hi]%list_elem_of_lookup & Hrx)%top_of.
    destruct (Forall2_lookup_l _ _ _ _ _ Hls Hi) as (lr & Hlr & Hw).
    exists lr. split; [by eapply list_elem_of_lookup_2|by eapply rtc_walk].
Qed.

(** Every node is listed exactly once. *)
Lemma flatten_Permutation f out : flatten f = Some out → out ≡ₚ keys.
Proof.
  intros H. apply NoDup_Permutation; [by eapply flatten_NoDup|done|].
  intros x. by eapply flatten_elem_of.
Qed.

(** The traversal of a node is a contiguous part of every traversal
    that lists the node. *)
Lemma walk_sub f n l p :
  walk f n = Some l → p ∈ l →
  ∃ f' lp k1 k2, walk f' p = Some lp ∧ l = k1 ++ lp ++ k2.
Proof.
  revert n l. induction f as [|f IH]; intros n l; [done|].
  intros Hw Hp. destruct (decide (p = n)) as [->|Hne].
  { exists (S f), l, [], []. by rewrite app_nil_r. }
  apply walk_S in Hw as (ls & Hls & ->).
  apply elem_of_cons in Hp as [?|Hp]; [done|].
  apply list_elem_of_concat in Hp as (lc & Hlc & Hp).
  destruct (concat_split _ _ Hlc) as (k1 & k2 & ->).
  apply list_elem_of_lookup in Hlc as [i Hi].
  destruct (Forall2_lookup_r _ _ _ _ _ Hls Hi) as (c & Hc & Hw).
  destruct (IH _ _ Hw Hp) as (f' & lp & k1' & k2' & Hlp & ->).
  exists f', lp, (n :: k1 ++ k1'), (k2' ++ k2).
  split; [done|]. simpl. by rewrite <-!app_assoc.
Qed.

Lemma flatten_sub f out p :
  flatten f = Some out → p ∈ keys →
  ∃ f' lp k1 k2, walk f' p = Some lp ∧ out = k1 ++ lp ++ k2.
Proof.
  intros Hf Hp. apply (flatten_elem_of _ _ p Hf) in Hp.
  apply flatten_Some in Hf as (ls & Hls & ->).
  apply list_elem_of_concat in Hp as (lr & Hlr & Hp).
  destruct (concat_split _ _ Hlr) as (k1 & k2 & ->).
  apply list_elem_of_lookup in Hlr as [i Hi].
  destruct (Forall2_lookup_r _ _ _ _ _ Hls Hi) as (r & Hr & Hw).
  destruct (walk_sub _ _ _ _ Hw Hp) as (f' & lp & k1' & k2' & Hlp & ->).
  exists f', lp, (k1 ++ k1'), (k2' ++ k2).
  split; [done|]. by rewrite <-!app_assoc.
Qed.

(** A parent comes before each of its children. *)
Lemma flatten_parent_first f out p c :
  flatten f = Some out → link p c → before p c out.
Proof.
  intros Hf Hpc.
  destruct (flatten_sub f out p) as (f' & lp & k1 & k2 & Hlp & ->);
    [done|by apply par_keys in Hpc as []|].
  apply before_middle. destruct f' as [|f']; [done|].
  apply walk_S in Hlp as (ls & Hls & ->). apply before_head.
  apply kids_par, list_elem_of_lookup in Hpc as [i Hi].
  destruct (Forall2_lookup_l _ _ _ _ _ Hls Hi) as (lc & Hlc & Hw).
  apply list_elem_of_concat. exists lc.
  split; [by eapply list_elem_of_lookup_2|by eapply walk_self].
Qed.

(** A node comes before all of its descendants. *)
Lemma flatten_ancestor_first f out a d :
  flatten f = Some out → tc link a d → before a d out.
Proof.
  intros Hf. induction 1 as [a d H|a b d H _ IH].
  - by eapply flatten_parent_first.
  - eapply before_trans; [by eapply flatten_NoDup| |done].
    by eapply flatten_parent_first.
Qed.

(** Children of one node are listed in the order of [kids]. *)
Lemma flatten_siblings f out p i j c1 c2 :
  flatten f = Some out →
  kids p !! i = Some c1 → kids p !! j = Some c2 → i < j →
  before c1 c2 out.
Proof.
  intros Hf H1 H2 Hij.
  assert (link p c1) as Hpc by by eapply kids_par, list_elem_of_lookup_2.
  destruct (flatten_sub f out p) as (f' & lp & k1 & k2 & Hlp & ->);
    [done|by apply par_keys in Hpc as []|].
  apply before_middle. destruct f' as [|f']; [done|].
  apply walk_S in Hlp as (ls & Hls & ->).
  destruct (Forall2_lookup_l _ _ _ _ _ Hls H1) as (l1 & Hl1 & Hw1).
  destruct (Forall2_lookup_l _ _ _ _ _ Hls H2) as (l2 & Hl2 & Hw2).
  apply walk_head in Hw1 as [l1' ->]. apply walk_head in Hw2 as [l2' ->].
  apply (before_app_r _ _ [p]). by eapply before_concat_heads.
Qed.

(** Parentless nodes are listed in the order of [keys]. *)
Lemma flatten_tops f out i j r1 r2 :
  flatten f = Some out →
  top !! i = Some r1 → top !! j = Some r2 → i < j →
  before r1 r2 out.
Proof.
  intros (ls & Hls & ->)%flatten_Some H1 H2 Hij.
  destruct (Forall2_lookup_l _ _ _ _ _ Hls H1) as (l1 & Hl1 & Hw1).
  destruct (Forall2_lookup_l _ _ _ _ _ Hls H2) as (l2 & Hl2 & Hw2).
  apply walk_head in Hw1 as [l1' ->]. apply walk_head in Hw2 as [l2' ->].
  by eapply before_concat_heads.
Qed.
End forest.
End Forest.

(** ** Theory: what [Tree.push] builds *)

Module TreeSpec.
Import ExportScene.

(** The pair makes [push] link [name] under [parent]: the parent is
    truthy and differs from the name. *)
Definition link_of (item : Item) : option (string * string) :=
  match item with
  | (n, Some p) =>
      if truthy p && negb (bool_decide (p = n)) then Some (n, p) else None
  | (_, None) => None
  end.

(** The (child, parent) links of the input, in push order. *)
Definition links (items : list Item) : list (string * string) :=
  omap link_of items.

(** Every name the input mentions, as a name or as a truthy parent, in the
    order [push] meets them. *)
Definition names_of_item (item : Item) : list string :=
  item.1 :: match item.2 with
            | Some p => if truthy p then [p] else []
            | None => []
            end.

Definition names_of (items : list Item) : list string :=
  items ≫= names_of_item.

(** First occurrences, in order. *)
Definition first_seen (l : list string) : list string :=
  foldl (λ acc x, if decide (x ∈ acc) then acc else acc ++ [x]) [] l.

(** Children declared for [p], in push order, and the parent last declared
    for [c]. *)
Definition kids_in (items : list Item) (p : string) : list string :=
  (filter (λ l, l.2 = p) (links items)).*1.

Definition par_in (items : list Item) (c : string) : option string :=
  last (filter (λ l, l.1 = c) (links items)).*2.

(** [p] is declared as the parent of [c]. *)
Definition declared (items : list Item) (p c : string) : Prop :=
  (c, p) ∈ links items.

(** No name is its own ancestor through the declared links. *)
Definition Acyclic (items : list Item) : Prop :=
  ∀ n, ¬ tc (declared items) n n.

(** No name is linked under a parent more than once. *)
Definition LinkedOnce (items : list Item) : Prop :=
  NoDup (links items).*1.

End TreeSpec.

Module TreeFacts.
Import ExportScene TreeSpec.

(** *** The dictionary operations *)

Lemma get_None n (t : Tree) : get n t = None ↔ n ∉ t.*1.
Proof.
  induction t as [|[k nd] t IH]; simpl.
  - split; [intros _ ?%elem_of_nil|]; done.
  - rewrite not_elem_of_cons. case_decide; naive_solver.
Qed.

Lemma get_is_Some n (t : Tree) : is_Some (get n t) ↔ n ∈ t.*1.
Proof.
  rewrite <-not_eq_None_Some, get_None.
  destruct (decide (n ∈ t.*1)); naive_solver.
Qed.

Lemma get_app n (t1 t2 : Tree) :
  get n (t1 ++ t2) = match get n t1 with Some nd => Some nd | None => get n t2 end.
Proof.
  induction t1 as [|[k nd] t1 IH]; simpl; [done|]. by case_decide.
Qed.

Lemma update_keys n f (t : Tree) : (update n f t).*1 = t.*1.
Proof.
  unfold update. rewrite <-list_fmap_compose. apply list_fmap_ext.
  intros _ [k nd] _. simpl. by case_decide.
Qed.

Lemma get_update n f m (t : Tree) :
  get m (update n f t) = if decide (n = m) then f <$> get m t else get m t.
Proof.
  induction t as [|[k nd] t IH]; simpl; [by case_decide|].
  repeat case_decide; simplify_eq/=; try done; by case_decide.
Qed.

Lemma ensure_keys n (t : Tree) :
  (ensure n t).*1 = if decide (n ∈ t.*1) then t.*1 else t.*1 ++ [n].
Proof.
  unfold ensure. destruct (get n t) eqn:E.
  - rewrite decide_True; [done|]. by apply get_is_Some.
  - rewrite decide_False by by apply get_None. by rewrite fmap_app.
Qed.

Lemma get_ensure n m (t : Tree) :
  get m (ensure n t) =
  match get m t with
  | Some nd => Some nd
  | None => if decide (n = m) then Some (mkNode [] None) else None
  end.
Proof.
  unfold ensure. destruct (get n t) eqn:E.
  - destruct (get m t) eqn:E'; [done|]. case_decide; congruence.
  - rewrite get_app. simpl. by destruct (get m t).
Qed.

Lemma elem_of_get (t : Tree) k nd :
  NoDup t.*1 → (k, nd) ∈ t → get k t = Some nd.
Proof.
  induction t as [|[k' nd'] t IH]; simpl; [by intros _ ?%elem_of_nil|].
  intros [Hk Ht]%NoDup_cons [[= <- <-]|Hin]%elem_of_cons.
  - by rewrite decide_True.
  - rewrite decide_False; [by apply IH|]. intros ->. apply Hk.
    apply list_elem_of_fmap. by exists (k, nd).
Qed.

(** *** The input, one pair more *)

Lemma links_snoc items item :
  links (items ++ [item]) = links items ++ from_option (λ l, [l]) [] (link_of item).
Proof. unfold links. rewrite omap_app. simpl. by destruct (link_of item). Qed.

Lemma names_of_snoc items item :
  names_of (items ++ [item]) = names_of items ++ names_of_item item.
Proof. unfold names_of. rewrite bind_app. simpl. by rewrite app_nil_r. Qed.

Lemma first_seen_app l k :
  first_seen (l ++ k) =
  foldl (λ acc x, if decide (x ∈ acc) then acc else acc ++ [x]) (first_seen l) k.
Proof. unfold first_seen. by rewrite foldl_app. Qed.

Lemma link_of_Some item c p :
  link_of item = Some (c, p) ↔ item = (c, Some p) ∧ p ≠ "" ∧ p ≠ c.
Proof.
  destruct item as [n [q|]]; simpl; [|naive_solver].
  destruct (truthy q) eqn:Hq; simpl.
  - apply truthy_true in Hq. case_bool_decide; simpl; naive_solver.
  - assert (¬ q ≠ "") by (rewrite <-truthy_true; congruence). naive_solver.
Qed.

Lemma elem_of_links items c p :
  (c, p) ∈ links items ↔ (c, Some p) ∈ items ∧ p ≠ "" ∧ p ≠ c.
Proof.
  unfold links. rewrite list_elem_of_omap. split.
  - intros (item & Hin & (-> & ? & ?)%link_of_Some). done.
  - intros (Hin & ? & ?). exists (c, Some p). by rewrite link_of_Some.
Qed.

Lemma elem_of_names_of items n :
  n ∈ names_of items ↔
  ∃ item, item ∈ items ∧ (n = item.1 ∨ item.2 = Some n ∧ n ≠ "").
Proof.
  unfold names_of. rewrite list_elem_of_bind.
  split; intros ([m q] & H1 & H2); exists (m, q); simpl in *.
  - split; [done|]. unfold names_of_item in H1. simpl in H1.
    apply elem_of_cons in H1 as [->|H1]; [by left|right].
    destruct q as [q|]; [|by apply elem_of_nil in H1].
    destruct (truthy q) eqn:Hq; [|by apply elem_of_nil in H1].
    apply list_elem_of_singleton in H1 as ->. by apply truthy_true in Hq.
  - split; [|done]. unfold names_of_item. simpl.
    destruct H2 as [->|[-> Hn%truthy_true]]; [left|right].
    rewrite Hn. left.
Qed.

Lemma links_names items c p :
  (c, p) ∈ links items → c ∈ names_of items ∧ p ∈ names_of items.
Proof.
  intros (Hin & ? & ?)%elem_of_links.
  split; apply elem_of_names_of; exists (c, Some p); naive_solver.
Qed.

Lemma kids_in_names items p c : c ∈ kids_in items p → c ∈ names_of items.
Proof.
  unfold kids_in. intros ([c' p'] & -> & [_ H]%list_elem_of_filter)%list_elem_of_fmap.
  by apply links_names in H as [].
Qed.

Lemma kids_in_fresh items n : n ∉ names_of items → kids_in items n = [].
Proof.
  intros Hn. unfold kids_in.
  destruct (filter _ _) as [|[c p] l] eqn:E; [done|].
  assert ((c, p) ∈ filter (λ l, l.2 = n) (links items)) as Hin
    by (rewrite E; left).
  apply list_elem_of_filter in Hin as [Hp Hin]. simpl in Hp. subst p.
  by apply links_names in Hin as [].
Qed.

Lemma par_in_fresh items n : n ∉ names_of items → par_in items n = None.
Proof.
  intros Hn. unfold par_in.
  destruct (filter _ _) as [|[c p] l] eqn:E; [done|].
  assert ((c, p) ∈ filter (λ l, l.1 = n) (links items)) as Hin
    by (rewrite E; left).
  apply list_elem_of_filter in Hin as [Hp Hin]. simpl in Hp. subst c.
  by apply links_names in Hin as [].
Qed.

Lemma kids_in_snoc items item n :
  kids_in (items ++ [item]) n =
  kids_in items n ++
  match link_of item with
  | Some (c, p) => if decide (p = n) then [c] else []
  | None => []
  end.
Proof.
  unfold kids_in. rewrite links_snoc, filter_app, fmap_app. f_equal.
  destruct (link_of item) as [[c p]|]; simpl; [|done].
  rewrite filter_cons. simpl. by case_decide.
Qed.

Lemma par_in_snoc items item n :
  par_in (items ++ [item]) n =
  match link_of item with
  | Some (c, p) => if decide (c = n) then Some p else par_in items n
  | None => par_in items n
  end.
Proof.
  unfold par_in. rewrite links_snoc, filter_app, fmap_app.
  destruct (link_of item) as [[c p]|]; simpl; [|by rewrite app_nil_r].
  rewrite filter_cons. simpl. case_decide; simpl.
  - by rewrite last_snoc.
  - rewrite ?filter_nil. simpl. by rewrite app_nil_r.
Qed.

(** *** The tree after all pushes *)

Lemma elem_of_first_seen l x : x ∈ first_seen l ↔ x ∈ l.
Proof.
  induction l as [|y l IH] using rev_ind; [done|].
  rewrite first_seen_app. simpl. case_decide; set_solver.
Qed.

Lemma first_seen_NoDup l : NoDup (first_seen l).
Proof.
  induction l as [|y l IH] using rev_ind; [constructor|].
  rewrite first_seen_app. simpl. case_decide; [done|].
  apply NoDup_app. split_and!; [done|set_solver|apply NoDup_singleton].
Qed.

Lemma push_keys (t : Tree) item :
  (push t item).*1 =
  foldl (λ acc x, if decide (x ∈ acc) then acc else acc ++ [x]) t.*1
    (names_of_item item).
Proof.
  destruct item as [name [p|]]; unfold push, names_of_item; simpl;
    [|by rewrite ensure_keys].
  destruct (truthy p); simpl; [|by rewrite ensure_keys].
  case_decide; rewrite ?update_keys, !ensure_keys; done.
Qed.

(** The tree holds exactly the mentioned names, in the order of first
    mention, each with its declared children and last declared parent. *)
Definition built (items : list Item) (t : Tree) : Prop :=
  t.*1 = first_seen (names_of items) ∧
  ∀ n, get n t =
       if decide (n ∈ names_of items)
       then Some (mkNode (kids_in items n) (par_in items n)) else None.

Lemma link_of_names item c p :
  link_of item = Some (c, p) → names_of_item item = [c; p].
Proof.
  intros (-> & Hp%truthy_true & _)%link_of_Some.
  unfold names_of_item. simpl. by rewrite Hp.
Qed.

Lemma link_of_None_push (t : Tree) item :
  link_of item = None →
  push t item =
  foldl (λ t n, ensure n t) t (names_of_item item).
Proof.
  destruct item as [name [p|]]; unfold push, names_of_item; simpl; [|done].
  destruct (truthy p); simpl; [|done].
  case_bool_decide; simpl; [|done]. intros _. by rewrite decide_True.
Qed.

Lemma get_ensure_built items n m (t : Tree) :
  built items t →
  get m (ensure n t) =
  if decide (m ∈ names_of items ++ [n])
  then Some (mkNode (kids_in items m) (par_in items m)) else None.
Proof.
  intros [_ Hget]. rewrite get_ensure, Hget.
  destruct (decide (m ∈ names_of items)) as [Hm|Hm].
  - rewrite decide_True; [done|set_solver].
  - case_decide as E; [subst m|].
    + rewrite decide_True by set_solver.
      by rewrite kids_in_fresh, par_in_fresh.
    + rewrite decide_False; [done|set_solver].
Qed.

Lemma push_all_snoc items item :
  push_all (items ++ [item]) = push (push_all items) item.
Proof. unfold push_all. by rewrite foldl_snoc. Qed.

Lemma push_built items item (t : Tree) :
  built items t → built (items ++ [item]) (push t item).
Proof.
  intros Hb. split.
  { rewrite push_keys, names_of_snoc, first_seen_app. by destruct Hb as [-> _]. }
  intros n. rewrite names_of_snoc, kids_in_snoc, par_in_snoc.
  destruct (link_of item) as [[c p]|] eqn:Hl.
  - rewrite (link_of_names _ _ _ Hl).
    apply link_of_Some in Hl as (-> & Hp%truthy_true & Hne).
    unfold push. rewrite Hp, decide_False by done.
    rewrite !get_update, get_ensure.
    rewrite (get_ensure_built items) by done.
    destruct Hb as [_ Hget].
    destruct (decide (n ∈ names_of items)) as [Hn|Hn].
    + rewrite (decide_True (P:=n ∈ names_of items ++ [c])) by set_solver.
      rewrite (decide_True (P:=n ∈ names_of items ++ [c; p])) by set_solver.
      repeat case_decide; simplify_eq/=; by rewrite ?app_nil_r.
    + rewrite (kids_in_fresh _ _ Hn), (par_in_fresh _ _ Hn).
      repeat case_decide; simplify_eq/=; try done; set_solver.
  - rewrite (link_of_None_push _ _ Hl), app_nil_r.
    destruct item as [name q]. unfold names_of_item. simpl.
    assert (∀ m, get n (ensure m t) =
      if decide (n ∈ names_of items ++ [m])
      then Some (mkNode (kids_in items n) (par_in items n)) else None) as He
      by (intros; by apply get_ensure_built).
    destruct q as [q|]; [destruct (truthy q) eqn:Hq|]; simpl; rewrite ?He; try done.
    assert (q = name) as ->.
    { destruct (decide (q = name)) as [|Hne]; [done|].
      assert (link_of (name, Some q) = Some (name, q)) as Hs; [|congruence].
      apply link_of_Some. by rewrite <-truthy_true. }
    rewrite get_ensure, He.
    repeat case_decide; simplify_eq/=; try done; set_solver.
Qed.

Lemma push_all_built items : built items (push_all items).
Proof.
  induction items as [|item items IH] using rev_ind.
  - split; [done|]. intros n. rewrite decide_False; [done|].
    by intros ?%elem_of_nil.
  - rewrite push_all_snoc. by apply push_built.
Qed.

(** *** [to_list] is the forest traversal *)

Lemma extend_all_mapM walk names ns :
  extend_all walk names ns = ls ← mapM walk ns; Some (names ++ concat ls).
Proof.
  unfold extend_all. revert names. induction ns as [|n ns IH]; intros names; simpl.
  - by rewrite app_nil_r.
  - destruct (walk n) as [l|]; simpl.
    + rewrite IH. destruct (mapM walk ns); simpl; [|done].
      by rewrite app_assoc.
    + clear IH. induction ns as [|n' ns IH]; simpl; [done|]. apply IH.
Qed.

Lemma mapM_ext_elem {A B} (g h : A → option B) l :
  (∀ x, x ∈ l → g x = h x) → mapM g l = mapM h l.
Proof.
  induction l as [|x l IH]; intros H; simpl; [done|].
  rewrite H by left. rewrite IH; [done|]. intros; apply H; by right.
Qed.

Section built.
Variable items : list Item.
Variable t : Tree.
Hypothesis Hbuilt : built items t.

Lemma built_get n :
  n ∈ names_of items →
  get n t = Some (mkNode (kids_in items n) (par_in items n)).
Proof. intros Hn. destruct Hbuilt as [_ ->]. by rewrite decide_True. Qed.

Lemma built_keys n : n ∈ t.*1 ↔ n ∈ names_of items.
Proof. destruct Hbuilt as [-> _]. apply elem_of_first_seen. Qed.

Lemma built_NoDup : NoDup t.*1.
Proof. destruct Hbuilt as [-> _]. apply first_seen_NoDup. Qed.

Lemma Node_to_list_walk fuel n :
  n ∈ names_of items →
  Node_to_list fuel t n = Forest.walk (kids_in items) fuel n.
Proof.
  revert n. induction fuel as [|fuel IH]; intros n Hn; simpl; [done|].
  rewrite built_get by done. simpl. rewrite extend_all_mapM.
  erewrite mapM_ext_elem; [done|].
  intros c Hc%kids_in_names. by apply IH.
Qed.

Lemma roots_top : roots t = Forest.top (par_in items) t.*1.
Proof.
  unfold roots, Forest.top.
  assert (∀ e, e ∈ t → parent e.2 = par_in items e.1) as Hpar.
  { intros [k nd] Hin. pose proof (elem_of_get _ _ _ built_NoDup Hin) as Hg.
    rewrite built_get in Hg.
    - by injection Hg as <-.
    - apply built_keys, list_elem_of_fmap. by exists (k, nd). }
  clear Hbuilt. induction t as [|e t' IH]; [done|].
  rewrite fmap_cons, filter_cons.
  rewrite (filter_cons (λ e : string * Node, parent e.2 = None)).
  rewrite <-IH by (intros; apply Hpar; by right).
  pose proof (Hpar e ltac:(left)) as He.
  repeat case_decide; try congruence; done.
Qed.

Lemma Tree_to_list_flatten fuel :
  Tree_to_list fuel t = Forest.flatten (kids_in items) (par_in items) t.*1 fuel.
Proof.
  unfold Tree_to_list, Forest.flatten. rewrite extend_all_mapM, roots_top.
  erewrite mapM_ext_elem; [done|].
  intros r [_ Hr]%Forest.elem_of_top. by apply Node_to_list_walk, built_keys.
Qed.
End built.

(** *** Inputs that link every name at most once *)

Lemma filter_fst_unique (l : list (string * string)) c p :
  NoDup l.*1 → (c, p) ∈ l → filter (λ e, e.1 = c) l = [(c, p)].
Proof.
  induction l as [|[c' p'] l IH]; simpl; [by intros _ ?%elem_of_nil|].
  intros [Hc Hl]%NoDup_cons [[= <- <-]|Hin]%elem_of_cons; rewrite filter_cons; simpl.
  - rewrite decide_True by done. f_equal.
    destruct (filter _ l) as [|[c2 p2] l2] eqn:E; [done|].
    assert ((c2, p2) ∈ filter (λ e, e.1 = c) l) as [? Hin]%list_elem_of_filter
      by (rewrite E; left).
    simpl in *; subst c2. destruct Hc. apply list_elem_of_fmap. by exists (c, p2).
  - rewrite decide_False; [by apply IH|].
    intros ->. apply Hc, list_elem_of_fmap. by exists (c, p).
Qed.

Section linked_once.
Variable items : list Item.
Hypothesis Honce : LinkedOnce items.

Lemma par_in_declared c p : par_in items c = Some p ↔ declared items p c.
Proof.
  unfold par_in, declared. split.
  - intros H%last_Some_elem_of.
    apply list_elem_of_fmap in H as ([c' p'] & -> & [Hc Hin]%list_elem_of_filter).
    simpl in Hc. by subst c'.
  - intros Hin. by rewrite (filter_fst_unique _ c p).
Qed.

Lemma kids_in_declared p c : c ∈ kids_in items p ↔ declared items p c.
Proof.
  unfold kids_in, declared. rewrite list_elem_of_fmap. split.
  - intros ([c' p'] & -> & [Hp Hin]%list_elem_of_filter). simpl in Hp. by subst p'.
  - intros Hin. exists (c, p). split; [done|]. by apply list_elem_of_filter.
Qed.

Lemma kids_in_NoDup p : NoDup (kids_in items p).
Proof.
  unfold kids_in. eapply sublist_NoDup; [apply Honce|].
  apply fmap_sublist, sublist_filter.
Qed.

Lemma tc_link_declared a b :
  tc (Forest.link (par_in items)) a b ↔ tc (declared items) a b.
Proof.
  split; induction 1 as [x y H|x y z H _ IH];
    apply par_in_declared in H; eauto using tc_once, tc_l.
Qed.
End linked_once.

Lemma before_filter {A} (P : A → Prop) `{!∀ x, Decision (P x)} a b (l : list A) :
  P a → P b → before a b l → before a b (filter P l).
Proof.
  intros Ha Hb (i & j & Hi & Hj & Hij). revert i j Hi Hj Hij.
  induction l as [|x l IH]; intros i j Hi Hj Hij; [done|].
  rewrite filter_cons. destruct i as [|i], j as [|j]; try lia; simpl in *.
  - injection Hi as ->. rewrite decide_True by done. apply before_head.
    apply list_elem_of_filter. split; [done|]. by eapply list_elem_of_lookup_2.
  - assert (before a b (filter P l)) as Hf by (eapply IH; eauto with lia).
    case_decide; [|done]. by apply (before_app_r _ _ [x]).
Qed.

End TreeFacts.

(** ** Claims about the hierarchical sort *)

Import ExportScene TreeSpec.

Lemma rank_Acyclic (items : list Item) (rank : string → nat) :
  (∀ c p, (c, p) ∈ links items → rank p < rank c) → Acyclic items.
Proof.
  intros Hrank n Hn.
  assert (∀ a b, tc (declared items) a b → rank a < rank b) as Hlt.
  { induction 1 as [a b H|a b c H _ IH]; apply Hrank in H; lia. }
  apply Hlt in Hn. lia.
Qed.

(** C1, as amended.  For every input in which no name is linked under a
    parent by more than one pair and the declared links are acyclic
    (forward references, repeated parentless pairs, self-parent pairs and
    empty parent names are all allowed), [Tree.to_list] after pushing the
    pairs in order returns, for every sufficient recursion depth, one and
    the same list [out]; [out] is a permutation of the distinct names the
    input mentions; every name comes after its parent and before all of
    its descendants; the children of one parent keep the order in which
    their pairs were pushed; parentless names keep the order of their first
    mention. *)
Theorem C1_to_list_forest_order (items : list Item) :
  LinkedOnce items →
  Acyclic items →
  ∃ (fuel0 : nat) (out : list string),
    (∀ fuel : nat, (fuel0 ≤ fuel)%nat →
      Tree_to_list fuel (push_all items) = Some out) ∧
    out ≡ₚ remove_dups (names_of items) ∧
    (∀ p c, declared items p c → before p c out) ∧
    (∀ a d, tc (declared items) a d → before a d out) ∧
    (∀ p c1 c2, before c1 c2 (kids_in items p) → before c1 c2 out) ∧
    (∀ r1 r2, par_in items r1 = None → par_in items r2 = None →
      before r1 r2 (first_seen (names_of items)) → before r1 r2 out).
Proof.
  intros Honce Hacyc.
  pose proof (TreeFacts.push_all_built items) as Hb.
  set (t := push_all items) in *.
  set (kids := kids_in items). set (par := par_in items).
  assert (NoDup t.*1) as Hk by by eapply TreeFacts.built_NoDup.
  assert (∀ p c, c ∈ kids p ↔ par c = Some p) as Hkp.
  { intros p c. unfold kids, par.
    by rewrite TreeFacts.kids_in_declared, TreeFacts.par_in_declared. }
  assert (∀ p, NoDup (kids p)) as Hkn by by apply TreeFacts.kids_in_NoDup.
  assert (∀ c p, par c = Some p → c ∈ t.*1 ∧ p ∈ t.*1) as Hpk.
  { intros c p H%TreeFacts.par_in_declared; [|done].
    apply TreeFacts.links_names in H as [].
    by rewrite !(TreeFacts.built_keys items t). }
  assert (∀ n, ¬ tc (Forest.link par) n n) as Hac.
  { intros n H%TreeFacts.tc_link_declared; [|done]. by apply Hacyc in H. }
  destruct (Forest.flatten_total kids par t.*1 Hkp Hpk Hac) as (fuel0 & out & Hout).
  assert (Forest.flatten kids par t.*1 fuel0 = Some out) as Hf by by apply Hout.
  exists fuel0, out. split_and!.
  - intros fuel Hfuel. rewrite (TreeFacts.Tree_to_list_flatten items) by done.
    by apply Hout.
  - etrans; [by eapply Forest.flatten_Permutation|].
    apply NoDup_Permutation; [done|apply NoDup_remove_dups|].
    intros x. by rewrite elem_of_remove_dups, (TreeFacts.built_keys items t).
  - intros p c H%TreeFacts.par_in_declared; [|done].
    by eapply Forest.flatten_parent_first.
  - intros a d H%TreeFacts.tc_link_declared; [|done].
    by eapply Forest.flatten_ancestor_first.
  - intros p c1 c2 (i & j & Hi & Hj & Hij).
    by eapply (Forest.flatten_siblings kids par t.*1).
  - intros r1 r2 H1 H2 Hbef.
    destruct Hb as [Hkeys _]. rewrite <-Hkeys in Hbef.
    apply (TreeFacts.before_filter (λ n, par n = None)) in Hbef as (i & j & Hi & Hj & Hij);
      [|done..].
    by eapply (Forest.flatten_tops kids par t.*1).
Qed.

Definition cube_items : list Item :=
  [("Cube", None); ("Cube.001", Some "Cube")].

Lemma C1_to_list_forest_order_witness :
  ∃ (fuel0 : nat) (out : list string),
    (∀ fuel : nat, (fuel0 ≤ fuel)%nat →
      Tree_to_list fuel (push_all cube_items) = Some out) ∧
    out ≡ₚ remove_dups (names_of cube_items) ∧
    (∀ p c, declared cube_items p c → before p c out) ∧
    (∀ a d, tc (declared cube_items) a d → before a d out) ∧
    (∀ p c1 c2, before c1 c2 (kids_in cube_items p) → before c1 c2 out) ∧
    (∀ r1 r2, par_in cube_items r1 = None → par_in cube_items r2 = None →
      before r1 r2 (first_seen (names_of cube_items)) → before r1 r2 out).
Proof.
  apply (C1_to_list_forest_order cube_items).
  - unfold LinkedOnce. vm_compute. apply NoDup_singleton.
  - apply (rank_Acyclic _ String.length).
    intros c p H. vm_compute in H.
    apply list_elem_of_singleton in H. injection H as -> ->. vm_compute. lia.
Defined.

(** The scenario of the specification: Cube, then its child Cube.001. *)
Lemma cube_order fuel :
  Tree_to_list (S (S fuel)) (push_all cube_items) = Some ["Cube"; "Cube.001"].
Proof. reflexivity. Qed.

(** C1 as stated fails when a (name, parent) pair is pushed twice: the
    input is acyclic, yet the child is listed twice, so the output is not
    a permutation of the distinct names. *)
Lemma C1_duplicate_pair_counterexample :
  let items := [("B", Some "A"); ("B", Some "A")] in
  Acyclic items ∧
  (∀ fuel : nat, (2 ≤ fuel)%nat →
    Tree_to_list fuel (push_all items) = Some ["A"; "B"; "B"]) ∧
  ¬ (["A"; "B"; "B"] ≡ₚ remove_dups (names_of items)).
Proof.
  split_and!.
  - apply (rank_Acyclic _ (λ s, if decide (s = "A") then 0 else 1)).
    intros c p H. vm_compute in H.
    apply elem_of_cons in H as [H|H%list_elem_of_singleton];
      injection H as -> ->; vm_compute; lia.
  - intros [|[|fuel]] Hf; [lia..|]. reflexivity.
  - intros H%Permutation_length. vm_compute in H. lia.
Qed.

(** ** Theory: the element store under [UrhoExportPrefabs] *)

Module StoreFacts.
Import Prefabs.

#[global] Arguments RigidBody_attributes : simpl never.
#[global] Arguments CollisionShape_attributes : simpl never.
#[global] Arguments Model_attributes : simpl never.
#[global] Arguments attributes_if : simpl never.
#[global] Arguments shown : simpl never.
#[global] Arguments format_d : simpl never.

Lemma bind_run {A B} (m : M A) (k : A → M B) s a s' :
  m s = Normal a s' → (m ≫= k) s = k a s'.
Proof. intros H. unfold mbind, M_bind. by rewrite H. Qed.

Lemma bind_returned {A B} (m : M A) (k : A → M B) s s' :
  m s = Returned s' → (m ≫= k) s = Returned s'.
Proof. intros H. unfold mbind, M_bind. by rewrite H. Qed.

Lemma bind_raised {A B} (m : M A) (k : A → M B) s e s' :
  m s = Raised e s' → (m ≫= k) s = Raised e s'.
Proof. intros H. unfold mbind, M_bind. by rewrite H. Qed.

Lemma for_each_app {A} (l1 l2 : list A) (f : A → M unit) s s1 :
  for_each l1 f s = Normal () s1 →
  for_each (l1 ++ l2) f s = for_each l2 f s1.
Proof.
  revert s. induction l1 as [|a l1 IH]; intros s; simpl.
  - by intros [= ->].
  - unfold mbind, M_bind. destruct (f a s) as [[] s'| |]; [|done..]. apply IH.
Qed.

(** The element that [attribute] creates. *)
Definition attribute_element (a : Attr) : ET.Element :=
  ET.mkElement "attribute" [("name", a.1); ("value", a.2)] [].

Definition add_kids (cs : list nat) (e : ET.Element) : ET.Element :=
  ET.mkElement (ET.tag e) (ET.attrib e) (ET.kids e ++ cs).

(** The store after a run of [attribute] calls on [parent]. *)
Definition grow (parent : nat) (l : list Attr) (h : ET.Store) : ET.Store :=
  alter (add_kids (seq (length h) (length l))) parent h
  ++ (attribute_element <$> l).

Lemma SubElement_store parent tg (h : ET.Store) :
  parent < length h →
  ET.SubElement parent tg h =
  (length h, alter (ET.add_kid (length h)) parent h ++ [ET.mkElement tg [] []]).
Proof.
  intros. unfold ET.SubElement, ET.new, ET.append. simpl.
  by rewrite alter_app_l.
Qed.

Lemma set_last k v (h : ET.Store) el :
  ET.set (length h) k v (h ++ [el]) = h ++ [ET.set_attrib k v el].
Proof.
  unfold ET.set. replace (length h) with (length h + 0) by lia.
  by rewrite alter_app_r.
Qed.

Lemma set_new_element f t k v (h : ET.Store) el :
  ET.set (length h) k v (alter f t h ++ [el]) =
  alter f t h ++ [ET.set_attrib k v el].
Proof. rewrite <-(length_alter f h t) at 1. apply set_last. Qed.

Lemma attribute_run parent a s :
  parent < length (xml s) →
  attribute parent a s =
  Normal () (with_xml (grow parent [a] (xml s)) s).
Proof.
  intros Hp. unfold attribute, SubElement, set, modify, mbind, M_bind.
  rewrite SubElement_store by done. simpl.
  set (h1 := alter _ parent (xml s)).
  assert (length h1 = length (xml s)) as Hlen by apply length_alter.
  rewrite <-Hlen, !set_last. unfold grow. simpl.
  done.
Qed.

Lemma grow_cons parent a l (h : ET.Store) :
  parent < length h →
  grow parent l (grow parent [a] h) = grow parent (a :: l) h.
Proof.
  intros Hp. unfold grow. simpl.
  rewrite length_app, length_alter. simpl.
  rewrite alter_app_l by by rewrite length_alter.
  rewrite list_alter_alter_eq, <-app_assoc. simpl. f_equal.
  apply list_alter_ext; [|done]. intros [tg ats ks] _. unfold add_kids. simpl.
  rewrite <-app_assoc. simpl. by rewrite Nat.add_1_r.
Qed.

Lemma length_grow parent l (h : ET.Store) :
  length (grow parent l h) = length h + length l.
Proof. unfold grow. by rewrite length_app, length_alter, length_fmap. Qed.

Lemma attributes_run parent l s :
  parent < length (xml s) →
  for_each l (attribute parent) s = Normal () (with_xml (grow parent l (xml s)) s).
Proof.
  revert s. induction l as [|a l IH]; intros s Hp; simpl.
  - unfold grow. simpl. rewrite app_nil_r, list_alter_id.
    + by destruct s.
    + intros []. unfold add_kids. simpl. by rewrite app_nil_r.
  - erewrite bind_run by by apply attribute_run.
    rewrite IH by (simpl; rewrite length_grow; lia).
    simpl. by rewrite grow_cons.
Qed.

Lemma attributes_if_run parent table s :
  parent < length (xml s) →
  attributes_if parent table s =
  Normal () (with_xml (grow parent (shown table) (xml s)) s).
Proof. apply attributes_run. Qed.

(** Reading the grown store back. *)

Lemma lookup_grow_old parent l (h : ET.Store) c :
  c < length h →
  grow parent l h !! c =
  (if decide (parent = c) then add_kids (seq (length h) (length l)) else id) <$> h !! c.
Proof.
  intros Hc. unfold grow.
  rewrite lookup_app_l by by rewrite length_alter.
  rewrite list_lookup_alter. case_decide; [by subst|]. by destruct (h !! c).
Qed.

Lemma lookup_grow_new parent l (h : ET.Store) i :
  grow parent l h !! (length h + i) = attribute_element <$> l !! i.
Proof.
  unfold grow. rewrite lookup_app_r by (rewrite length_alter; lia).
  rewrite length_alter, list_lookup_fmap. f_equal. f_equal. lia.
Qed.

Lemma children_grow parent l (h : ET.Store) :
  parent < length h →
  ET.children parent (grow parent l h) =
  ET.children parent h ++ seq (length h) (length l).
Proof.
  intros Hp. unfold ET.children. rewrite lookup_grow_old by done.
  rewrite decide_True by done.
  destruct (lookup_lt_is_Some_2 h parent Hp) as [el ->]. done.
Qed.

Lemma has_tag_grow_old parent l (h : ET.Store) tg c :
  c < length h → ET.has_tag tg (grow parent l h) c = ET.has_tag tg h c.
Proof.
  intros Hc. unfold ET.has_tag. rewrite lookup_grow_old by done.
  destruct (h !! c) as [el|]; [|done]. simpl. by case_decide.
Qed.

Lemma get_grow_old parent l (h : ET.Store) k c :
  c < length h → ET.get c k (grow parent l h) = ET.get c k h.
Proof.
  intros Hc. unfold ET.get. rewrite lookup_grow_old by done.
  destruct (h !! c) as [el|]; [|done]. simpl. by case_decide.
Qed.

Lemma attributes_new (h' : ET.Store) n (l : list Attr) :
  (∀ i, (i < length l)%nat → h' !! (n + i) = attribute_element <$> l !! i) →
  omap (ET.read_attribute h')
       (filter (λ c, ET.has_tag "attribute" h' c = true) (seq n (length l))) = l.
Proof.
  revert n. induction l as [|a l IH]; intros n H; [done|].
  simpl. rewrite filter_cons.
  pose proof (H 0 ltac:(simpl; lia)) as H0. rewrite Nat.add_0_r in H0. simpl in H0.
  assert (ET.has_tag "attribute" h' n = true) as ->.
  { unfold ET.has_tag. by rewrite H0. }
  rewrite decide_True by done. simpl.
  unfold ET.read_attribute at 1, ET.get. rewrite H0. simpl.
  f_equal; [by destruct a|]. apply IH. intros i Hi.
  replace (S n + i) with (n + S i) by lia. apply H. simpl. lia.
Qed.

Lemma attributes_old parent l (h : ET.Store) cs :
  Forall (λ c, c < length h) cs →
  omap (ET.read_attribute (grow parent l h))
       (filter (λ c, ET.has_tag "attribute" (grow parent l h) c = true) cs) =
  omap (ET.read_attribute h)
       (filter (λ c, ET.has_tag "attribute" h c = true) cs).
Proof.
  induction 1 as [|c cs Hc _ IH]; [done|].
  rewrite !filter_cons, has_tag_grow_old by done.
  case_decide; [|done].
  assert (ET.read_attribute (grow parent l h) c = ET.read_attribute h c) as Hr.
  { unfold ET.read_attribute. by rewrite !get_grow_old. }
  unfold omap in *. simpl. by rewrite Hr, IH.
Qed.

(** The attribute children of [parent] are the old ones, then the new. *)
Lemma attributes_grow parent l (h : ET.Store) :
  parent < length h →
  Forall (λ c, c < length h) (ET.children parent h) →
  ET.attributes parent (grow parent l h) = ET.attributes parent h ++ l.
Proof.
  intros Hp Hold. unfold ET.attributes, ET.findall.
  rewrite children_grow by done. rewrite filter_app, omap_app. f_equal.
  - by apply attributes_old.
  - apply (attributes_new _ (length h) l). intros i _. apply lookup_grow_new.
Qed.

End StoreFacts.

(** ** Fixtures for the concrete runs *)

Module Fixtures.
Import ExportScene Prefabs.

(** *** A formatter

    Python's ['{:g}'] on a binary64 value: six significant digits, rounded
    half to even on the exact value, trailing zeros removed, exponent form
    below 1e-4 and from 1e6 on.  It instantiates the formatters that [Env]
    leaves open. *)

Fixpoint drop_zeros (l : list Ascii.ascii) : list Ascii.ascii :=
  match l with
  | "0"%char :: l' => drop_zeros l'
  | _ => l
  end.

Definition strip_zeros (s : string) : string :=
  String.string_of_list_ascii
    (reverse (drop_zeros (reverse (String.list_ascii_of_string s)))).

Definition pad (d : nat) (s : string) : string :=
  String.string_of_list_ascii (replicate (d - String.length s) "0"%char) +:+ s.

Definition digits (n : Z) : Z := Z.of_nat (String.length (pretty n)).

Definition round_half_even (n d : Z) : Z :=
  let q := (n / d)%Z in
  let r := (n mod d)%Z in
  match (2 * r ?= d)%Z with
  | Lt => q
  | Gt => (q + 1)%Z
  | Eq => if Z.even q then q else (q + 1)%Z
  end.

(** [num / den] scaled by [10 ^ k], as a fraction. *)
Definition scale10 (num den k : Z) : Z * Z :=
  if (0 <=? k)%Z then (num * 10 ^ k, den)%Z else (num, den * 10 ^ (- k))%Z.

Definition with_dot (ip fr : string) : string :=
  if decide (fr = "") then ip else ip +:+ "." +:+ fr.

Definition format_positive (num den : Z) : string :=
  let e0 := (digits num - digits den)%Z in
  let '(n0, d0) := scale10 num den (- e0) in
  let e1 := if (d0 <=? n0)%Z then e0 else (e0 - 1)%Z in
  let '(n1, d1) := scale10 num den (5 - e1) in
  let q0 := round_half_even n1 d1 in
  let '(q, e) := if (1000000 <=? q0)%Z then (100000, e1 + 1)%Z else (q0, e1) in
  let ds := pretty q in
  if ((e <? -4) || (6 <=? e))%Z then
    with_dot (String.substring 0 1 ds) (strip_zeros (String.substring 1 5 ds))
    +:+ "e" +:+ (if (e <? 0)%Z then "-" else "+")
    +:+ pad 2 (pretty (Z.abs e))
  else if (e <? 0)%Z then
    with_dot "0" (strip_zeros (pad (Z.to_nat (5 - e)) ds))
  else
    with_dot (String.substring 0 (Z.to_nat (e + 1)) ds)
             (strip_zeros (String.substring (Z.to_nat (e + 1)) 6 ds)).

Definition python_format_g (a : float) : string :=
  match Prim2SF a with
  | S754_zero s => if s then "-0" else "0"
  | S754_infinity s => if s then "-inf" else "inf"
  | S754_nan => "nan"
  | S754_finite s m e =>
      (if s then "-" else "") +:+
      (if (0 <=? e)%Z then format_positive (Z.pos m * 2 ^ e) 1
       else format_positive (Z.pos m) (2 ^ (- e)))
  end.

Definition python_format_g3 (v : Vector) : string :=
  python_format_g (vx v) +:+ " " +:+ python_format_g (vy v) +:+ " " +:+
  python_format_g (vz v).

(** *** Objects, scenes and the environment *)

Definition zero3 : Vector := mkVector 0 0 0.
Definition one3 : Vector := mkVector 1 1 1.

(** An object with every property at its default. *)
Definition plain : Object :=
  {| urho_activate_physics := false;
     urho_create_subnode := false;
     urho_subnode_rotation := zero3;
     urho_create_navigable := false;
     model := UrhoComponentModelReset;
     shape := UrhoComponentShapeReset;
     body := UrhoComponentBodyReset;
     nodePos := zero3; nodeRot := zero3; nodeScale := one3 |}.

Definition with_physics (sh : ShapeProps) (b : BodyProps) (o : Object) : Object :=
  {| urho_activate_physics := true;
     urho_create_subnode := urho_create_subnode o;
     urho_subnode_rotation := urho_subnode_rotation o;
     urho_create_navigable := urho_create_navigable o;
     model := model o; shape := sh; body := b;
     nodePos := nodePos o; nodeRot := nodeRot o; nodeScale := nodeScale o |}.

Definition with_body (b : BodyProps) (o : Object) : Object :=
  {| urho_activate_physics := urho_activate_physics o;
     urho_create_subnode := urho_create_subnode o;
     urho_subnode_rotation := urho_subnode_rotation o;
     urho_create_navigable := urho_create_navigable o;
     model := model o; shape := shape o; body := b;
     nodePos := nodePos o; nodeRot := nodeRot o; nodeScale := nodeScale o |}.

(** A shape of the given type and overrides, otherwise default. *)
Definition shape_of (ty : string) (overwrite_size overwrite_offset : bool) : ShapeProps :=
  {| urho_shape_type := ty;
     urho_size_factor := one3;
     urho_offset_rotation := zero3;
     urho_lod_level := 0;
     urho_collision_margin := 0x1.47ae147ae147bp-5;
     urho_customgeometry_nodeid := 0;
     urho_overwrite_model := false;
     urho_model := "";
     urho_overwrite_size := overwrite_size;
     urho_size := mkVector 3 3 3;
     urho_overwrite_offset_position := overwrite_offset;
     urho_offset_position := mkVector 7 7 7 |}.

(** A body with the given friction, otherwise default. *)
Definition body_of (friction : float) : BodyProps :=
  {| urho_mass := 0.0;
     urho_friction := friction;
     urho_anisotropic_friction := one3;
     urho_rolling_friction := 0.0;
     urho_restitution := 0.0;
     urho_linear_velocity := zero3;
     urho_angular_velocity := zero3;
     urho_linear_factor := one3;
     urho_angular_factor := one3;
     urho_linear_damping := 0.0;
     urho_angular_damping := 0.0;
     urho_linear_rest_threshold := 0x1.999999999999ap-1;
     urho_angular_rest_threshold := 1.0;
     urho_collision_layer := [true; false; false; false; false; false; false; false];
     urho_collision_mask := replicate 8 true;
     urho_contact_threshold := 1e18;
     urho_ccd_radius := 0.0;
     urho_ccd_motion_threshold := 0.0;
     urho_collision_event_mode := "WHENACTIVE";
     urho_use_gravity := true;
     urho_is_kinematic := false;
     urho_is_trigger := false;
     urho_gravity_override := zero3 |}.

(** Paths are [category + name + ".xml"], every write is allowed, and the
    category strings are distinct non-empty prefixes. *)
Definition env (objs : list (string * Object)) : Env :=
  {| PathType_MODELS := "MODE-";
     PathType_MATERIALS := "MATE-";
     PathType_OBJECTS := "OBJE-";
     PathType_SCENES := "SCEN-";
     GetFilepath := λ ty n, (ty +:+ n +:+ ".xml", ty +:+ n +:+ ".xml");
     CheckFilepath := λ _, true;
     FloatToString := python_format_g;
     Vector3ToString := python_format_g3;
     format_g := python_format_g;
     objects := list_to_map objs;
     active := plain;
     globalOrigin := false |}.

Definition unit_box : BoundingBox := mkBoundingBox (mkVector 0 0 0) (mkVector 1 1 1).

Definition static_model (n : string) (parent : option string) : UrhoSceneModel :=
  mkUrhoSceneModel n parent "StaticModel" [] unit_box.

Definition animated_model (n : string) (parent : option string) : UrhoSceneModel :=
  mkUrhoSceneModel n parent "AnimatedModel" [] unit_box.

(** A scene whose models all have their [.mdl] registered. *)
Definition scene_of (models : list UrhoSceneModel) : UrhoScene :=
  mkUrhoScene "Scene" models
    (list_to_map ((λ m, ("MODE-" +:+ name m, "Models/" +:+ name m +:+ ".mdl")) <$> models)).

Definition options (individual collective scene physics : bool) : SOptions :=
  mkSOptions individual collective scene physics false false false false ""
             "Everything".

(** The [id] attributes of a document, with the tag that carries each,
    in document order. *)
Fixpoint ids (doc : ET.Xml) : list (string * string) :=
  match doc with
  | ET.XNode tg a ks =>
      match ET.attrib_get "id" a with
      | Some i => [(tg, i)]
      | None => []
      end ++ concat (ids <$> ks)
  end.

(** The [(name, value)] pairs of all [attribute] elements of a document. *)
Fixpoint all_attributes (doc : ET.Xml) : list (string * string) :=
  match doc with
  | ET.XNode tg a ks =>
      match ET.attrib_get "name" a, ET.attrib_get "value" a with
      | Some n, Some v => if decide (tg = "attribute") then [(n, v)] else []
      | _, _ => []
      end ++ concat (all_attributes <$> ks)
  end.

(** The nesting of the [node] elements of a document, each under the value
    of its Name attribute. *)
Inductive Outline := ONode (n : string) (cs : list Outline).

Definition direct_attributes (ks : list ET.Xml) : list (string * string) :=
  omap (λ k, match k with
             | ET.XNode tg a _ =>
                 if decide (tg = "attribute") then
                   n ← ET.attrib_get "name" a; v ← ET.attrib_get "value" a; Some (n, v)
                 else None
             end) ks.

Fixpoint outline (doc : ET.Xml) : list Outline :=
  match doc with
  | ET.XNode tg a ks =>
      if decide (tg = "node") then
        [ONode (default "" (head (filter (λ a : string * string, a.1 = "Name")
                                         (direct_attributes ks)).*2))
               (concat (outline <$> ks))]
      else []
  end.

(** The documents written by a run, oldest first. *)
Definition documents {A} (o : Outcome A) : list (string * option ET.Xml) :=
  let s := state_of o in
  (λ w : string * nat, (w.1, ET.render (S (length (xml s))) (xml s) w.2))
    <$> written s.

End Fixtures.

(** ** Claims about the file registry *)

Import ExportScene.

(** C6 (code defect).  The duplicate test of [AddFile] looks up the bare
    name, while entries are stored under category + name: a second
    registration of the same (category, name) is accepted without any
    report and replaces the path of the first. *)
Lemma C6_second_registration_replaces_first :
  let r1 := AddFile "MODE-" (Some "Cube") "Models/Cube.mdl" ∅ in
  let r2 := AddFile "MODE-" (Some "Cube") "Other/Cube.mdl" (files_after r1) in
  added r1 = true ∧
  added r2 = true ∧ reported r2 = None ∧
  FindFile "MODE-" (Some "Cube") (files_after r2) = Some "Other/Cube.mdl".
Proof. by vm_compute. Qed.

Lemma length_append (s1 s2 : string) :
  String.length (s1 +:+ s2) = String.length s1 + String.length s2.
Proof. induction s1 as [|c s1 IH]; simpl; [done|]. by rewrite IH. Qed.

(** The same for every non-empty category and name. *)
Lemma AddFile_again pathType n path1 path2 (files : gmap string string) :
  n ≠ "" → pathType ≠ "" → files !! n = None →
  let r1 := AddFile pathType (Some n) path1 files in
  let r2 := AddFile pathType (Some n) path2 (files_after r1) in
  added r1 = true ∧ added r2 = true ∧
  FindFile pathType (Some n) (files_after r2) = Some path2.
Proof.
  intros Hn Hp Hfree. apply truthy_true in Hn.
  assert (pathType +:+ n ≠ n) as Hkey.
  { intros H%(f_equal String.length). rewrite length_append in H.
    destruct pathType; [done|]. simpl in H. lia. }
  simpl. unfold AddFile. rewrite Hn. simpl.
  rewrite bool_decide_eq_false_2 by (rewrite Hfree; by intros []).
  simpl. rewrite bool_decide_eq_false_2.
  - simpl. by rewrite lookup_insert_eq.
  - rewrite lookup_insert_ne, Hfree by done. by intros [].
Qed.

(** ** Claims about identifiers *)

Import Prefabs Fixtures.

Definition rock_and_tree : list (string * Object) := [("Rock", plain); ("Tree", plain)].

Definition individual_ids (models : list UrhoSceneModel)
    : list (string * option (list (string * string))) :=
  (λ d : string * option ET.Xml, (d.1, ids <$> d.2))
    <$> documents (UrhoExportPrefabs (env rock_and_tree) (scene_of models)
                     (options true false false false) 0 10).

(** C4 (code defect).  In the individual pass the component counter is
    reset only inside the physics branch (line 257), so without physics
    it runs on from one object to the next: the prefab of one and the
    same object gets another component id when the object stands second
    in the list. *)
Lemma C4_component_id_depends_on_position :
  individual_ids [static_model "Rock" None; static_model "Tree" None] =
    [ ("OBJE-Rock.xml", Some [("node", "16777216"); ("component", "16777216")]);
      ("OBJE-Tree.xml", Some [("node", "16777216"); ("component", "16777217")]) ] ∧
  individual_ids [static_model "Tree" None; static_model "Rock" None] =
    [ ("OBJE-Tree.xml", Some [("node", "16777216"); ("component", "16777216")]);
      ("OBJE-Rock.xml", Some [("node", "16777216"); ("component", "16777217")]) ].
Proof. by vm_compute. Qed.

(** With the scene document requested as well, the node id of the first
    individual prefab is the counter after the light node, the others are
    the base value: the node counter is reset after it is used (line 168). *)
Lemma individual_node_id_after_scene_components :
  (λ d : string * option ET.Xml, (d.1, take 1 <$> (ids <$> d.2)))
    <$> take 2 (documents (UrhoExportPrefabs (env rock_and_tree)
                   (scene_of [static_model "Rock" None; static_model "Tree" None])
                   (options true false true false) 0 10)) =
  [ ("OBJE-Rock.xml", Some [("node", "16777217")]);
    ("OBJE-Tree.xml", Some [("node", "16777216")]) ].
Proof. by vm_compute. Qed.

(** ** Claims about the scene assembled from prefabs *)

Import ScenePrefab.

Definition tree_prefab : ET.Xml :=
  ET.XNode "node" [("id", "16777216")]
    [ ET.XNode "attribute" [("name", "Name"); ("value", "Tree")] [];
      ET.XNode "component" [("type", "StaticModel"); ("id", "16777216")] [] ].

Definition plain_scene : Scene := mkScene "Scene" "" false false false.

(** C9 (code defect).  The test on line 330 asks whether the instance's
    own name is in [elements], which line 260 has just made true, instead
    of the parent's: an instance that names a parent never placed is not
    put under the scene root, the lookup of the parent raises [KeyError]
    and the function ends without writing the scene. *)
Lemma C9_unplaced_parent_raises :
  let orphan := mkUrhoInstance "Tree" (Some "Ghost") "Tree.001" zero3 zero3 one3 in
  let o := execute (env []) plain_scene {[ "Tree" := tree_prefab ]} [orphan] in
  (∃ s, o = Raised (KeyError "Ghost") s) ∧ written (state_of o) = [].
Proof. vm_compute. split; [by eexists|done]. Qed.

(** ** Claims about a missing model file *)

Import StoreFacts.

Definition missing_model_message (m : UrhoSceneModel) : string :=
  "Prefab generation failure: " +:+ ExportScene.name m +:+
  ".mdl does not exist. You should remove this object from selection (probably 0 face geometry).".

(** The object whose settings are used for a model can be found. *)
Definition has_object (u : Env) (so : SOptions) (m : UrhoSceneModel) : Prop :=
  mergeObjects so || batchComponents so = true
  ∨ is_Some (objects u !! ExportScene.name m).

Lemma export_model_missing u uScene so currentPass models root m s :
  has_object u so m →
  falsy (FindFile (PathType_MODELS u) (Some (ExportScene.name m)) (files uScene)) = true →
  export_model u uScene so currentPass models root m s =
  Returned (with_logged "warning" (missing_model_message m) s).
Proof.
  intros Hobj Hmiss. unfold export_model.
  assert (∃ obj,
    (if mergeObjects so || batchComponents so then mret (active u)
     else match objects u !! ExportScene.name m with
          | Some obj => mret obj
          | None => raise (KeyError (ExportScene.name m))
          end) s = Normal obj s) as [obj Hrun].
  { destruct Hobj as [->|[obj ->]]; [by eexists|].
    destruct (_ || _); by eexists. }
  erewrite bind_run by exact Hrun. by rewrite Hmiss.
Qed.

(** C7, as amended.  When the model file of an object is missing from
    the registry, [UrhoExportPrefabs] logs a warning and returns on the
    spot (line 155): the state it leaves is the one reached after the
    objects before it in the sorted list, plus the warning.  Nothing is
    written or created for the object, the objects after it are not
    processed, and the collective and scene documents of this call are not
    written.  No exception is raised. *)
Theorem C7_missing_model_ends_the_call
    u uScene so currentPass fuel l1 m l2 sceneRoot root s0 s1 :
  SortModels fuel (modelsList uScene) = Some (l1 ++ m :: l2) →
  setup uScene so initial_state = Normal (sceneRoot, root) s0 →
  for_each l1 (export_model u uScene so currentPass (l1 ++ m :: l2) root) s0
    = Normal () s1 →
  has_object u so m →
  falsy (FindFile (PathType_MODELS u) (Some (ExportScene.name m)) (files uScene)) = true →
  UrhoExportPrefabs u uScene so currentPass fuel =
    Returned (with_logged "warning" (missing_model_message m) s1)
  ∧ written (state_of (UrhoExportPrefabs u uScene so currentPass fuel)) = written s1
  ∧ xml (state_of (UrhoExportPrefabs u uScene so currentPass fuel)) = xml s1.
Proof.
  intros Hsort Hsetup Hloop Hobj Hmiss.
  assert (UrhoExportPrefabs u uScene so currentPass fuel =
    Returned (with_logged "warning" (missing_model_message m) s1)) as ->; [|done].
  unfold UrhoExportPrefabs, UrhoExportPrefabs_body.
  erewrite bind_run by exact Hsetup. simpl. rewrite Hsort.
  apply bind_returned. rewrite (for_each_app _ _ _ _ _ Hloop). simpl.
  apply bind_returned. by apply export_model_missing.
Qed.

(** A scene of Rock and Tree in which only Tree has its model file. *)
Definition rock_without_file : UrhoScene :=
  mkUrhoScene "Scene" [static_model "Rock" None; static_model "Tree" None]
    {[ "MODE-Tree" := "Models/Tree.mdl" ]}.

Lemma C7_missing_model_ends_the_call_witness :
  let u := env rock_and_tree in
  let so := options true true true false in
  let o := UrhoExportPrefabs u rock_without_file so 1 10 in
  o = Returned (with_logged "warning"
        (missing_model_message (static_model "Rock" None))
        (state_of (setup rock_without_file so initial_state)))
  ∧ written (state_of o) =
      written (state_of (setup rock_without_file so initial_state))
  ∧ xml (state_of o) = xml (state_of (setup rock_without_file so initial_state)).
Proof.
  apply (C7_missing_model_ends_the_call (env rock_and_tree) rock_without_file
           (options true true true false) 1 10
           [] (static_model "Rock" None) [static_model "Tree" None] (Some 0) 8
           (state_of (setup rock_without_file (options true true true false)
                        initial_state))).
  - vm_compute. reflexivity.
  - vm_compute. reflexivity.
  - vm_compute. reflexivity.
  - right. vm_compute. by eexists.
  - vm_compute. reflexivity.
Defined.

(** C7 as stated fails: with the model file of the first of two objects
    missing, the call writes no document at all, in the individual pass
    as in the later pass, although all three kinds are requested; with
    the file present it writes them. *)
Lemma C7_missing_model_counterexample :
  let u := env rock_and_tree in
  let so := options true true true false in
  written (state_of (UrhoExportPrefabs u rock_without_file so 0 10)) = [] ∧
  written (state_of (UrhoExportPrefabs u rock_without_file so 1 10)) = [] ∧
  (written (state_of (UrhoExportPrefabs u
      (scene_of [static_model "Rock" None; static_model "Tree" None]) so 0 10))).*1
    = ["OBJE-Rock.xml"; "OBJE-Tree.xml"; "OBJE-Scene.xml"; "SCEN-Scene.xml"].
Proof. by vm_compute. Qed.

(** ** Claims about the collision shape *)

(** The extent of the bounding box on Y, as line 238 computes it. *)
Definition extent_y (b : BoundingBox) : float := (vy (bbox_max b) - vy (bbox_min b))%float.

(** C5.  For a Box shape on a bounding box whose Y extent is zero, with
    neither size nor offset overridden, the computed size has Y forced to
    1 and the computed offset has Y forced to -0.5; the X and Z components
    are the extent times the size factor and the box centre. *)
Theorem C5_flat_box_size_and_offset (m : UrhoSceneModel) (sh : ShapeProps) (s : State) :
  urho_shape_type sh = "Box" →
  urho_overwrite_size sh = false →
  urho_overwrite_offset_position sh = false →
  (extent_y (boundingBox m) =? 0)%float = true →
  let b := boundingBox m in
  let ex := (vx (bbox_max b) - vx (bbox_min b))%float in
  let ez := (vz (bbox_max b) - vz (bbox_min b))%float in
  ∃ s',
    CollisionShape_vectors m sh s =
      Normal (mkVector (ex * vx (urho_size_factor sh)) 1
                       (ez * vz (urho_size_factor sh)),
              mkVector (vx (bbox_max b) - ex / 2) (-0.5)
                       (vz (bbox_max b) - ez / 2)) s'.
Proof.
  intros Hbox Hsize Hoff Hflat. simpl.
  unfold CollisionShape_vectors, CollisionShape_size, CollisionShape_offset.
  rewrite Hsize, Hoff, Hbox. unfold is_flat_box. simpl.
  unfold extent_y in Hflat. eexists.
  unfold mbind, M_bind, modify, gets, mret, M_ret. simpl.
  by rewrite Hflat.
Qed.

Definition flat_plane : UrhoSceneModel :=
  mkUrhoSceneModel "Plane" None "StaticModel" []
    (mkBoundingBox (mkVector 0 0 0) (mkVector 2 0 4)).

(** The scenario of the specification: min (0,0,0), max (2,0,4), unit size
    factor, no overrides. *)
Lemma C5_flat_box_size_and_offset_witness :
  ∃ s', CollisionShape_vectors flat_plane (shape_of "Box" false false) initial_state =
        Normal (mkVector 2 1 4, mkVector 1 (-0.5) 2) s'.
Proof.
  exact (C5_flat_box_size_and_offset flat_plane (shape_of "Box" false false)
           initial_state eq_refl eq_refl eq_refl eq_refl).
Defined.

(** *** Computations that always complete *)

Definition total {A} (m : M A) : Prop := ∀ s, ∃ a s', m s = Normal a s'.

Lemma total_ret {A} (a : A) : total (mret a).
Proof. intros s. by exists a, s. Qed.

Lemma total_bind {A B} (m : M A) (k : A → M B) :
  total m → (∀ a, total (k a)) → total (m ≫= k).
Proof.
  intros Hm Hk s. destruct (Hm s) as (a & s1 & H1).
  destruct (Hk a s1) as (b & s2 & H2). exists b, s2.
  by erewrite bind_run.
Qed.

Lemma total_gets {A} (f : State → A) : total (gets f).
Proof. intros s. by eexists _, _. Qed.

Lemma total_modify f : total (modify f).
Proof. intros s. by eexists _, _. Qed.

Lemma total_SubElement parent tg : total (SubElement parent tg).
Proof. intros s. by eexists _, _. Qed.

Lemma total_when b m : total m → total (when b m).
Proof. destruct b; [done|]. intros _. apply total_ret. Qed.

Lemma total_for_each {A} (l : list A) f : (∀ a, total (f a)) → total (for_each l f).
Proof.
  intros Hf. induction l as [|a l IH]; [apply total_ret|].
  simpl. apply total_bind; [apply Hf|done].
Qed.

Create HintDb total.
#[local] Hint Resolve total_ret total_gets total_modify total_SubElement
  total_when total_for_each : total.

Ltac total_steps :=
  repeat first
    [ apply total_bind; [|intros ?]
    | apply total_when
    | apply total_for_each; intros ?
    | progress (unfold set, log, WriteXmlFile)
    | solve [auto with total] ].

Lemma total_attribute parent a : total (attribute parent a).
Proof. unfold attribute. total_steps. Qed.

Lemma total_attributes_if parent table : total (attributes_if parent table).
Proof. apply total_for_each. intros. apply total_attribute. Qed.

#[local] Hint Resolve total_attribute total_attributes_if : total.

Lemma total_component parent ty : total (component parent ty).
Proof. unfold component. total_steps. Qed.

#[local] Hint Resolve total_component : total.

Lemma total_RigidBody u currentPass node b : total (RigidBody u currentPass node b).
Proof. unfold RigidBody. total_steps. Qed.

Lemma total_CollisionShape u node sh modelFile size offset :
  total (CollisionShape u node sh modelFile size offset).
Proof. unfold CollisionShape. total_steps. destruct (_ || _); total_steps. Qed.

(** The offset that lines 248-252 compute from the locals. *)
Definition offset_from (shapeType : string) (l : BBoxLocals) : Vector :=
  let shapeOffset :=
    mkVector (vx (bbox_max (bbox l)) - x l / 2) (vy (bbox_max (bbox l)) - y l / 2)
             (vz (bbox_max (bbox l)) - z l / 2) in
  if is_flat_box shapeType (y l) then with_y shapeOffset (-0.5) else shapeOffset.

(** C10, as amended.  For a physics-enabled object with
    [urho_overwrite_size] true and [urho_overwrite_offset_position] false
    the offset computation reads [bbox], [x], [y], [z] without binding
    them.  When no object processed earlier in the same call has bound
    them, it raises the unbound-variable error before any component is
    created; otherwise it completes, with the overriding size and with an
    offset computed from the bounding box of the latest object that bound
    them. *)
Theorem C10_offset_reads_the_locals u so currentPass node m obj modelFile s :
  physics_enabled so obj = true →
  urho_overwrite_size (shape obj) = true →
  urho_overwrite_offset_position (shape obj) = false →
  match bbox_locals s with
  | None =>
      Physics u so currentPass node m obj modelFile s
        = Raised (UnboundLocalError "bbox") s
  | Some l =>
      CollisionShape_vectors m (shape obj) s
        = Normal (urho_size (shape obj),
                  offset_from (urho_shape_type (shape obj)) l) s
      ∧ ∃ s', Physics u so currentPass node m obj modelFile s = Normal () s'
  end.
Proof.
  intros Hphys Hsize Hoff.
  assert (CollisionShape_vectors m (shape obj) s =
    match bbox_locals s with
    | None => Raised (UnboundLocalError "bbox") s
    | Some l => Normal (urho_size (shape obj),
                        offset_from (urho_shape_type (shape obj)) l) s
    end) as Hvec.
  { unfold CollisionShape_vectors, CollisionShape_size, CollisionShape_offset.
    rewrite Hsize, Hoff. unfold mbind, M_bind, gets, mret, M_ret. simpl.
    by destruct (bbox_locals s). }
  unfold Physics. rewrite Hphys. simpl.
  destruct (bbox_locals s) as [l|] eqn:Hl.
  - split; [done|]. erewrite bind_run by exact Hvec.
    destruct (total_bind (RigidBody u currentPass node (body obj))
      (λ _, CollisionShape u node (shape obj) modelFile (urho_size (shape obj))
              (offset_from (urho_shape_type (shape obj)) l))
      (total_RigidBody _ _ _ _)
      (λ _, total_CollisionShape _ _ _ _ _ _) s) as ([] & s' & Hrun).
    by exists s'.
  - by apply bind_raised.
Qed.

Definition crate : Object :=
  with_physics (shape_of "Box" true false) UrhoComponentBodyReset plain.

Lemma C10_offset_reads_the_locals_witness :
  Physics (env []) (options false true false true) 1 0
          (static_model "Crate" None) crate "Models/Crate.mdl" initial_state
  = Raised (UnboundLocalError "bbox") initial_state.
Proof.
  exact (C10_offset_reads_the_locals (env []) (options false true false true) 1 0
           (static_model "Crate" None) crate "Models/Crate.mdl" initial_state
           eq_refl eq_refl eq_refl).
Defined.

Definition floor : Object :=
  with_physics (shape_of "Box" false false) UrhoComponentBodyReset plain.

Definition floor_model : UrhoSceneModel :=
  mkUrhoSceneModel "Floor" None "StaticModel" []
    (mkBoundingBox (mkVector 0 0 0) (mkVector 2 0 4)).

Definition named (n : string) (l : list (string * string)) : list string :=
  (filter (λ a : string * string, a.1 = n) l).*2.

(** The attribute values called [n] in the documents of a run. *)
Definition values_of {A} (n : string) (o : Outcome A) : list (list string) :=
  (λ d : string * option ET.Xml, named n (default [] (all_attributes <$> d.2)))
    <$> documents o.

(** The emitted form of the C5 scenario: a Box on the flat bounding box
    gets Size 2 1 4 and Offset Position 1 -0.5 2. *)
Lemma flat_box_emitted :
  let o := UrhoExportPrefabs (env [("Floor", floor)]) (scene_of [floor_model])
             (options false true false true) 1 10 in
  values_of "Size" o = [["2 1 4"]] ∧
  values_of "Offset Position" o = [["1 -0.5 2"]].
Proof. by vm_compute. Qed.

(** C10 as stated fails for an object that comes after one whose size was
    derived from its bounding box: the Crate (size overridden, offset not,
    unit bounding box) raises nothing and gets the offset of the Floor's
    bounding box; standing alone it raises the error. *)
Lemma C10_stale_locals_counterexample :
  let so := options false true false true in
  let after_floor :=
    UrhoExportPrefabs (env [("Floor", floor); ("Crate", crate)])
      (scene_of [floor_model; static_model "Crate" None]) so 1 10 in
  let alone :=
    UrhoExportPrefabs (env [("Crate", crate)])
      (scene_of [static_model "Crate" None]) so 1 10 in
  (∃ s, after_floor = Normal () s) ∧
  values_of "Offset Position" after_floor = [["1 -0.5 2"; "1 -0.5 2"]] ∧
  values_of "Size" after_floor = [["2 1 4"; "3 3 3"]] ∧
  (∃ s, alone = Raised (UnboundLocalError "bbox") s).
Proof. vm_compute. split_and!; [by eexists|done|done|by eexists]. Qed.

(** ** Claims about nesting in the later passes *)

Lemma nests_true m (els : gmap string nat) :
  nests m els = true ↔
  type m = "StaticModel" ∧
  ∃ p pe, parentObjectName m = Some p ∧ p ≠ "" ∧ els !! p = Some pe.
Proof.
  unfold nests. rewrite !andb_true_iff, String.eqb_eq, bool_decide_eq_true.
  destruct (parentObjectName m) as [p|]; simpl.
  - rewrite negb_true_iff, negb_false_iff, truthy_true. split.
    + intros [[? ?] [pe ?]]. eauto 10.
    + intros [? (p' & pe & [= <-] & ? & ?)]. eauto.
  - split; [intros [[_ [=]] _]|intros [_ (? & ? & [=] & _)]].
Qed.

(** Where the node of [m] goes: under the node recorded for its parent
    when [nests] holds, under the shared root otherwise. *)
Definition target (root : nat) (m : UrhoSceneModel) (els : gmap string nat) : nat :=
  if nests m els then default root (parentObjectName m ≫= (els !!.)) else root.

(** Every recorded node is an element of the store and belongs to a model
    of the list. *)
Definition elements_ok (models : list UrhoSceneModel) (s : State) : Prop :=
  ∀ p pe, elements s !! p = Some pe →
    pe < length (xml s) ∧ ∃ usm, usm ∈ models ∧ ExportScene.name usm = p.

Lemma attach_node_run models root m s :
  root < length (xml s) →
  elements_ok models s →
  let e := length (xml s) in
  let t := target root m (elements s) in
  attach_node models root m s =
  Normal e
    (with_xml (alter (ET.add_kid e) t (xml s)
               ++ [ET.mkElement "node" [("id", format_d (nodeID s + 1))] []])
       (with_nodeID (nodeID s + 1) (with_element (ExportScene.name m) e s)))
  ∧ t < length (xml s).
Proof.
  intros Hroot Hok e t. unfold attach_node, lookup_element.
  unfold mbind at 1, M_bind at 1, gets at 1.
  assert (∀ t', t' < length (xml s) →
    (SubElement t' "node" ≫= λ e', modify (with_element (ExportScene.name m) e')) s =
    Normal () (with_element (ExportScene.name m) e
      (with_xml (alter (ET.add_kid e) t' (xml s) ++ [ET.mkElement "node" [] []]) s)))
    as Hsub.
  { intros t' Ht'. unfold mbind, M_bind, SubElement, modify.
    by rewrite SubElement_store. }
  assert (t < length (xml s) ∧
    (if nests m (elements s)
     then match list_find (λ usm, Some (ExportScene.name usm) = parentObjectName m) models with
          | Some (_, usm) =>
              parent ← (els ← gets elements;
                        match els !! ExportScene.name usm with
                        | Some e0 => mret e0
                        | None => raise (KeyError (ExportScene.name usm))
                        end);
              e0 ← SubElement parent "node";
              modify (with_element (ExportScene.name m) e0)
          | None => mret ()
          end
     else e0 ← SubElement root "node"; modify (with_element (ExportScene.name m) e0)) s =
    Normal () (with_element (ExportScene.name m) e
      (with_xml (alter (ET.add_kid e) t (xml s) ++ [ET.mkElement "node" [] []]) s)))
    as [Ht Hfirst].
  { subst t. unfold target. destruct (nests m (elements s)) eqn:Hn.
    - apply nests_true in Hn as (_ & p & pe & Hp & _ & Hpe).
      destruct (Hok p pe Hpe) as (Hlt & usm & Hin & Hname).
      rewrite Hp. simpl. rewrite Hpe. simpl. split; [done|].
      destruct (list_find_elem_of (λ usm, Some (ExportScene.name usm) = Some p)
                  models usm Hin) as [[i usm'] Hfind]; [by rewrite Hname|].
      rewrite Hfind. apply list_find_Some in Hfind as (_ & [= Hn'] & _).
      erewrite bind_run; [by apply Hsub|].
      unfold mbind, M_bind, gets. by rewrite Hn', Hpe.
    - split; [done|]. by apply Hsub. }
  split; [|done].
  erewrite bind_run by exact Hfirst.
  unfold mbind, M_bind, modify, gets, set. simpl.
  rewrite lookup_insert_eq. simpl.
  subst e. rewrite set_new_element. done.
Qed.

(** C3, as amended.  In a later pass the node of an object is created as
    the last child of the node recorded for its parent when the object
    itself is of type StaticModel and names a parent whose node has
    already been recorded in this pass, and as the last child of the
    shared root in every other case; the type of the parent plays no
    part.  The new node takes the next node id and is recorded under the
    object's name. *)
Theorem C3_node_goes_under_recorded_parent models root m s :
  root < length (xml s) →
  elements_ok models s →
  let e := length (xml s) in
  let t := target root m (elements s) in
  (∀ p pe, type m = "StaticModel" → parentObjectName m = Some p → p ≠ "" →
     elements s !! p = Some pe → t = pe)
  ∧ (¬ (type m = "StaticModel" ∧
        ∃ p pe, parentObjectName m = Some p ∧ p ≠ "" ∧ elements s !! p = Some pe) →
     t = root)
  ∧ ∃ s',
      attach_node models root m s = Normal e s' ∧
      ET.children t (xml s') = ET.children t (xml s) ++ [e] ∧
      (∀ c, c < length (xml s) → c ≠ t → ET.children c (xml s') = ET.children c (xml s)) ∧
      xml s' !! e = Some (ET.mkElement "node" [("id", format_d (nodeID s + 1))] []) ∧
      elements s' = <[ExportScene.name m := e]> (elements s) ∧
      nodeID s' = (nodeID s + 1)%Z.
Proof.
  intros Hroot Hok e t. split_and!.
  - intros p pe Hty Hp Hne Hpe. subst t. unfold target.
    rewrite (proj2 (nests_true m (elements s))) by eauto 10.
    rewrite Hp. simpl. by rewrite Hpe.
  - intros Hnot. subst t. unfold target.
    destruct (nests m (elements s)) eqn:Hn; [|done].
    by apply nests_true in Hn.
  - destruct (attach_node_run models root m s Hroot Hok) as [Hrun Ht].
    eexists. split; [exact Hrun|]. simpl. fold e t. split_and!; try done.
    + unfold ET.children. rewrite lookup_app_l by by rewrite length_alter.
      rewrite list_lookup_alter_eq.
      by destruct (lookup_lt_is_Some_2 (xml s) t Ht) as [el ->].
    + intros c Hc Hct. unfold ET.children.
      rewrite lookup_app_l by by rewrite length_alter.
      by rewrite list_lookup_alter_ne.
    + rewrite lookup_app_r by by rewrite length_alter.
      by rewrite length_alter, Nat.sub_diag.
Qed.

Definition cube_and_child : list UrhoSceneModel :=
  [static_model "Cube" None; static_model "Cube.001" (Some "Cube")].

Definition cubes_env : Env := env [("Cube", plain); ("Cube.001", plain)].

(** The state of the later pass after the root node and the node of Cube. *)
Definition after_cube : State :=
  state_of ((setup (scene_of cube_and_child) (options false true false false) ≫= λ r,
             export_model cubes_env (scene_of cube_and_child)
               (options false true false false) 1 cube_and_child r.2
               (static_model "Cube" None)) initial_state).

Lemma after_cube_elements : elements after_cube = {[ "Cube" := 2 ]}.
Proof. by vm_compute. Qed.

(** Cube.001 goes under the node of Cube (address 2), not under the root
    (address 0). *)
Lemma C3_node_goes_under_recorded_parent_witness :
  ∃ s',
    attach_node cube_and_child 0 (static_model "Cube.001" (Some "Cube")) after_cube
      = Normal (length (xml after_cube)) s' ∧
    ET.children 2 (xml s') = ET.children 2 (xml after_cube) ++ [length (xml after_cube)].
Proof.
  assert (0 < length (xml after_cube)) as Hroot by (vm_compute; lia).
  assert (elements_ok cube_and_child after_cube) as Hok.
  { intros p pe. rewrite after_cube_elements.
    intros [<- <-]%lookup_singleton_Some. split; [vm_compute; lia|].
    exists (static_model "Cube" None). split; [left|done]. }
  destruct (C3_node_goes_under_recorded_parent cube_and_child 0
              (static_model "Cube.001" (Some "Cube")) after_cube Hroot Hok)
    as (Hunder & _ & s' & Hrun & Hkids & _).
  exists s'. split; [exact Hrun|].
  rewrite <-(Hunder "Cube" 2) at 1 2; [exact Hkids|done..].
Defined.

Definition collective_outline (objs : list (string * Object))
    (models : list UrhoSceneModel) : list (list Outline) :=
  (λ d : string * option ET.Xml, default [] (outline <$> d.2))
    <$> documents (UrhoExportPrefabs (env objs) (scene_of models)
                     (options false true false false) 1 10).

(** The scenario of the specification: the node of Cube.001 ends up
    nested under the node of Cube. *)
Lemma cube_child_nested :
  collective_outline [("Cube", plain); ("Cube.001", plain)] cube_and_child =
  [[ONode "Scene" [ONode "Cube" [ONode "Cube.001" []]]]].
Proof. by vm_compute. Qed.

(** C3 as stated fails in both directions: a StaticModel child is nested
    under a parent that is an AnimatedModel, and an AnimatedModel child of
    an emitted StaticModel parent is attached to the root. *)
Lemma C3_parent_kind_counterexample :
  let objs := [("Body", plain); ("Hat", plain)] in
  collective_outline objs
    [animated_model "Body" None; static_model "Hat" (Some "Body")] =
    [[ONode "Scene" [ONode "Body" [ONode "Hat" []]]]] ∧
  collective_outline objs
    [static_model "Body" None; animated_model "Hat" (Some "Body")] =
    [[ONode "Scene" [ONode "Body" []; ONode "Hat" []]]].
Proof. by vm_compute. Qed.

(** ** Claims about default suppression *)

Lemma elem_of_shown (table : list (bool * Attr)) a :
  a ∈ shown table ↔ (true, a) ∈ table.
Proof.
  unfold shown. rewrite list_elem_of_omap. split.
  - intros ([[] a'] & Hin & H); simplify_eq/=. done.
  - intros Hin. by exists (true, a).
Qed.

(** A component just created under [parent], then its attributes. *)
Definition with_component (parent : nat) (ats : ET.Attrib) (l : list Attr)
    (h : ET.Store) : ET.Store :=
  grow (length h) l
    (alter (ET.add_kid (length h)) parent h ++ [ET.mkElement "component" ats []]).




Lemma component_run parent ty s :
  parent < length (xml s) →
  component parent ty s =
  Normal (length (xml s))
    (with_compoID (compoID s + 1)
       (with_xml (alter (ET.add_kid (length (xml s))) parent (xml s)
                  ++ [ET.mkElement "component"
                        [("type", ty); ("id", format_d (compoID s))] []]) s)).
Proof.
  intros Hp. unfold component, SubElement, set, modify, gets, mbind, M_bind.
  rewrite SubElement_store by done. simpl.
  set (h1 := alter _ parent (xml s)).
  assert (length h1 = length (xml s)) as Hlen by apply length_alter.
  rewrite <-Hlen, !set_last. done.
Qed.

Lemma Model_run u parent m p modelFile materials s :
  parent < length (xml s) →
  Model u parent m p modelFile materials s =
  Normal ()
    (with_compoID (compoID s + 1)
       (with_xml
          (with_component parent [("type", type m); ("id", format_d (compoID s))]
             (("Model", "Model;" +:+ modelFile)
              :: ("Material", "Material" +:+ materials)
              :: shown (Model_attributes u p)) (xml s)) s)).
Proof.
  intros Hp. unfold Model. erewrite bind_run by by apply component_run.
  change (attribute ?c ?a ≫= λ _, attribute ?c ?b ≫= λ _, attributes_if ?c ?t)
    with (for_each (a :: b :: shown t) (attribute c)).
  rewrite attributes_run; [done|].
  simpl. rewrite length_app, length_alter. simpl. lia.
Qed.

Lemma RigidBody_run u currentPass node b s :
  node < length (xml s) →
  let id := if bool_decide (currentPass = 0) then 0x1000000%Z else compoID s in
  RigidBody u currentPass node b s =
  Normal ()
    (with_compoID (id + 1)
       (with_xml
          (with_component node [("type", "RigidBody"); ("id", format_d id)]
             (shown (RigidBody_attributes u b)) (xml s)) s)).
Proof.
  intros Hp id. unfold RigidBody.
  unfold mbind at 1, M_bind at 1, SubElement at 1.
  rewrite SubElement_store by done.
  set (h1 := alter _ node (xml s)).
  assert (length h1 = length (xml s)) as Hlen by apply length_alter.
  assert (∀ s0 : State, xml s0 = h1 ++ [ET.mkElement "component" [] []] →
    (set (length (xml s)) "type" "RigidBody" ≫= λ _,
     gets compoID ≫= λ i,
     set (length (xml s)) "id" (format_d i) ≫= λ _,
     modify (λ s, with_compoID (compoID s + 1) s) ≫= λ _,
     attributes_if (length (xml s)) (RigidBody_attributes u b)) s0 =
    Normal ()
      (with_compoID (compoID s0 + 1)
         (with_xml
            (grow (length (xml s)) (shown (RigidBody_attributes u b))
               (h1 ++ [ET.mkElement "component"
                         [("type", "RigidBody"); ("id", format_d (compoID s0))] []]))
            s0))) as Hrest.
  { intros s0 Hs0. unfold set, modify, gets, mbind, M_bind. rewrite Hs0.
    subst h1. rewrite set_new_element. simpl. rewrite set_new_element. simpl.
    rewrite attributes_if_run; [done|].
    simpl. rewrite length_app, length_alter. simpl. lia. }
  subst id. unfold when. case_bool_decide.
  - unfold mbind at 1, M_bind at 1, modify at 1. rewrite Hrest by done. done.
  - unfold mbind at 1, M_bind at 1, mret, M_ret. rewrite Hrest by done. done.
Qed.

Lemma Model_attribute_written u p (a : Attr) :
  a ∈ shown (Model_attributes u p) ↔ (true, a) ∈ Model_attributes u p.
Proof. apply elem_of_shown. Qed.



(** The state of a later pass once the root node exists. *)
Definition root_only : State :=
  state_of (setup (scene_of []) (options false true false true) initial_state).



Definition physics_run (obj : Object) : Outcome unit :=
  UrhoExportPrefabs (env [("Ball", obj)]) (scene_of [static_model "Ball" None])
    (options false true false true) 1 10.

(** C2 as stated fails for the attributes of the physics components: a
    friction of 0.75 differs from the default 0.5, yet no Friction
    attribute is written for an object whose physics is not activated;
    with physics activated it is written. *)
Lemma C2_friction_behind_gate_counterexample :
  let quiet := with_body (body_of 0.75) plain in
  let active := with_physics UrhoComponentShapeReset (body_of 0.75) plain in
  (urho_friction (body quiet) =? 0.5)%float = false ∧
  values_of "Friction" (physics_run quiet) = [[]] ∧
  values_of "Friction" (physics_run active) = [["0.75"]].
Proof. by vm_compute. Qed.


(** ** Claims about the transforms of a placed prefab *)

Module Retarget.
Import ScenePrefab.

(** The three locals of the loop. *)
Inductive Slot := Position | Rotation | Scale.

Global Instance Slot_eq_dec : EqDecision Slot.
Proof. solve_decision. Defined.

Definition slot_name (k : Slot) : string :=
  match k with Position => "Position" | Rotation => "Rotation" | Scale => "Scale" end.

Definition slot_of (elem : option string) : option Slot :=
  if decide (elem = Some "Position") then Some Position
  else if decide (elem = Some "Rotation") then Some Rotation
  else if decide (elem = Some "Scale") then Some Scale
  else None.

Definition read (k : Slot) (t : string * string * string) : string :=
  match k with Position => t.1.1 | Rotation => t.1.2 | Scale => t.2 end.

Definition clear (k : Slot) (t : string * string * string) : string * string * string :=
  match k with
  | Position => ("", t.1.2, t.2)
  | Rotation => (t.1.1, "", t.2)
  | Scale => (t.1.1, t.1.2, "")
  end.

Lemma slot_of_name elem k : slot_of elem = Some k ↔ elem = Some (slot_name k).
Proof.
  unfold slot_of. repeat case_decide; subst; destruct k; simpl; naive_solver.
Qed.

Lemma read_clear k k' t : read k (clear k' t) = if decide (k = k') then "" else read k t.
Proof. by destruct k, k', t as [[??]?]. Qed.

(** One turn of the loop, on the store. *)
Definition turn (t : string * string * string) (a : nat) (h : ET.Store)
    : (string * string * string) * ET.Store :=
  match slot_of (ET.get a "name" h) with
  | Some k => (clear k t, ET.set a "value" (read k t) h)
  | None => (t, h)
  end.

Fixpoint turns (t : string * string * string) (l : list nat) (h : ET.Store)
    : (string * string * string) * ET.Store :=
  match l with
  | [] => (t, h)
  | a :: l => turns (turn t a h).1 l (turn t a h).2
  end.

Lemma with_xml_id s : with_xml (xml s) s = s.
Proof. by destruct s. Qed.

Lemma retarget_turn t a s :
  retarget t a s = Normal (turn t a (xml s)).1 (with_xml (turn t a (xml s)).2 s).
Proof.
  destruct t as [[pos rot] scale]. unfold retarget, turn, slot_of.
  unfold mbind, M_bind, gets, set, modify, mret, M_ret.
  repeat case_decide; simpl; by rewrite ?with_xml_id.
Qed.

Lemma fold_each_turns t l s :
  fold_each retarget t l s =
  Normal (turns t l (xml s)).1 (with_xml (turns t l (xml s)).2 s).
Proof.
  revert t s. induction l as [|a l IH]; intros t s; simpl.
  - by rewrite with_xml_id.
  - erewrite bind_run by apply retarget_turn. by rewrite IH.
Qed.

(** [elem.set] and [elem.get] *)

Lemma attrib_get_set k k' v (a : ET.Attrib) :
  ET.attrib_get k (ET.attrib_set k' v a) =
  if decide (k = k') then Some v else ET.attrib_get k a.
Proof.
  induction a as [|[k0 v0] a IH]; simpl.
  - repeat case_decide; by subst.
  - repeat case_decide; simpl; repeat case_decide; subst; try done.
Qed.

Lemma get_set c k a k' v (h : ET.Store) :
  a < length h →
  ET.get c k (ET.set a k' v h) =
  if decide (c = a ∧ k = k') then Some v else ET.get c k h.
Proof.
  intros Ha. unfold ET.get, ET.set. rewrite list_lookup_alter.
  destruct (lookup_lt_is_Some_2 h a Ha) as [el Hel].
  destruct (decide (a = c)) as [->|Hne].
  - rewrite Hel. simpl. rewrite attrib_get_set.
    repeat case_decide; naive_solver.
  - rewrite decide_False by naive_solver. done.
Qed.

Lemma lookup_set c a k v (h : ET.Store) :
  ET.set a k v h !! c =
  (if decide (a = c) then ET.set_attrib k v else id) <$> h !! c.
Proof.
  unfold ET.set. rewrite list_lookup_alter.
  case_decide; [by subst|]. by destruct (h !! c).
Qed.

Lemma length_set a k v (h : ET.Store) : length (ET.set a k v h) = length h.
Proof. apply length_alter. Qed.

Lemma children_set c a k v (h : ET.Store) :
  ET.children c (ET.set a k v h) = ET.children c h.
Proof.
  unfold ET.children. rewrite lookup_set.
  destruct (h !! c); [|done]. simpl. by case_decide.
Qed.

Lemma has_tag_set tg c a k v (h : ET.Store) :
  ET.has_tag tg (ET.set a k v h) c = ET.has_tag tg h c.
Proof.
  unfold ET.has_tag. rewrite lookup_set.
  destruct (h !! c); [|done]. simpl. by case_decide.
Qed.

(** The slot that the loop finds on an attribute element. *)
Definition slot_at (h : ET.Store) (c : nat) : option Slot :=
  slot_of (ET.get c "name" h).

(** Each of the three names is carried by at most one element of [l]. *)
Definition once (h : ET.Store) (l : list nat) : Prop :=
  ∀ k, (length (filter (λ c, slot_at h c = Some k) l) ≤ 1)%nat.

Lemma turn_store t a (h : ET.Store) :
  (turn t a h).2 =
  match slot_at h a with
  | Some k => ET.set a "value" (read k t) h
  | None => h
  end.
Proof. unfold turn, slot_at. by destruct (slot_of _). Qed.

Lemma turn_locals t a (h : ET.Store) :
  (turn t a h).1 = match slot_at h a with Some k => clear k t | None => t end.
Proof. unfold turn, slot_at. by destruct (slot_of _). Qed.

Lemma get_turn_other t a (h : ET.Store) c k :
  a < length h → k ≠ "value" → ET.get c k (turn t a h).2 = ET.get c k h.
Proof.
  intros Ha Hk. rewrite turn_store. destruct (slot_at h a); [|done].
  rewrite get_set by done. rewrite decide_False; naive_solver.
Qed.

Lemma slot_at_turn t a (h : ET.Store) c :
  a < length h → slot_at (turn t a h).2 c = slot_at h c.
Proof. intros Ha. unfold slot_at. by rewrite get_turn_other. Qed.

Lemma get_turn_value t a (h : ET.Store) c :
  a < length h →
  ET.get c "value" (turn t a h).2 =
  match slot_at h a with
  | Some k => if decide (c = a) then Some (read k t) else ET.get c "value" h
  | None => ET.get c "value" h
  end.
Proof.
  intros Ha. rewrite turn_store. destruct (slot_at h a); [|done].
  rewrite get_set by done. repeat case_decide; naive_solver.
Qed.

Lemma length_turn t a (h : ET.Store) : length (turn t a h).2 = length h.
Proof. rewrite turn_store. destruct (slot_at h a); [apply length_set|done]. Qed.

Lemma children_turn t a (h : ET.Store) c :
  ET.children c (turn t a h).2 = ET.children c h.
Proof. rewrite turn_store. destruct (slot_at h a); [apply children_set|done]. Qed.

Lemma has_tag_turn t a (h : ET.Store) tg c :
  ET.has_tag tg (turn t a h).2 c = ET.has_tag tg h c.
Proof. rewrite turn_store. destruct (slot_at h a); [apply has_tag_set|done]. Qed.

Lemma lookup_turn_ne t a (h : ET.Store) c :
  c ≠ a → (turn t a h).2 !! c = h !! c.
Proof.
  intros Hne. rewrite turn_store. destruct (slot_at h a); [|done].
  rewrite lookup_set. rewrite decide_False by done. by destruct (h !! c).
Qed.

Lemma once_cons (h : ET.Store) a l : once h (a :: l) → once h l.
Proof.
  intros H k. specialize (H k). rewrite filter_cons in H.
  case_decide; simpl in H; lia.
Qed.

Lemma once_head (h : ET.Store) a l k c :
  once h (a :: l) → slot_at h a = Some k → c ∈ l → slot_at h c ≠ Some k.
Proof.
  intros H Ha Hc Hk. specialize (H k). rewrite filter_cons in H.
  rewrite decide_True in H by done. simpl in H.
  assert (c ∈ filter (λ c, slot_at h c = Some k) l) as Hin
    by by apply list_elem_of_filter.
  destruct (filter _ l); [by apply elem_of_nil in Hin|simpl in H; lia].
Qed.

Lemma once_ext (h h' : ET.Store) l :
  (∀ c, slot_at h' c = slot_at h c) → once h l → once h' l.
Proof.
  intros Heq H k. specialize (H k).
  rewrite (list_filter_iff _ (λ c, slot_at h c = Some k)); [done|].
  intros c. by rewrite Heq.
Qed.

(** The loop over [l], from the locals [t] and the store [h]. *)
Lemma turns_spec l : ∀ t (h : ET.Store),
  Forall (λ c, c < length h) l → once h l →
  (∀ k, read k (turns t l h).1 =
        if decide (Exists (λ c, slot_at h c = Some k) l) then "" else read k t) ∧
  length (turns t l h).2 = length h ∧
  (∀ c, ET.children c (turns t l h).2 = ET.children c h) ∧
  (∀ tg c, ET.has_tag tg (turns t l h).2 c = ET.has_tag tg h c) ∧
  (∀ c k, k ≠ "value" → ET.get c k (turns t l h).2 = ET.get c k h) ∧
  (∀ c, ET.get c "value" (turns t l h).2 =
        match slot_at h c with
        | Some k => if decide (c ∈ l) then Some (read k t) else ET.get c "value" h
        | None => ET.get c "value" h
        end) ∧
  (∀ c, c ∉ l → (turns t l h).2 !! c = h !! c).
Proof.
  induction l as [|a l IH]; intros t h Hl Honce.
  { simpl. split_and!; try done. intros c. by destruct (slot_at h c). }
  apply Forall_cons in Hl as [Ha Hl]. simpl.
  set (t1 := (turn t a h).1). set (h1 := (turn t a h).2).
  assert (∀ c, slot_at h1 c = slot_at h c) as Hslot
    by (intros; by apply slot_at_turn).
  destruct (IH t1 h1) as (Hread & Hlen & Hkids & Htag & Hget & Hval & Hout).
  { subst h1. by rewrite length_turn. }
  { apply (once_ext h); [done|]. by eapply once_cons. }
  split_and!.
  - intros k. rewrite Hread. subst t1. rewrite turn_locals.
    assert (Exists (λ c, slot_at h c = Some k) (a :: l) ↔
            slot_at h a = Some k ∨ Exists (λ c, slot_at h1 c = Some k) l) as Hex.
    { assert (Exists (λ c, slot_at h1 c = Some k) l ↔
              Exists (λ c, slot_at h c = Some k) l) as ->.
      { apply Exists_proper; [|done]. intros c. by rewrite Hslot. }
      split; [intros [?|?]%Exists_inv; auto|].
      intros [?|?]; [by apply Exists_cons_hd|by apply Exists_cons_tl]. }
    destruct (slot_at h a) as [ka|] eqn:Hka; [rewrite read_clear|];
      repeat case_decide; subst; try done; naive_solver.
  - rewrite Hlen. subst h1. apply length_turn.
  - intros c. rewrite Hkids. subst h1. apply children_turn.
  - intros tg c. rewrite Htag. subst h1. apply has_tag_turn.
  - intros c k Hk. rewrite Hget by done. subst h1. by apply get_turn_other.
  - intros c. rewrite Hval, Hslot. subst t1 h1.
    rewrite get_turn_value by done. rewrite turn_locals.
    destruct (slot_at h c) as [k|] eqn:Hk.
    + destruct (decide (c ∈ l)) as [Hin|Hin].
      * rewrite decide_True by by right.
        destruct (slot_at h a) as [ka|] eqn:Hka; [|done].
        rewrite read_clear. rewrite decide_False; [done|].
        intros ->. by eapply once_head.
      * destruct (decide (c = a)) as [->|Hne].
        -- rewrite decide_True by left. by rewrite Hk.
        -- rewrite decide_False by (rewrite elem_of_cons; naive_solver).
           by destruct (slot_at h a).
    + destruct (slot_at h a) as [ka|] eqn:Hka; [|done].
      case_decide; [|done]. subst. congruence.
  - intros c [Hne Hin]%not_elem_of_cons. rewrite Hout by done.
    subst h1. by apply lookup_turn_ne.
Qed.

(** *** The appended attributes *)

Lemma grow_nil parent (h : ET.Store) : grow parent [] h = h.
Proof.
  unfold grow. simpl. rewrite app_nil_r. apply list_alter_id.
  intros []. unfold add_kids. simpl. by rewrite app_nil_r.
Qed.

Lemma grow_app parent l1 l2 (h : ET.Store) :
  parent < length h →
  grow parent l2 (grow parent l1 h) = grow parent (l1 ++ l2) h.
Proof.
  revert h. induction l1 as [|a l1 IH]; intros h Hp; simpl.
  - by rewrite grow_nil.
  - rewrite <-(grow_cons parent a l1 h), <-(grow_cons parent a (l1 ++ l2) h) by done.
    apply IH. rewrite length_grow. lia.
Qed.

Lemma when_attribute_run (b : bool) parent a s :
  parent < length (xml s) →
  when b (attribute parent a) s =
  Normal () (with_xml (grow parent (if b then [a] else []) (xml s)) s).
Proof.
  intros Hp. destruct b; simpl.
  - by apply attribute_run.
  - by rewrite grow_nil, with_xml_id.
Qed.

Lemma filter_all {A} (P : A → Prop) `{!∀ x, Decision (P x)} (l : list A) :
  Forall P l → filter P l = l.
Proof.
  induction 1 as [|x l Hx _ IH]; [done|].
  by rewrite filter_cons, decide_True, IH.
Qed.

Lemma new_have_tag parent l (h : ET.Store) :
  Forall (λ c, ET.has_tag "attribute" (grow parent l h) c = true)
         (seq (length h) (length l)).
Proof.
  apply Forall_seq. intros j [Hj1 Hj2]. unfold ET.has_tag.
  replace j with (length h + (j - length h)) by lia.
  rewrite lookup_grow_new.
  destruct (lookup_lt_is_Some_2 l (j - length h) ltac:(lia)) as [a ->]. done.
Qed.

Lemma new_read parent l (h : ET.Store) :
  omap (ET.read_attribute (grow parent l h)) (seq (length h) (length l)) = l.
Proof.
  rewrite <-(filter_all _ _ (new_have_tag parent l h)) at 1.
  apply attributes_new. intros i _. apply lookup_grow_new.
Qed.

(** [n] is the name of one of the attribute elements [l]. *)
Definition carried (h : ET.Store) (l : list nat) (n : string) : Prop :=
  Exists (λ c, ET.get c "name" h = Some n) l.

(** At most one of the attribute elements [l] has the name [n]. *)
Definition at_most_once (h : ET.Store) (l : list nat) (n : string) : Prop :=
  (length (filter (λ c, ET.get c "name" h = Some n) l) ≤ 1)%nat.

(** What is appended: the transforms that no attribute element carries. *)
Definition missing (h : ET.Store) (l : list nat) (pos rot scale : string) : list Attr :=
  (if decide (carried h l "Position") then [] else [("Position", pos)])
  ++ (if decide (carried h l "Rotation") then [] else [("Rotation", rot)])
  ++ (if decide (carried h l "Scale") then [] else [("Scale", scale)]).

Lemma carried_slot (h : ET.Store) l k :
  Exists (λ c, slot_at h c = Some k) l ↔ carried h l (slot_name k).
Proof.
  unfold carried. apply Exists_proper; [|done].
  intros c. unfold slot_at. apply slot_of_name.
Qed.

Lemma once_names (h : ET.Store) l :
  at_most_once h l "Position" → at_most_once h l "Rotation" →
  at_most_once h l "Scale" → once h l.
Proof.
  intros HP HR HS k.
  rewrite (list_filter_iff _ (λ c, ET.get c "name" h = Some (slot_name k))).
  - by destruct k.
  - intros c. apply slot_of_name.
Qed.

Lemma appended_if_missing (h : ET.Store) found k (v v' : string) :
  v ≠ "" →
  v' = (if decide (Exists (λ c, slot_at h c = Some k) found) then "" else v) →
  (if truthy v' then [(slot_name k, v')] else []) =
  (if decide (carried h found (slot_name k)) then [] else [(slot_name k, v)]).
Proof.
  intros Hv ->.
  destruct (decide (Exists (λ c, slot_at h c = Some k) found)) as [He|He].
  - by rewrite decide_True by exact (proj1 (carried_slot h found k) He).
  - rewrite decide_False
      by (intros Hc; exact (He (proj2 (carried_slot h found k) Hc))).
    by rewrite (proj2 (truthy_true v)).
Qed.

Lemma set_transforms_run prefab_root pos rot scale s :
  let h := xml s in
  let found := ET.findall prefab_root "attribute" h in
  prefab_root < length h →
  Forall (λ c, c < length h) found →
  once h found →
  pos ≠ "" → rot ≠ "" → scale ≠ "" →
  set_transforms prefab_root pos rot scale s =
  Normal ()
    (with_xml (grow prefab_root (missing h found pos rot scale)
                 (turns (pos, rot, scale) found h).2) s).
Proof.
  intros h found Hroot Hvalid Honce Hpos Hrot Hscale.
  destruct (turns_spec found (pos, rot, scale) h Hvalid Honce)
    as (Hread & Hlen & _).
  unfold set_transforms. unfold mbind at 1, M_bind at 1, gets at 1.
  fold h found. erewrite bind_run by apply fold_each_turns. fold h.
  destruct (turns (pos, rot, scale) found h) as [[[pos' rot'] scale'] h'] eqn:Ht.
  simpl in Hread, Hlen |- *.
  pose proof (Hread Position) as HP. pose proof (Hread Rotation) as HR.
  pose proof (Hread Scale) as HS. simpl in HP, HR, HS.
  unfold missing.
  pose proof (appended_if_missing h found Position pos pos' Hpos HP) as EP.
  pose proof (appended_if_missing h found Rotation rot rot' Hrot HR) as ER.
  pose proof (appended_if_missing h found Scale scale scale' Hscale HS) as ES.
  cbn [slot_name] in EP, ER, ES. rewrite <-EP, <-ER, <-ES.
  erewrite bind_run by (apply when_attribute_run; simpl; lia).
  erewrite bind_run
    by (apply when_attribute_run; simpl; rewrite length_grow; lia).
  rewrite when_attribute_run by (simpl; rewrite !length_grow; lia).
  simpl. rewrite !grow_app by (rewrite ?length_grow; lia). done.
Qed.

End Retarget.

(** * Further properties of the exporter *)

Import Retarget.

(** The value of the loop of [GetBitMask], before the all-set test. *)
Definition mask_of (layers : list bool) : Z :=
  foldl (λ mask (ib : nat * bool),
           Z.lor mask (if ib.2 then Z.shiftl 1 (Z.of_nat ib.1) else 0))
        0%Z (imap (λ i bit, (i, bit)) layers).

Lemma GetBitMask_mask_of layers :
  GetBitMask layers =
  if decide (mask_of layers = MAX_BITMASK_VALUE) then (-1)%Z else mask_of layers.
Proof. done. Qed.

Lemma testbit_fold (l : list (nat * bool)) (acc : Z) (n : nat) :
  Z.testbit
    (foldl (λ mask (ib : nat * bool),
              Z.lor mask (if ib.2 then Z.shiftl 1 (Z.of_nat ib.1) else 0)) acc l)
    (Z.of_nat n) =
  Z.testbit acc (Z.of_nat n) || bool_decide ((n, true) ∈ l).
Proof.
  revert acc. induction l as [|[i b] l IH]; intros acc; cbn [foldl].
  - rewrite bool_decide_eq_false_2 by apply not_elem_of_nil. by rewrite orb_false_r.
  - rewrite IH, Z.lor_spec. destruct b; cbn [fst snd].
    + rewrite Z.shiftl_spec by lia. 
      destruct (decide (i = n)) as [->|Hne].
      * rewrite Z.sub_diag. change (Z.testbit 1 0) with true.
        rewrite orb_true_r. rewrite (bool_decide_eq_true_2 ((n, true) ∈ (n, true) :: l)) by left.
        by rewrite orb_true_r.
      * replace (Z.testbit 1 (Z.of_nat n - Z.of_nat i)) with false.
        2:{ symmetry. destruct (decide (n < i)).
            - apply Z.testbit_neg_r. lia.
            - change 1%Z with (Z.ones 1). rewrite Z.testbit_ones_nonneg by lia.
              apply Z.ltb_ge. lia. }
        rewrite orb_false_r. f_equal. apply bool_decide_ext.
        rewrite elem_of_cons. naive_solver.
    + rewrite Z.testbit_0_l, orb_false_r. f_equal. apply bool_decide_ext.
      rewrite elem_of_cons. naive_solver.
Qed.

Lemma elem_of_imap_pair (layers : list bool) (n : nat) (b : bool) :
  (n, b) ∈ imap (λ i bit, (i, bit)) layers ↔ layers !! n = Some b.
Proof.
  rewrite elem_of_lookup_imap. split.
  - intros (i & x & [= -> ->] & H). done.
  - intros H. by exists n, b.
Qed.

Lemma mask_of_testbit layers (n : nat) :
  Z.testbit (mask_of layers) (Z.of_nat n) = bool_decide (layers !! n = Some true).
Proof.
  unfold mask_of. rewrite testbit_fold, Z.testbit_0_l. simpl.
  apply bool_decide_ext, elem_of_imap_pair.
Qed.

Lemma fold_nonneg (l : list (nat * bool)) (acc : Z) :
  (0 ≤ acc)%Z →
  (0 ≤ foldl (λ mask (ib : nat * bool),
                Z.lor mask (if ib.2 then Z.shiftl 1 (Z.of_nat ib.1) else 0)) acc l)%Z.
Proof.
  revert acc. induction l as [|[i b] l IH]; intros acc Hacc; cbn [foldl]; [done|].
  apply IH, Z.lor_nonneg. split; [done|]. destruct b; cbn [fst snd]; [|done].
  apply Z.shiftl_nonneg. lia.
Qed.

Lemma mask_of_nonneg layers : (0 ≤ mask_of layers)%Z.
Proof. by apply fold_nonneg. Qed.

Lemma mask_of_all_set layers :
  mask_of layers = MAX_BITMASK_VALUE ↔
  ∀ n : nat, layers !! n = Some true ↔ n < 8.
Proof.
  change MAX_BITMASK_VALUE with (Z.ones 8). split.
  - intros H n. pose proof (mask_of_testbit layers n) as Hb. rewrite H in Hb.
    rewrite Z.testbit_ones_nonneg in Hb by lia.
    destruct (decide (n < 8)) as [Hn|Hn].
    + rewrite (proj2 (Z.ltb_lt _ _)) in Hb by lia.
      symmetry in Hb. apply bool_decide_eq_true in Hb. done.
    + rewrite (proj2 (Z.ltb_ge _ _)) in Hb by lia.
      symmetry in Hb. apply bool_decide_eq_false in Hb. split; [done|lia].
  - intros H. apply Z.bits_inj'. intros i Hi.
    rewrite <-(Z2Nat.id i) by done. rewrite mask_of_testbit.
    rewrite Z.testbit_ones_nonneg by lia.
    destruct (decide (Z.to_nat i < 8)) as [Hn|Hn].
    + rewrite (proj2 (Z.ltb_lt _ _)) by lia. apply bool_decide_eq_true_2. by apply H.
    + rewrite (proj2 (Z.ltb_ge _ _)) by lia. apply bool_decide_eq_false_2.
      intros ?%H. lia.
Qed.

(** [GetBitMask] answers -1 exactly when the layers set are the first
    eight: entries 0 to 7 are [True] and there is no [True] after them. *)
Theorem GetBitMask_all_set layers :
  GetBitMask layers = (-1)%Z ↔ ∀ n : nat, layers !! n = Some true ↔ n < 8.
Proof.
  rewrite GetBitMask_mask_of, <-mask_of_all_set. case_decide; [done|].
  pose proof (mask_of_nonneg layers). split; [lia|done].
Qed.

(** In every other case the answer is the non-negative number whose bit
    [n] tells whether layer [n] is set. *)
Theorem GetBitMask_bits layers :
  GetBitMask layers ≠ (-1)%Z →
  (0 ≤ GetBitMask layers)%Z ∧
  ∀ n : nat, Z.testbit (GetBitMask layers) (Z.of_nat n)
             = bool_decide (layers !! n = Some true).
Proof.
  rewrite GetBitMask_mask_of. case_decide; [done|]. intros _.
  split; [apply mask_of_nonneg|apply mask_of_testbit].
Qed.

Lemma GetBitMask_bits_witness :
  let layers := [true; false; true] in
  (0 ≤ GetBitMask layers)%Z ∧
  ∀ n : nat, Z.testbit (GetBitMask layers) (Z.of_nat n)
             = bool_decide (layers !! n = Some true).
Proof. apply (GetBitMask_bits [true; false; true]). vm_compute. discriminate. Defined.

(** Two masks of the same length get the same number only when they are
    the same mask. *)
Theorem GetBitMask_injective (l1 l2 : list bool) :
  length l1 = length l2 →
  GetBitMask l1 = GetBitMask l2 → l1 = l2.
Proof.
  intros Hlen Heq.
  assert (∀ n : nat, l1 !! n = Some true ↔ l2 !! n = Some true) as Hbits.
  { rewrite !GetBitMask_mask_of in Heq.
    pose proof (mask_of_nonneg l1). pose proof (mask_of_nonneg l2).
    destruct (decide (mask_of l1 = MAX_BITMASK_VALUE)) as [E1|E1],
             (decide (mask_of l2 = MAX_BITMASK_VALUE)) as [E2|E2]; try lia.
    - pose proof (proj1 (mask_of_all_set l1) E1) as A1.
      pose proof (proj1 (mask_of_all_set l2) E2) as A2.
      intros n. by rewrite A1, A2.
    - intros n. pose proof (mask_of_testbit l1 n) as Hn.
      rewrite Heq, mask_of_testbit in Hn.
      by rewrite <-(bool_decide_eq_true (l1 !! n = Some true)),
        <-(bool_decide_eq_true (l2 !! n = Some true)), Hn. }
  apply list_eq_same_length with (length l1); [done..|].
  intros i [] [] Hi H1 H2; try done.
  - apply Hbits in H1. congruence.
  - apply Hbits in H2. congruence.
Qed.

Lemma GetBitMask_injective_witness :
  [true; false] = [true; false].
Proof. apply GetBitMask_injective; reflexivity. Defined.







(** [AddFile] refuses exactly the names that are false in Python ([None]
    and the empty string) and the names that are, taken bare, a key of the
    registry; a refusal leaves the registry as it was and logs one
    critical message. *)
Theorem AddFile_refused pathType name fileUrhoPath (files : gmap string string) :
  let r := AddFile pathType name fileUrhoPath files in
  (added r = false ↔
     falsy name = true ∨ ∃ n, name = Some n ∧ is_Some (files !! n)) ∧
  (added r = false → files_after r = files ∧ is_Some (reported r)) ∧
  (added r = true → reported r = None).
Proof.
  unfold AddFile. destruct name as [n|]; simpl.
  - destruct (truthy n) eqn:Hn; simpl.
    + case_bool_decide as Hk; simpl.
      * split_and!; [|by eauto|done]. split; [|done]. intros _. right. eauto.
      * split_and!; [|done..]. split; [done|]. intros [?|(n' & [= <-] & ?)]; done.
    + split_and!; [|by eauto|done]. split; [|done]. intros _. by left.
  - split_and!; [|by eauto|done]. split; [|done]. intros _. by left.
Qed.

(** A registration that is accepted can be found again under its category
    and name, and changes no other key of the registry. *)
Theorem AddFile_FindFile pathType n fileUrhoPath (files : gmap string string) :
  let r := AddFile pathType (Some n) fileUrhoPath files in
  added r = true →
  FindFile pathType (Some n) (files_after r) = Some fileUrhoPath ∧
  ∀ k, k ≠ pathType +:+ n → files_after r !! k = files !! k.
Proof.
  unfold AddFile, FindFile. destruct (truthy n); simpl; [|done].
  case_bool_decide; simpl; [done|]. intros _. split.
  - apply lookup_insert_eq.
  - intros k Hk. by apply lookup_insert_ne.
Qed.

Lemma AddFile_FindFile_witness :
  let r := AddFile "MODE-" (Some "Cube") "Models/Cube.mdl" ∅ in
  FindFile "MODE-" (Some "Cube") (files_after r) = Some "Models/Cube.mdl" ∧
  ∀ k, k ≠ "MODE-" +:+ "Cube" → files_after r !! k = (∅ : gmap string string) !! k.
Proof. apply (AddFile_FindFile "MODE-" "Cube" "Models/Cube.mdl" ∅). reflexivity. Defined.

Lemma AddFile_accepted_silent pathType name path (files : gmap string string) :
  added (AddFile pathType name path files) = true →
  reported (AddFile pathType name path files) = None.
Proof.
  unfold AddFile. destruct name as [n|]; [|done].
  destruct (truthy n); simpl; [|done]. by case_bool_decide.
Qed.

(** [AddFile] looks for the bare name among keys that are category +
    name, so it does not find a name it has registered itself: a second
    registration under the same non-empty category and name is accepted
    like the first, nothing is reported, and the path of the second
    replaces the path of the first. *)
Theorem AddFile_same_name_twice pathType n path1 path2 (files : gmap string string) :
  n ≠ "" → pathType ≠ "" → files !! n = None →
  let r1 := AddFile pathType (Some n) path1 files in
  let r2 := AddFile pathType (Some n) path2 (files_after r1) in
  added r1 = true ∧ added r2 = true ∧ reported r2 = None ∧
  FindFile pathType (Some n) (files_after r2) = Some path2.
Proof.
  intros Hn Hp Hfree.
  destruct (AddFile_again pathType n path1 path2 files Hn Hp Hfree) as (H1 & H2 & H3).
  split_and!; [done..| |done]. by apply AddFile_accepted_silent.
Qed.

Lemma AddFile_same_name_twice_witness :
  let r1 := AddFile "MODE-" (Some "Cube") "Models/Cube.mdl" ∅ in
  let r2 := AddFile "MODE-" (Some "Cube") "Other/Cube.mdl" (files_after r1) in
  added r1 = true ∧ added r2 = true ∧ reported r2 = None ∧
  FindFile "MODE-" (Some "Cube") (files_after r2) = Some "Other/Cube.mdl".
Proof. apply (AddFile_same_name_twice "MODE-" "Cube"); done. Defined.

(** *** Positions, once more *)

Lemma before_sublist {A} (a b : A) (l k : list A) :
  l `sublist_of` k → before a b l → before a b k.
Proof.
  induction 1 as [|x l k Hs IH|x l k Hs IH]; intros (i & j & Hi & Hj & Hij).
  - done.
  - destruct i as [|i], j as [|j]; try lia; simpl in *.
    + injection Hi as ->. apply before_head.
      apply (elem_of_sublist l); [|done]. by apply list_elem_of_lookup_2 with j.
    + destruct IH as (i' & j' & ? & ? & ?); [exists i, j; eauto with lia|].
      exists (S i'), (S j'). eauto with lia.
  - destruct IH as (i' & j' & ? & ? & ?); [exists i, j; eauto|].
    exists (S i'), (S j'). eauto with lia.
Qed.

Lemma before_fmap {A B} (f : A → B) (a b : A) (l : list A) :
  before a b l → before (f a) (f b) (f <$> l).
Proof.
  intros (i & j & Hi & Hj & Hij). exists i, j.
  rewrite !list_lookup_fmap, Hi, Hj. done.
Qed.

Lemma before_asym {A} (a b : A) (l : list A) :
  NoDup l → before a b l → ¬ before b a l.
Proof.
  intros Hl (i & j & Hi & Hj & Hij) (j' & i' & Hj' & Hi' & Hji).
  assert (i = i') by eauto using NoDup_lookup.
  assert (j = j') by eauto using NoDup_lookup. lia.
Qed.

Lemma before_irrefl {A} (a : A) (l : list A) : NoDup l → ¬ before a a l.
Proof.
  intros Hl (i & j & Hi & Hj & Hij).
  assert (i = j) by eauto using NoDup_lookup. lia.
Qed.

Lemma before_total {A} (a b : A) (l : list A) :
  a ∈ l → b ∈ l → a = b ∨ before a b l ∨ before b a l.
Proof.
  intros [i Hi]%list_elem_of_lookup [j Hj]%list_elem_of_lookup.
  destruct (lt_eq_lt_dec i j) as [[?| ->]|?].
  - right; left. by exists i, j.
  - left. congruence.
  - right; right. by exists j, i.
Qed.

(** *** [Tree.to_list] on acyclic input, for [SortModels] *)

Lemma to_list_order (items : list Item) :
  LinkedOnce items →
  Acyclic items →
  ∃ (fuel0 : nat) (out : list string),
    (∀ fuel : nat, (fuel0 ≤ fuel)%nat →
      Tree_to_list fuel (push_all items) = Some out) ∧
    out ≡ₚ remove_dups (names_of items) ∧
    (∀ p c, declared items p c → before p c out).
Proof.
  intros Honce Hacyc.
  pose proof (TreeFacts.push_all_built items) as Hb.
  set (t := push_all items) in *.
  set (kids := kids_in items). set (par := par_in items).
  assert (NoDup t.*1) as Hk by by eapply TreeFacts.built_NoDup.
  assert (∀ p c, c ∈ kids p ↔ par c = Some p) as Hkp.
  { intros p c. unfold kids, par.
    by rewrite TreeFacts.kids_in_declared, TreeFacts.par_in_declared. }
  assert (∀ p, NoDup (kids p)) as Hkn by by apply TreeFacts.kids_in_NoDup.
  assert (∀ c p, par c = Some p → c ∈ t.*1 ∧ p ∈ t.*1) as Hpk.
  { intros c p H%TreeFacts.par_in_declared; [|done].
    apply TreeFacts.links_names in H as [].
    by rewrite !(TreeFacts.built_keys items t). }
  assert (∀ n, ¬ tc (Forest.link par) n n) as Hac.
  { intros n H%TreeFacts.tc_link_declared; [|done]. by apply Hacyc in H. }
  destruct (Forest.flatten_total kids par t.*1 Hkp Hpk Hac) as (fuel0 & out & Hout).
  assert (Forest.flatten kids par t.*1 fuel0 = Some out) as Hf by by apply Hout.
  exists fuel0, out. split_and!.
  - intros fuel Hfuel. rewrite (TreeFacts.Tree_to_list_flatten items) by done.
    by apply Hout.
  - etrans; [by eapply Forest.flatten_Permutation|].
    apply NoDup_Permutation; [done|apply NoDup_remove_dups|].
    intros x. by rewrite elem_of_remove_dups, (TreeFacts.built_keys items t).
  - intros p c H%TreeFacts.par_in_declared; [|done].
    by eapply Forest.flatten_parent_first.
Qed.

(** *** The rearranging loops of [SortModels] *)

Lemma take_model_Some n models m rest :
  take_model n models = Some (m, rest) →
  ∃ l1 l2, models = l1 ++ m :: l2 ∧ rest = l1 ++ l2 ∧ ExportScene.name m = n.
Proof.
  revert m rest. induction models as [|m0 models IH]; intros m rest; simpl; [done|].
  case_decide as Hn.
  - intros [= <- <-]. by exists [], models.
  - destruct (take_model n models) as [[m' rest']|] eqn:Ht; simpl; [|done].
    intros [= <- <-]. destruct (IH m' rest' eq_refl) as (l1 & l2 & -> & -> & ?).
    by exists (m0 :: l1), l2.
Qed.

Lemma take_model_None n models :
  take_model n models = None → n ∉ ExportScene.name <$> models.
Proof.
  induction models as [|m0 models IH]; simpl; [intros _; apply not_elem_of_nil|].
  case_decide as Hn; [done|].
  destruct (take_model n models) as [[m' rest']|]; simpl; [done|].
  intros _. rewrite not_elem_of_cons. auto.
Qed.

Definition rearrange_step (st : list UrhoSceneModel * list UrhoSceneModel) (n : string)
    : list UrhoSceneModel * list UrhoSceneModel :=
  match take_model n st.2 with
  | Some (m, rest) => (st.1 ++ [m], rest)
  | None => st
  end.

Lemma rearrange_step_fold names acc ms :
  foldl (λ '(ordered, models) n,
           match take_model n models with
           | Some (m, rest) => (ordered ++ [m], rest)
           | None => (ordered, models)
           end) (acc, ms) names
  = foldl rearrange_step (acc, ms) names.
Proof.
  revert acc ms. induction names as [|n names IH]; intros acc ms; simpl; [done|].
  unfold rearrange_step at 2. simpl.
  destruct (take_model n ms) as [[m rest]|]; apply IH.
Qed.

(** The loops move models from one list to the other: none is lost and
    none is copied; the models moved follow the order of the names; and
    when the model names are distinct, no model with one of the names is
    left behind. *)
Lemma rearrange_step_spec names acc ms :
  let r := foldl rearrange_step (acc, ms) names in
  r.1 ++ r.2 ≡ₚ acc ++ ms ∧
  (∃ new, r.1 = acc ++ new ∧ ExportScene.name <$> new `sublist_of` names) ∧
  r.2 `sublist_of` ms ∧
  (NoDup (ExportScene.name <$> ms) →
   ∀ n, n ∈ names → n ∉ ExportScene.name <$> r.2).
Proof.
  revert acc ms. induction names as [|n names IH]; intros acc ms; simpl.
  { split_and!; [done| |done|].
    - exists []. by rewrite app_nil_r.
    - intros _ n Hn. by apply elem_of_nil in Hn. }
  unfold rearrange_step at 2 4 6 8 10. simpl.
  destruct (take_model n ms) as [[m rest]|] eqn:Ht.
  - apply take_model_Some in Ht as (l1 & l2 & -> & -> & Hm).
    destruct (IH (acc ++ [m]) (l1 ++ l2)) as (Hperm & (new & Hnew & Hsub) & Hrest & Hgone).
    split_and!.
    + rewrite Hperm, <-app_assoc. simpl. apply Permutation_app_head.
      by rewrite Permutation_middle.
    + exists (m :: new). rewrite Hnew, <-app_assoc. split; [done|].
      simpl. rewrite Hm. by apply sublist_skip.
    + etrans; [exact Hrest|]. apply sublist_app; [done|]. by apply sublist_cons.
    + intros Hnd k Hk.
      rewrite fmap_app in Hnd. simpl in Hnd.
      apply NoDup_app in Hnd as (Hnd1 & Hnd12 & Hnd2).
      apply NoDup_cons in Hnd2 as [Hm2 Hnd2].
      assert (NoDup (ExportScene.name <$> l1 ++ l2)) as Hnd'.
      { rewrite fmap_app. apply NoDup_app. split_and!; [done| |done].
        intros x Hx1 Hx2. apply (Hnd12 x Hx1). by right. }
      apply elem_of_cons in Hk as [->|Hk]; [|by apply Hgone].
      intros Hin. eapply elem_of_sublist in Hin; [|by apply fmap_sublist].
      rewrite fmap_app, elem_of_app in Hin. destruct Hin as [Hin|Hin].
      * apply (Hnd12 _ Hin). rewrite Hm. left.
      * by rewrite Hm in Hm2.
  - apply take_model_None in Ht.
    destruct (IH acc ms) as (Hperm & (new & Hnew & Hsub) & Hrest & Hgone).
    split_and!; [done| |done|].
    + exists new. split; [done|]. by apply sublist_cons.
    + intros Hnd k [->|Hk]%elem_of_cons; [|by apply Hgone].
      intros Hin. apply Ht. eapply elem_of_sublist; [done|]. by apply fmap_sublist.
Qed.

(** The pairs [SortModels] pushes. *)
Definition items_of (models : list UrhoSceneModel) : list Item :=
  (λ m, (ExportScene.name m, parentObjectName m)) <$> models.

Lemma SortModels_rearrange fuel models :
  SortModels fuel models =
  names ← Tree_to_list fuel (push_all (items_of models));
  Some (foldl rearrange_step ([], models) names).1.
Proof.
  unfold SortModels, push_all, items_of, rearrange. rewrite foldl_fmap.
  destruct (Tree_to_list _ _) as [names|]; simpl; [|done].
  by rewrite rearrange_step_fold.
Qed.

(** Whatever the names and parents, the list [SortModels] leaves in
    [modelsList] holds only models of the list it found there, each at
    most as often as before: models are moved, never copied or made up. *)
Theorem SortModels_moves_models fuel models out :
  SortModels fuel models = Some out → out ⊆+ models.
Proof.
  rewrite SortModels_rearrange.
  destruct (Tree_to_list _ _) as [names|]; simpl; [|done]. intros [= <-].
  destruct (rearrange_step_spec names [] models) as (Hperm & _).
  simpl in Hperm. etrans; [|by apply Permutation_submseteq, Hperm].
  by apply submseteq_inserts_r.
Qed.

Lemma SortModels_moves_models_witness :
  [static_model "Cube" None; static_model "Cube.001" (Some "Cube")]
  ⊆+ [static_model "Cube.001" (Some "Cube"); static_model "Cube" None].
Proof.
  apply (SortModels_moves_models 3
    [static_model "Cube.001" (Some "Cube"); static_model "Cube" None]).
  reflexivity.
Defined.

Lemma LinkedOnce_items_of models :
  NoDup (ExportScene.name <$> models) → LinkedOnce (items_of models).
Proof.
  intros Hnd. unfold LinkedOnce. eapply sublist_NoDup; [exact Hnd|].
  unfold links, items_of. clear Hnd.
  induction models as [|m models IH]; [done|].
  rewrite !fmap_cons. cbn [omap list_omap].
  destruct (link_of (ExportScene.name m, parentObjectName m)) as [[c p]|] eqn:Hl;
    [rewrite fmap_cons|].
  - apply TreeFacts.link_of_Some in Hl as ([= <- _] & _). by apply sublist_skip.
  - by apply sublist_cons.
Qed.

Lemma fmap_inj_elem {A B} (f : A → B) (l : list A) x y :
  NoDup (f <$> l) → x ∈ l → y ∈ l → f x = f y → x = y.
Proof.
  intros Hnd [i Hi]%list_elem_of_lookup [j Hj]%list_elem_of_lookup Hxy.
  assert (i = j) as ->; [|congruence].
  eapply NoDup_lookup; [done| |]; rewrite list_lookup_fmap.
  - by rewrite Hi.
  - by rewrite Hj, Hxy.
Qed.

(** When the models have distinct names and no model is its own ancestor
    through the parent names, [SortModels] returns (for every sufficient
    recursion depth) a rearrangement of the very same models in which each
    model stands after the model named as its parent. *)
Theorem SortModels_sorts (models : list UrhoSceneModel) :
  NoDup (ExportScene.name <$> models) →
  Acyclic (items_of models) →
  ∃ (fuel0 : nat) (out : list UrhoSceneModel),
    (∀ fuel : nat, (fuel0 ≤ fuel)%nat → SortModels fuel models = Some out) ∧
    out ≡ₚ models ∧
    (∀ p c, p ∈ models → c ∈ models → p ≠ c →
       parentObjectName c = Some (ExportScene.name p) → ExportScene.name p ≠ "" →
       before p c out).
Proof.
  intros Hnd Hacyc.
  destruct (to_list_order (items_of models)) as (fuel0 & names & Hrun & Hperm & Hord);
    [by apply LinkedOnce_items_of|done|].
  destruct (rearrange_step_spec names [] models)
    as (Hmove & (new & Hnew & Hsub) & _ & Hgone).
  set (r := foldl rearrange_step ([], models) names) in *.
  simpl in Hmove, Hnew. subst new.
  assert (NoDup names) as Hnames.
  { rewrite Hperm. apply NoDup_remove_dups. }
  assert (∀ m, m ∈ models → ExportScene.name m ∈ names) as Hin.
  { intros m Hm. rewrite Hperm, elem_of_remove_dups.
    apply TreeFacts.elem_of_names_of.
    exists (ExportScene.name m, parentObjectName m). split; [|by left].
    apply list_elem_of_fmap. by exists m. }
  assert (r.2 = []) as Hrest.
  { apply elem_of_nil_inv. intros m Hm2.
    assert (m ∈ models) as Hm.
    { rewrite <-Hmove. apply elem_of_app. by right. }
    apply (Hgone Hnd _ (Hin m Hm)). apply list_elem_of_fmap. by exists m. }
  rewrite Hrest, app_nil_r in Hmove.
  exists fuel0, r.1. split_and!.
  - intros fuel Hfuel. by rewrite SortModels_rearrange, Hrun.
  - done.
  - intros p c Hp Hc Hpc Hpar Hname.
    assert (ExportScene.name p ≠ ExportScene.name c) as Hne.
    { intros H. by apply Hpc, (fmap_inj_elem ExportScene.name models). }
    assert (before (ExportScene.name p) (ExportScene.name c) names) as Hbef.
    { apply Hord. apply TreeFacts.elem_of_links. split_and!; [|done..].
      apply list_elem_of_fmap. exists c. by rewrite Hpar. }
    destruct (before_total p c r.1) as [?|[?|Hcp]]; [by rewrite Hmove..|done|done|].
    exfalso. apply (before_asym _ _ _ Hnames Hbef).
    eapply before_sublist; [exact Hsub|]. by apply before_fmap.
Qed.

Lemma cube_models_Acyclic :
  Acyclic (items_of [static_model "Cube.001" (Some "Cube"); static_model "Cube" None]).
Proof.
  apply (rank_Acyclic _ String.length).
  intros c p H. vm_compute in H.
  apply list_elem_of_singleton in H. injection H as -> ->. vm_compute. lia.
Qed.

Lemma SortModels_sorts_witness :
  let models := [static_model "Cube.001" (Some "Cube"); static_model "Cube" None] in
  ∃ (fuel0 : nat) (out : list UrhoSceneModel),
    (∀ fuel : nat, (fuel0 ≤ fuel)%nat → SortModels fuel models = Some out) ∧
    out ≡ₚ models ∧
    (∀ p c, p ∈ models → c ∈ models → p ≠ c →
       parentObjectName c = Some (ExportScene.name p) → ExportScene.name p ≠ "" →
       before p c out).
Proof.
  apply (SortModels_sorts
    [static_model "Cube.001" (Some "Cube"); static_model "Cube" None]).
  - vm_compute. repeat constructor; set_solver.
  - apply cube_models_Acyclic.
Defined.

(** *** The components of an object after a reset *)

(** What [CollisionShape] writes between the shape type and the common
    attributes: the model for mesh shapes, size and offset for the others. *)
Definition CollisionShape_geometry (u : Env) (sh : ShapeProps) (modelFile : string)
    (shapeSize shapeOffset : Vector) : list Attr :=
  if String.eqb (urho_shape_type sh) "TriangleMesh"
     || String.eqb (urho_shape_type sh) "ConvexHull"
  then [("Model", "Model;" +:+ (if urho_overwrite_model sh then urho_model sh
                                 else modelFile))]
  else shown [ (negb (String.eqb (Vector3ToString u shapeSize) "1 1 1"),
                 ("Size", Vector3ToString u shapeSize));
               (negb (String.eqb (Vector3ToString u shapeOffset) "0 0 0"),
                 ("Offset Position", Vector3ToString u shapeOffset)) ].

Ltac store_length :=
  simpl; rewrite ?length_grow, ?length_app, ?length_alter; simpl; lia.

Lemma CollisionShape_run u node sh modelFile shapeSize shapeOffset s :
  node < length (xml s) →
  CollisionShape u node sh modelFile shapeSize shapeOffset s =
  Normal ()
    (with_compoID (compoID s + 1)
       (with_xml
          (with_component node
             [("type", "CollisionShape"); ("id", format_d (compoID s))]
             (("Shape Type", urho_shape_type sh)
              :: CollisionShape_geometry u sh modelFile shapeSize shapeOffset
              ++ shown (CollisionShape_attributes u sh)) (xml s)) s)).
Proof.
  intros Hp. unfold CollisionShape. erewrite bind_run by by apply component_run.
  erewrite bind_run by (apply attribute_run; store_length).
  unfold with_component, CollisionShape_geometry.
  destruct (_ || _).
  - erewrite bind_run by (apply attribute_run; store_length).
    rewrite attributes_if_run by store_length.
    simpl. rewrite !grow_app by store_length. done.
  - erewrite bind_run by (apply attributes_if_run; store_length).
    rewrite attributes_if_run by store_length.
    simpl. rewrite !grow_app by store_length. done.
Qed.







(** *** The attributes of a placed prefab *)

(** An attribute after the loop of lines 297-313: the three transforms
    take the new texts, everything else keeps its value. *)
Definition retargeted (pos rot scale : string) (a : Attr) : Attr :=
  (a.1, if decide (a.1 = "Position") then pos
        else if decide (a.1 = "Rotation") then rot
        else if decide (a.1 = "Scale") then scale
        else a.2).

(** The attributes that lines 315-327 append: the transforms that no
    attribute of the prefab carries. *)
Definition appended (old : list Attr) (pos rot scale : string) : list Attr :=
  (if decide ("Position" ∈ old.*1) then [] else [("Position", pos)])
  ++ (if decide ("Rotation" ∈ old.*1) then [] else [("Rotation", rot)])
  ++ (if decide ("Scale" ∈ old.*1) then [] else [("Scale", scale)]).

Lemma read_attribute_name (h : ET.Store) c a :
  ET.read_attribute h c = Some a →
  ET.get c "name" h = Some a.1 ∧ ET.get c "value" h = Some a.2.
Proof.
  unfold ET.read_attribute. destruct (ET.get c "name" h) as [n|]; [|done].
  destruct (ET.get c "value" h) as [v|]; [|done]. by intros [= <-].
Qed.

Lemma carried_attributes (h : ET.Store) l n :
  Forall (λ c, is_Some (ET.read_attribute h c)) l →
  carried h l n ↔ n ∈ (omap (ET.read_attribute h) l).*1.
Proof.
  unfold carried. induction 1 as [|c cs [a Ha] _ IH].
  - split; [by intros ?%Exists_nil|by intros ?%elem_of_nil].
  - cbn [omap list_omap]. rewrite Ha, fmap_cons, elem_of_cons, Exists_cons, IH.
    apply read_attribute_name in Ha as [-> _]. naive_solver.
Qed.

Lemma at_most_once_attributes (h : ET.Store) l n :
  Forall (λ c, is_Some (ET.read_attribute h c)) l →
  (length (filter (λ a : Attr, a.1 = n) (omap (ET.read_attribute h) l)) ≤ 1)%nat →
  at_most_once h l n.
Proof.
  intros Hread. unfold at_most_once.
  assert (length (filter (λ c, ET.get c "name" h = Some n) l) =
          length (filter (λ a : Attr, a.1 = n) (omap (ET.read_attribute h) l))) as ->;
    [|done].
  induction Hread as [|c cs [a Ha] _ IH]; [done|].
  cbn [omap list_omap]. rewrite Ha, !filter_cons.
  apply read_attribute_name in Ha as [-> _].
  destruct (decide (a.1 = n)) as [->|Hne].
  - rewrite decide_True by done. simpl. by rewrite IH.
  - rewrite decide_False by congruence. done.
Qed.

Lemma appended_missing (h : ET.Store) l pos rot scale :
  Forall (λ c, is_Some (ET.read_attribute h c)) l →
  appended (omap (ET.read_attribute h) l) pos rot scale = missing h l pos rot scale.
Proof.
  intros Hread. unfold appended, missing.
  repeat (f_equal; try by (apply decide_ext; symmetry; apply carried_attributes)).
Qed.

Lemma retargeted_read (h h' : ET.Store) l pos rot scale :
  Forall (λ c, is_Some (ET.read_attribute h c)) l →
  (∀ c, ET.get c "name" h' = ET.get c "name" h) →
  (∀ c, c ∈ l → ET.get c "value" h' =
     match slot_at h c with
     | Some k => Some (read k (pos, rot, scale))
     | None => ET.get c "value" h
     end) →
  omap (ET.read_attribute h') l =
  retargeted pos rot scale <$> omap (ET.read_attribute h) l.
Proof.
  intros Hread Hname Hvalue. induction Hread as [|c cs [a Ha] _ IH]; [done|].
  cbn [omap list_omap]. rewrite Ha, fmap_cons, <-IH.
  2:{ intros c' Hc'. apply Hvalue. by right. }
  assert (ET.read_attribute h' c = Some (retargeted pos rot scale a)) as ->; [|done].
  apply read_attribute_name in Ha as [Hn Hv].
  unfold ET.read_attribute. rewrite Hname, Hn, Hvalue by left. simpl.
  unfold slot_at, slot_of, retargeted. rewrite Hn, Hv.
  destruct a as [n v]. simpl in *.
  repeat case_decide; simplify_eq; try done; congruence.
Qed.

(** Position, Rotation and Scale of a prefab being placed.  Read as
    (name, value) pairs, the attributes of the prefab root afterwards are
    the ones it had, in their order, with the values of Position, Rotation
    and Scale replaced by the texts computed for the instance, followed by
    a new attribute, in this order, for each of the three that the prefab
    did not carry.  Nothing but the document changes. *)
Theorem set_transforms_attributes prefab_root pos rot scale s :
  let h := xml s in
  let old := ET.attributes prefab_root h in
  prefab_root < length h →
  Forall (λ c, c < length h) (ET.children prefab_root h) →
  Forall (λ c, is_Some (ET.read_attribute h c)) (ET.findall prefab_root "attribute" h) →
  (∀ n, n ∈ ["Position"; "Rotation"; "Scale"] →
     (length (filter (λ a : Attr, a.1 = n) old) ≤ 1)%nat) →
  pos ≠ "" → rot ≠ "" → scale ≠ "" →
  ∃ s',
    set_transforms prefab_root pos rot scale s = Normal () s' ∧
    s' = with_xml (xml s') s ∧
    ET.attributes prefab_root (xml s') =
      (retargeted pos rot scale <$> old) ++ appended old pos rot scale.
Proof.
  intros h old Hroot Hkids Hread Honce Hpos Hrot Hscale.
  set (found := ET.findall prefab_root "attribute" h) in *.
  assert (Forall (λ c, c < length h) found) as Hvalid.
  { apply Forall_forall. intros c [_ Hc]%list_elem_of_filter.
    by eapply Forall_forall in Hkids. }
  assert (once h found) as Honce'.
  { apply once_names; apply at_most_once_attributes; try done;
      apply Honce; set_solver. }
  destruct (turns_spec found (pos, rot, scale) h Hvalid Honce')
    as (_ & Hlen & Hch & Htag & Hget & Hval & _).
  set (h' := (turns (pos, rot, scale) found h).2) in *.
  exists (with_xml (grow prefab_root (missing h found pos rot scale) h') s).
  split_and!.
  - by apply set_transforms_run.
  - done.
  - cbn [xml with_xml]. rewrite attributes_grow by (rewrite ?Hch, Hlen; done).
    change old with (omap (ET.read_attribute h) found).
    assert (ET.findall prefab_root "attribute" h' = found) as Hfound.
    { unfold found, ET.findall. rewrite Hch. apply list_filter_iff.
      intros c. by rewrite Htag. }
    unfold ET.attributes. rewrite Hfound.
    rewrite (appended_missing h found pos rot scale Hread). f_equal.
    apply retargeted_read; [done|by intros; apply Hget|].
    intros c Hc. rewrite Hval. destruct (slot_at h c); [|done].
    by rewrite decide_True.
Qed.

(** A prefab that carries a Rotation but neither Position nor Scale, as
    parsed from its file. *)
Definition turned_prefab : State :=
  state_of (parse
    (ET.XNode "node" [("id", "16777216")]
       [ ET.XNode "attribute" [("name", "Name"); ("value", "Tree")] [];
         ET.XNode "attribute" [("name", "Rotation"); ("value", "0 45 0")] [];
         ET.XNode "component" [("type", "StaticModel"); ("id", "16777216")] [] ])
    initial_state).

Lemma set_transforms_attributes_witness :
  ∃ s',
    set_transforms 0 "1 2 3" "0 90 0" "2 2 2" turned_prefab = Normal () s' ∧
    s' = with_xml (xml s') turned_prefab ∧
    ET.attributes 0 (xml s') =
      [("Name", "Tree"); ("Rotation", "0 90 0");
       ("Position", "1 2 3"); ("Scale", "2 2 2")].
Proof.
  apply (set_transforms_attributes 0 "1 2 3" "0 90 0" "2 2 2" turned_prefab).
  - vm_compute. lia.
  - vm_compute. repeat (constructor; [simpl; lia|]). constructor.
  - vm_compute. repeat (constructor; [by eexists|]). constructor.
  - intros n Hn. vm_compute in Hn.
    repeat (apply elem_of_cons in Hn as [->|Hn]; [vm_compute; lia|]).
    by apply elem_of_nil in Hn.
  - done.
  - done.
  - done.
Defined.

(** *** Parsing a document into the store *)

Lemma Xml_nested_ind (P : ET.Xml → Prop) :
  (∀ tg a ks, Forall P ks → P (ET.XNode tg a ks)) → ∀ x, P x.
Proof.
  intros H. fix IH 1. intros [tg a ks]. apply H.
  induction ks as [|k ks IHks]; constructor; [apply IH|exact IHks].
Qed.

(** The loop of [load] over the children of the element [e]. *)
Definition load_kids (e : nat) (ks : list ET.Xml) (h : ET.Store) : ET.Store :=
  foldl (λ h k, let '(c, h) := ET.load k h in ET.append e c h) h ks.

Lemma load_unfold tg a ks (h : ET.Store) :
  ET.load (ET.XNode tg a ks) h =
  (length h, load_kids (length h) ks (h ++ [ET.mkElement tg a []])).
Proof. done. Qed.

(** [load] puts the root at the next free address and leaves the store
    it found as it was; the root has the tag and attributes of the
    document and one child, inside the store, for each child of the
    document. *)
Definition load_ok (x : ET.Xml) : Prop :=
  ∀ h : ET.Store,
    (ET.load x h).1 = length h ∧
    length h < length (ET.load x h).2 ∧
    (∀ i, i < length h → (ET.load x h).2 !! i = h !! i) ∧
    ∃ el, (ET.load x h).2 !! length h = Some el ∧
          match x with
          | ET.XNode tg a ks =>
              ET.tag el = tg ∧ ET.attrib el = a ∧ length (ET.kids el) = length ks
              ∧ Forall (λ c, c < length (ET.load x h).2) (ET.kids el)
          end.

Lemma load_kids_spec e ks : ∀ (h0 : ET.Store) el0,
  Forall load_ok ks →
  e < length h0 → h0 !! e = Some el0 →
  Forall (λ c, c < length h0) (ET.kids el0) →
  (length h0 ≤ length (load_kids e ks h0))%nat ∧
  (∀ i, i < length h0 → i ≠ e → load_kids e ks h0 !! i = h0 !! i) ∧
  ∃ el, load_kids e ks h0 !! e = Some el ∧ ET.tag el = ET.tag el0 ∧
        ET.attrib el = ET.attrib el0 ∧
        length (ET.kids el) = length (ET.kids el0) + length ks ∧
        Forall (λ c, c < length (load_kids e ks h0)) (ET.kids el).
Proof.
  induction ks as [|k ks IHk]; intros h0 el0 Hall He Hel Hval.
  { simpl. split_and!; [done..|]. exists el0. rewrite Nat.add_0_r. done. }
  apply Forall_cons in Hall as [Hk Hall].
  destruct (Hk h0) as (Hroot & Hlen & Hold & _).
  unfold load_kids. cbn [foldl].
  destruct (ET.load k h0) as [c h1] eqn:Hload. simpl in Hroot, Hlen, Hold. subst c.
  fold (load_kids e ks (ET.append e (length h0) h1)).
  assert (h1 !! e = Some el0) as Hel1 by by rewrite Hold.
  destruct (IHk (ET.append e (length h0) h1) (ET.add_kid (length h0) el0))
    as (Hlen' & Hold' & el & Hel' & Htag & Hat & Hk' & Hval'); [done|..].
  - unfold ET.append. rewrite length_alter. lia.
  - unfold ET.append. by rewrite list_lookup_alter_eq, Hel1.
  - unfold ET.append. rewrite length_alter. simpl. apply Forall_app. split.
    + eapply Forall_impl; [exact Hval|]. simpl. lia.
    + repeat constructor. lia.
  - unfold ET.append in *. rewrite length_alter in *. split_and!.
    + lia.
    + intros i Hi Hie. rewrite Hold' by lia.
      rewrite list_lookup_alter_ne by done. by apply Hold.
    + exists el. split_and!; [done..| |done].
      rewrite Hk'. simpl. rewrite length_app. simpl. lia.
Qed.

Lemma load_spec x : load_ok x.
Proof.
  induction x as [tg a ks IH] using Xml_nested_ind. intros h.
  rewrite load_unfold. cbn [fst snd].
  destruct (load_kids_spec (length h) ks (h ++ [ET.mkElement tg a []])
              (ET.mkElement tg a []) IH)
    as (Hlen & Hold & el & Hel & Htag & Hat & Hk & Hval).
  - rewrite length_app. simpl. lia.
  - by rewrite lookup_app_r, Nat.sub_diag by done.
  - constructor.
  - rewrite length_app in Hlen. simpl in Hlen. split_and!; [done|lia| |].
    + intros i Hi. rewrite Hold by (rewrite ?length_app; simpl; lia).
      by rewrite lookup_app_l.
    + exists el. by split_and!.
Qed.

(** *** Placing one prefab instance *)






Lemma children_grow_other parent l (h : ET.Store) c :
  c < length h → c ≠ parent →
  ET.children c (grow parent l h) = ET.children c h.
Proof.
  intros Hc Hne. unfold ET.children. rewrite lookup_grow_old by done.
  rewrite decide_False by done. by destruct (h !! c).
Qed.




(** The instances the loop passes over.  A prefab file that is missing,
    or whose root is not a node, is reported and skipped; a prefab whose
    root node has no child at all is skipped without a word.  In all
    three cases nothing is recorded for the instance and nothing is put
    into the scene; the loop goes on with the next instance. *)
Theorem export_instance_skips u disk sceneRoot i s :
  let run := export_instance u disk sceneRoot i s in
  let prefabFile := (GetFilepath u (PathType_OBJECTS u) (ScenePrefab.name i)).1 in
  (disk !! ScenePrefab.name i = None →
     run = Normal () (with_logged "critical"
                        ("Cannot find prefab: " +:+ prefabFile +:+ " ") s))
  ∧ (∀ tg a ks, disk !! ScenePrefab.name i = Some (ET.XNode tg a ks) → tg ≠ "node" →
       ∃ h', run = Normal () (with_logged "critical"
                                ("Invalid prefab: " +:+ prefabFile +:+ " ")
                                (with_xml h' s))
             ∧ ∀ c, c < length (xml s) → h' !! c = xml s !! c)
  ∧ (∀ a, disk !! ScenePrefab.name i = Some (ET.XNode "node" a []) →
       run = Normal () (with_xml (xml s ++ [ET.mkElement "node" a []]) s)).
Proof.
  intros run prefabFile. subst run prefabFile. unfold export_instance, GetPrefabRoot.
  split_and!.
  - intros ->. reflexivity.
  - intros tg a ks -> Htg.
    destruct (load_spec (ET.XNode tg a ks) (xml s))
      as (Hroot & Hlen & Hold & el & Hel & Htag & _).
    unfold mbind, M_bind, parse, gets, log, modify.
    destruct (ET.load (ET.XNode tg a ks) (xml s)) as [root h1] eqn:Hload.
    simpl in Hroot, Hlen, Hold, Hel. subst root. simpl.
    unfold ET.has_tag. rewrite Hel. simpl. rewrite Htag.
    rewrite bool_decide_eq_false_2 by congruence. simpl.
    exists h1. split; [done|]. exact Hold.
  - intros a ->. unfold mbind, M_bind, parse, gets. simpl.
    unfold ET.has_tag, ET.children. rewrite !lookup_app_r, Nat.sub_diag by done.
    simpl. rewrite lookup_app_r, Nat.sub_diag by done. done.
Qed.

(** *** A transform that the prefab carries twice *)









(** *** The loop over the instances *)


(** Where the loop stands: the scene root and every recorded prefab root
    are elements of the document, the instances gone through are recorded
    under their object names, and no file has been written. *)
Definition loop_inv (sceneRoot : nat) (gone : list UrhoInstance) (s : State) : Prop :=
  sceneRoot < length (xml s) ∧
  (∀ p e, elements s !! p = Some e → e < length (xml s)) ∧
  (∀ p, p ∈ objectName <$> gone → is_Some (elements s !! p)) ∧
  written s = [].



Lemma scene_components_run scn :
  ∃ s0, ScenePrefab.scene_components scn initial_state = Normal 0 s0 ∧
        loop_inv 0 [] s0.
Proof.
  destruct scn as [nm sky nav navigable phys].
  unfold ScenePrefab.scene_components.
  cbn [scene_name urho_skyboxPath urho_navigation urho_navigable urho_physics].
  destruct (truthy sky), nav, navigable, phys;
    (match goal with
     | |- ∃ s0, ?run = _ ∧ _ =>
         let r := fresh "r" in let Hr := fresh "Hr" in
         remember run as r eqn:Hr; vm_compute in Hr; subst r
     end);
    eexists; (split; [reflexivity|]);
    (split_and!; [simpl; lia|by intros p e H; vm_compute in H
                 |by intros p ?%elem_of_nil|reflexivity]).
Qed.




(** *** The module-level list of instances *)

(** A step that appends to the list it is given: what it appends and the
    state it leaves do not depend on the list. *)
Definition appends (f : list Gathered → M (list Gathered)) : Prop :=
  ∀ s, ∃ new s', ∀ g, f g s = Normal (g ++ new) s'.

Lemma appends_ret : appends mret.
Proof. intros s. exists [], s. intros g. by rewrite app_nil_r. Qed.

Lemma appends_fold {A} (F : A → list Gathered → M (list Gathered)) (l : list A) :
  (∀ a, appends (F a)) →
  appends (λ g, fold_each (λ instances a, F a instances) g l).
Proof.
  intros HF. induction l as [|a l IH]; intros s; cbn [fold_each].
  - apply appends_ret.
  - destruct (HF a s) as (new1 & s1 & H1). destruct (IH s1) as (new2 & s2 & H2).
    exists (new1 ++ new2), s2. intros g.
    erewrite bind_run by apply H1. by rewrite H2, app_assoc.
Qed.

Lemma UrhoDupliTransforms_run obj dupli root parent s :
  ∃ instance s', UrhoDupliTransforms obj dupli root parent s = Normal instance s'.
Proof.
  unfold UrhoDupliTransforms, when, log, modify, mbind, M_bind, mret, M_ret.
  destruct (ob_rotated dupli), (ob_scaled dupli); by eexists _, _.
Qed.

Lemma appends_one obj dupli root parent :
  appends (λ instances,
    instance ← UrhoDupliTransforms obj dupli root parent;
    mret (instances ++ [instance])).
Proof.
  intros s. destruct (UrhoDupliTransforms_run obj dupli root parent s) as (i & s' & H).
  exists [i], s'. intros g. by erewrite bind_run by exact H.
Qed.

(** [UrhoGatherInstances] only ever appends to the list. *)
Lemma UrhoGatherInstances_appends obj : appends (UrhoGatherInstances obj).
Proof.
  unfold UrhoGatherInstances. destruct (ob_hide obj); [apply appends_ret|].
  destruct (is_group_instance obj).
  - apply (appends_fold (λ dupli instances,
      if ob_hide dupli || String.eqb (ob_type dupli) "ARMATURE" then mret instances
      else if is_group_instance dupli then
        fold_each (λ instances subDupli,
          instance ← UrhoDupliTransforms obj subDupli obj (Some dupli);
          mret (instances ++ [instance]))
          instances (default [] (ob_dupli_group dupli))
      else
        instance ← UrhoDupliTransforms obj dupli obj None;
        mret (instances ++ [instance]))).
    intros dupli. destruct (_ || _); [apply appends_ret|].
    destruct (is_group_instance dupli); [|apply appends_one].
    apply (appends_fold (λ subDupli instances,
      instance ← UrhoDupliTransforms obj subDupli obj (Some dupli);
      mret (instances ++ [instance]))).
    intros subDupli. apply appends_one.
  - destruct (String.eqb _ _); [|apply appends_ret].
    intros s. exists [mesh_instance obj], s. done.
Qed.

(** The operator never empties the module-level list of instances: it
    appends the instances of the scene to whatever the list holds and
    then goes through the whole list.  So when the same scene is exported
    twice in one session and both exports complete, the second export
    goes through every instance twice. *)
Theorem second_export_repeats_first u scn disk decompose fuel objects g0 g1 g2 s1 s2 :
  ExportScenePrefabButton_execute u scn disk decompose fuel objects g0 initial_state
    = Normal g1 s1 →
  ExportScenePrefabButton_execute u scn disk decompose fuel objects g1 initial_state
    = Normal g2 s2 →
  ∃ new, g1 = g0 ++ new ∧ g2 = g0 ++ new ++ new.
Proof.
  unfold ExportScenePrefabButton_execute.
  destruct (scene_components_run scn) as (s0 & Hrun0 & _).
  rewrite !(bind_run _ _ _ _ _ Hrun0).
  destruct (ExportScenePrefabButton_SortModels fuel objects) as [sorted|]; [|done].
  destruct (appends_fold (λ obj instances, UrhoGatherInstances obj instances) sorted
              UrhoGatherInstances_appends s0) as (new & s' & Hgather).
  rewrite !(bind_run _ _ _ _ _ (Hgather _)).
  unfold mbind, M_bind, mret, M_ret.
  intros H1 H2. exists new.
  repeat match goal with
         | H : match ?x with _ => _ end = Normal _ _ |- _ =>
             destruct x; try discriminate H
         end.
  injection H1 as <- _. injection H2 as <- _. by rewrite app_assoc.
Qed.

(** A scene with one visible mesh object, Tree.001, whose mesh is Tree. *)
Definition one_tree : list BObject :=
  [ mkBObject "Tree.001" false "MESH" "Tree" None false false false None ].

Definition session (g : list Gathered) : Outcome (list Gathered) :=
  ExportScenePrefabButton_execute (env []) plain_scene {[ "Tree" := tree_prefab ]}
    (λ _, (zero3, zero3, one3)) 10 one_tree g initial_state.

Lemma second_export_repeats_first_witness :
  let tree := mkGathered "Tree" None (matrix_world "Tree.001") "Tree.001" in
  ∃ new, [tree] = [] ++ new ∧ [tree; tree] = [] ++ new ++ new.
Proof.
  apply (second_export_repeats_first (env []) plain_scene {[ "Tree" := tree_prefab ]}
           (λ _, (zero3, zero3, one3)) 10 one_tree []
           [mkGathered "Tree" None (matrix_world "Tree.001") "Tree.001"]
           [mkGathered "Tree" None (matrix_world "Tree.001") "Tree.001";
            mkGathered "Tree" None (matrix_world "Tree.001") "Tree.001"]
           (state_of (session []))
           (state_of (session
              [mkGathered "Tree" None (matrix_world "Tree.001") "Tree.001"]))).
  - vm_compute. reflexivity.
  - vm_compute. reflexivity.
Defined.

(** In the second scene file the prefab of the tree stands twice. *)
Lemma second_export_document :
  let count (o : Outcome (list Gathered)) :=
    length (filter (λ c, ET.has_tag "node" (xml (state_of o)) c = true)
                   (ET.children 0 (xml (state_of o)))) in
  count (session []) = 3 ∧
  count (session [mkGathered "Tree" None (matrix_world "Tree.001") "Tree.001"]) = 4.
Proof. by vm_compute. Qed.

(** *** Lists written as one string *)

(** [str.split(sep)] for a separator of one character. *)
Fixpoint split_on (sep : ascii) (s : string) : list string :=
  match s with
  | EmptyString => [""]
  | String c s' =>
      if decide (c = sep) then "" :: split_on sep s'
      else match split_on sep s' with
           | w :: ws => String c w :: ws
           | [] => [String c ""]
           end
  end.

(** [sep in s] *)
Fixpoint has_char (sep : ascii) (s : string) : bool :=
  match s with
  | EmptyString => false
  | String c s' => bool_decide (c = sep) || has_char sep s'
  end.

Lemma append_nil (t : string) : "" +:+ t = t.
Proof. reflexivity. Qed.

Lemma append_cons c (s t : string) : String c s +:+ t = String c (s +:+ t).
Proof. reflexivity. Qed.

Lemma append_assoc (a b c : string) : (a +:+ b) +:+ c = a +:+ (b +:+ c).
Proof.
  induction a as [|x a IH]; [done|]. rewrite !append_cons. by f_equal.
Qed.

Lemma append_empty_r (a : string) : a +:+ "" = a.
Proof.
  induction a as [|x a IH]; [done|]. rewrite append_cons. by f_equal.
Qed.

Lemma split_on_word sep w rest :
  has_char sep w = false →
  split_on sep (w +:+ String sep rest) = w :: split_on sep rest.
Proof.
  induction w as [|c w IH].
  - intros _. rewrite ?append_nil. simpl. by rewrite decide_True.
  - simpl. intros [Hc Hw]%orb_false_iff. apply bool_decide_eq_false in Hc.
    rewrite ?append_cons. simpl. rewrite decide_False by done. by rewrite IH.
Qed.



Lemma foldl_ended {A} (sep : string) (entry : A → string) (l : list A) (acc : string) :
  foldl (λ content x, content +:+ entry x +:+ sep) acc l =
  acc +:+ foldr (λ x r, entry x +:+ sep +:+ r) "" l.
Proof.
  revert acc. induction l as [|x l IH]; intros acc; cbn [foldl foldr].
  - by rewrite append_empty_r.
  - by rewrite IH, !append_assoc.
Qed.


Lemma split_on_ended {A} sep (entry : A → string) (l : list A) :
  (∀ x, x ∈ l → has_char sep (entry x) = false) →
  split_on sep (foldr (λ x r, entry x +:+ String sep "" +:+ r) "" l) =
  (entry <$> l) ++ [""].
Proof.
  induction l as [|x l IH]; intros Hl; cbn [foldr]; [done|].
  rewrite append_cons, append_nil, split_on_word by (apply Hl; left).
  rewrite IH; [done|]. intros y Hy. apply Hl. by right.
Qed.

(** No path of the registry contains the character. *)
Definition free_of (sep : ascii) (files : gmap string string) : Prop :=
  ∀ k path, files !! k = Some path → has_char sep path = false.

(** *** The materials of a model component *)





(** *** The materials list of a model *)

(** The line that [UrhoWriteMaterialsList] writes for a material. *)
Definition material_line (MATERIALS : string) (files : gmap string string)
    (mat : option string) : string :=
  let file := FindFile MATERIALS mat files in
  if falsy file then "null" else default "" file.

Lemma material_line_free MATERIALS files mat :
  free_of "010" files → has_char "010" (material_line MATERIALS files mat) = false.
Proof.
  intros Hfree. unfold material_line.
  destruct (FindFile _ mat files) as [path|] eqn:Hf; [|done]. simpl.
  destruct (truthy path); [|done]. simpl.
  destruct mat as [n|]; [|done]. simpl in Hf. by eapply Hfree.
Qed.

Lemma material_line_not_empty MATERIALS files mat :
  material_line MATERIALS files mat ≠ "".
Proof.
  unfold material_line. destruct (FindFile _ mat files) as [path|]; [|done]. simpl.
  destruct (truthy path) eqn:Hp; [|done]. simpl. by apply truthy_true.
Qed.

(** The file that [UrhoWriteMaterialsList] writes holds one line for each
    material of the first model of the scene that has the name, in the
    order of the model, each ended by a newline: split at the newlines it
    gives, line by line, the registered file of the material, or the word
    null for a material that has none.  No line is empty, so a reader that
    drops empty lines still finds the file of material [i] on line [i]. *)
Theorem UrhoWriteMaterialsList_lines MATERIALS uScene uModelName content :
  free_of "010" (ExportScene.files uScene) →
  UrhoWriteMaterialsList MATERIALS true uScene uModelName = FileWritten content →
  ∃ i uSceneModel,
    list_find (λ m, ExportScene.name m = uModelName) (modelsList uScene)
      = Some (i, uSceneModel) ∧
    split_on "010" content =
      (material_line MATERIALS (ExportScene.files uScene) <$> materialsList uSceneModel)
      ++ [""] ∧
    Forall (λ line, line ≠ "")
      (material_line MATERIALS (ExportScene.files uScene) <$> materialsList uSceneModel).
Proof.
  intros Hfree. unfold UrhoWriteMaterialsList.
  destruct (list_find _ _) as [[i m]|]; [|done]. intros [= <-].
  exists i, m. split_and!; [done| |].
  - change (foldl _ "" (materialsList m)) with
      (foldl (λ content mat,
                content +:+ material_line MATERIALS (ExportScene.files uScene) mat
                +:+ newline) "" (materialsList m)).
    rewrite (foldl_ended newline (material_line MATERIALS (ExportScene.files uScene))).
    rewrite append_nil. apply split_on_ended.
    intros mat _. by apply material_line_free.
  - apply Forall_fmap, Forall_forall. intros mat _. apply material_line_not_empty.
Qed.

Lemma UrhoWriteMaterialsList_lines_witness :
  let uScene :=
    mkUrhoScene "Scene"
      [mkUrhoSceneModel "Tree" None "StaticModel" [Some "Leaf"; Some "Bark"] unit_box]
      {[ "MATE-Bark" := "Materials/Bark.xml" ]} in
  ∃ i uSceneModel,
    list_find (λ m, ExportScene.name m = "Tree") (modelsList uScene)
      = Some (i, uSceneModel) ∧
    split_on "010" ("null" +:+ newline +:+ "Materials/Bark.xml" +:+ newline) =
      (material_line "MATE-" (ExportScene.files uScene) <$> materialsList uSceneModel)
      ++ [""] ∧
    Forall (λ line, line ≠ "")
      (material_line "MATE-" (ExportScene.files uScene) <$> materialsList uSceneModel).
Proof.
  apply (UrhoWriteMaterialsList_lines "MATE-"
    (mkUrhoScene "Scene"
      [mkUrhoSceneModel "Tree" None "StaticModel" [Some "Leaf"; Some "Bark"] unit_box]
      {[ "MATE-Bark" := "Materials/Bark.xml" ]}) "Tree").
  - intros k path Hk. cbn [ExportScene.files] in Hk.
    apply lookup_singleton_Some in Hk as [_ <-]. reflexivity.
  - vm_compute. reflexivity.
Defined.

(** *** What a run leaves of the elements it found *)

(** Every element of [h] is still there in [h'], with its tag and
    attributes, and with its children followed by new ones at most. *)
Definition old_kept (h h' : ET.Store) : Prop :=
  (length h ≤ length h')%nat ∧
  ∀ c el, h !! c = Some el →
    ∃ el', h' !! c = Some el' ∧ ET.tag el' = ET.tag el ∧
           ET.attrib el' = ET.attrib el ∧ ET.kids el `prefix_of` ET.kids el'.

Lemma old_kept_refl (h : ET.Store) : old_kept h h.
Proof. split; [done|]. intros c el Hc. by exists el. Qed.

Lemma old_kept_trans (h1 h2 h3 : ET.Store) :
  old_kept h1 h2 → old_kept h2 h3 → old_kept h1 h3.
Proof.
  intros [Hl1 H1] [Hl2 H2]. split; [lia|]. intros c el Hc.
  destruct (H1 c el Hc) as (el2 & Hc2 & Ht2 & Ha2 & Hk2).
  destruct (H2 c el2 Hc2) as (el3 & Hc3 & Ht3 & Ha3 & Hk3).
  exists el3. split_and!; [done|congruence..|by etrans].
Qed.

Lemma old_kept_new_child parent (e : ET.Element) (h : ET.Store) :
  old_kept h (alter (ET.add_kid (length h)) parent h ++ [e]).
Proof.
  split; [rewrite length_app, length_alter; lia|]. intros c el Hc.
  rewrite lookup_app_l by (rewrite length_alter; by eapply lookup_lt_Some).
  rewrite list_lookup_alter. case_decide; [subst|]; rewrite Hc; simpl.
  - exists (ET.add_kid (length h) el). split_and!; [done..|]. by apply prefix_app_r.
  - by exists el.
Qed.

Lemma old_kept_app (h l : ET.Store) : old_kept h (h ++ l).
Proof.
  split; [rewrite length_app; lia|]. intros c el Hc.
  exists el. by rewrite lookup_app_l, Hc by by eapply lookup_lt_Some.
Qed.

Lemma old_kept_grow parent l (h : ET.Store) : old_kept h (grow parent l h).
Proof.
  split; [rewrite length_grow; lia|]. intros c el Hc.
  rewrite lookup_grow_old, Hc by by eapply lookup_lt_Some. case_decide; simpl.
  - exists (add_kids (seq (length h) (length l)) el).
    split_and!; [done..|]. by apply prefix_app_r.
  - by exists el.
Qed.

Lemma old_kept_with_component parent ats l (h : ET.Store) :
  old_kept h (with_component parent ats l h).
Proof.
  unfold with_component. eapply old_kept_trans; [apply old_kept_new_child|].
  apply old_kept_grow.
Qed.

Lemma old_kept_get (h h' : ET.Store) c k :
  old_kept h h' → c < length h → ET.get c k h' = ET.get c k h.
Proof.
  intros [_ H] Hc. destruct (lookup_lt_is_Some_2 h c Hc) as [el Hel].
  destruct (H c el Hel) as (el' & Hel' & _ & Ha & _).
  unfold ET.get. rewrite Hel, Hel'. simpl. by rewrite Ha.
Qed.

Lemma old_kept_has_tag (h h' : ET.Store) c tg :
  old_kept h h' → c < length h → ET.has_tag tg h' c = ET.has_tag tg h c.
Proof.
  intros [_ H] Hc. destruct (lookup_lt_is_Some_2 h c Hc) as [el Hel].
  destruct (H c el Hel) as (el' & Hel' & Ht & _).
  unfold ET.has_tag. rewrite Hel, Hel'. simpl. by rewrite Ht.
Qed.

Lemma old_kept_children (h h' : ET.Store) c x :
  old_kept h h' → x ∈ ET.children c h → x ∈ ET.children c h'.
Proof.
  intros [_ H]. unfold ET.children.
  destruct (h !! c) as [el|] eqn:Hel; [|by intros ?%elem_of_nil].
  destruct (H c el Hel) as (el' & -> & _ & _ & [k Hk]). simpl.
  intros Hx. rewrite Hk. apply elem_of_app. by left.
Qed.

(** The parts of the state that the components of an object leave alone. *)
Definition same_books (s s' : State) : Prop :=
  nodeID s' = nodeID s ∧ elements s' = elements s ∧
  written s' = written s ∧ logged s' = logged s.

Lemma CollisionShape_vectors_state m sh s v s' :
  CollisionShape_vectors m sh s = Normal v s' →
  xml s' = xml s ∧ compoID s' = compoID s ∧ same_books s s'.
Proof.
  unfold CollisionShape_vectors, CollisionShape_size, CollisionShape_offset.
  unfold mbind, M_bind, modify, gets, mret, M_ret, raise.
  destruct (urho_overwrite_size sh), (urho_overwrite_offset_position sh); simpl;
    try (by intros [= _ <-]).
  destruct (bbox_locals s); [by intros [= _ <-]|done].
Qed.

(** The physics components of an object, when they are written, leave
    every element that was there as it was, but for the new children of
    the node. *)
Lemma Physics_kept u so currentPass node m obj modelFile s s' :
  node < length (xml s) →
  Physics u so currentPass node m obj modelFile s = Normal () s' →
  old_kept (xml s) (xml s') ∧ same_books s s'.
Proof.
  intros Hnode. unfold Physics, when. destruct (physics_enabled so obj).
  2:{ intros [= <-]. split; [apply old_kept_refl|done]. }
  unfold mbind at 1, M_bind at 1.
  destruct (CollisionShape_vectors m (shape obj) s) as [[size offset] s1| |] eqn:Hv;
    [|done..].
  apply CollisionShape_vectors_state in Hv as (Hx & Hc & Hn & He & Hw & Hl).
  erewrite bind_run by (apply RigidBody_run; by rewrite Hx).
  rewrite CollisionShape_run
    by (simpl; unfold with_component;
        rewrite length_grow, length_app, length_alter, Hx; lia).
  intros [= <-]. simpl. split; [|by split_and!].
  rewrite <-Hx. eapply old_kept_trans; apply old_kept_with_component.
Qed.

(** *** The individual prefab of an object *)

Lemma individual_node_run s :
  individual_node s =
  Normal (length (xml s))
    (with_nodeID 0x1000000
       (with_xml (xml s ++ [ET.mkElement "node" [("id", format_d (nodeID s))] []]) s)).
Proof.
  unfold individual_node, Element, ET.new, set, modify, gets, mbind, M_bind. simpl.
  by rewrite set_last.
Qed.

Lemma SubNode_run u node obj s :
  node < length (xml s) →
  SubNode u node obj s =
  Normal (length (xml s))
    (with_xml
       (grow (length (xml s))
          (("Name", "SubNode")
           :: shown [ (negb (String.eqb (Vector3ToString u (urho_subnode_rotation obj))
                                        "0 0 0"),
                        ("Rotation", Vector3ToString u (urho_subnode_rotation obj))) ])
          (alter (ET.add_kid (length (xml s))) node (xml s)
           ++ [ET.mkElement "node" [("id", format_d (nodeID s))] []])) s).
Proof.
  intros Hnode. unfold SubNode.
  unfold mbind at 1, M_bind at 1, SubElement at 1.
  rewrite SubElement_store by done.
  unfold mbind at 1, M_bind at 1, gets at 1.
  unfold mbind at 1, M_bind at 1, set at 1, modify at 1.
  cbn [xml with_xml nodeID]. rewrite set_new_element.
  erewrite bind_run by (apply attribute_run; store_length).
  erewrite bind_run by (apply attributes_if_run; store_length).
  cbn [xml with_xml]. rewrite grow_app by store_length. done.
Qed.

(** The object whose settings [export_model] uses for a model. *)
Definition object_for (u : Env) (so : SOptions) (m : UrhoSceneModel) : option Object :=
  if mergeObjects so || batchComponents so then Some (active u)
  else objects u !! ExportScene.name m.

(** From the Navigable component to the end of the loop body. *)
Definition export_tail (u : Env) (parent node : nat) (m : UrhoSceneModel) (obj : Object)
    (modelFile materials : string) (currentPass : nat) : M unit :=
  when (urho_create_navigable obj
        && (String.eqb (type m) "StaticModel" || String.eqb (type m) "TerrainPatch"))
       (component parent "Navigable" ≫= λ _, mret ());;
  Model u parent m (model obj) modelFile materials;;
  when (bool_decide (currentPass = 0)) (
    let filepath := GetFilepath u (PathType_OBJECTS u) (ExportScene.name m) in
    when (CheckFilepath u filepath.1) (
      log "info" ("Creating individual prefab " +:+ filepath.2);;
      WriteXmlFile node filepath.1)).

Lemma export_model_steps u uScene so currentPass models root m :
  export_model u uScene so currentPass models root m =
  (obj ← (if mergeObjects so || batchComponents so then mret (active u)
          else match objects u !! ExportScene.name m with
               | Some obj => mret obj
               | None => raise (KeyError (ExportScene.name m))
               end);
   let modelFile :=
     FindFile (PathType_MODELS u) (Some (ExportScene.name m)) (ExportScene.files uScene) in
   if falsy modelFile then
     log "warning" ("Prefab generation failure: " +:+ ExportScene.name m +:+
       ".mdl does not exist. You should remove this object from selection (probably 0 face geometry).");;
     return_
   else
     let modelFile := default "" modelFile in
     let materials := gather_materials u (ExportScene.files uScene) m in
     node ← (if bool_decide (currentPass = 0) then individual_node
             else attach_node models root m);
     attribute node ("Name", ExportScene.name m);;
     when (negb (globalOrigin u) && bool_decide (0 < currentPass))
          (transforms u node obj);;
     Physics u so currentPass node m obj modelFile;;
     parent ← (if urho_create_subnode obj && bool_decide (currentPass = 0)
               then SubNode u node obj else mret node);
     export_tail u parent node m obj modelFile materials currentPass).
Proof. reflexivity. Qed.

Lemma export_tail_kept u parent node m obj modelFile materials currentPass s :
  parent < length (xml s) →
  ∃ s',
    export_tail u parent node m obj modelFile materials currentPass s = Normal () s' ∧
    old_kept (xml s) (xml s') ∧ nodeID s' = nodeID s ∧ elements s' = elements s.
Proof.
  intros Hparent. unfold export_tail.
  assert (∃ s1, when (urho_create_navigable obj
                      && (String.eqb (type m) "StaticModel"
                          || String.eqb (type m) "TerrainPatch"))
                     (component parent "Navigable" ≫= λ _, mret ()) s = Normal () s1 ∧
                old_kept (xml s) (xml s1) ∧ nodeID s1 = nodeID s ∧
                elements s1 = elements s) as (s1 & Hrun1 & Hk1 & Hn1 & He1).
  { destruct (_ && _); simpl.
    - erewrite bind_run by by apply component_run. eexists. split; [done|].
      simpl. split_and!; [apply old_kept_new_child|done..].
    - exists s. split_and!; [done|apply old_kept_refl|done..]. }
  erewrite bind_run by exact Hrun1.
  assert (parent < length (xml s1)) as Hparent1 by (destruct Hk1; lia).
  erewrite bind_run by by apply Model_run.
  set (s2 := with_compoID _ _).
  assert (old_kept (xml s) (xml s2) ∧ nodeID s2 = nodeID s ∧ elements s2 = elements s)
    as (Hk2 & Hn2 & He2).
  { subst s2. simpl. split_and!; [|done..].
    eapply old_kept_trans; [exact Hk1|apply old_kept_with_component]. }
  unfold when. case_bool_decide; [|by exists s2].
  destruct (CheckFilepath u _); [|by exists s2].
  unfold mbind, M_bind, log, WriteXmlFile, modify. eexists. split; [done|]. done.
Qed.

(** In the individual pass the node of a prefab takes the node counter
    and resets it to 16777216.  The sub-node, when the object asks for
    one, is a child node of it that takes the counter after the reset and
    does not advance it: its id is 16777216 in every prefab, which is also
    the id of the node above it whenever the counter stood at 16777216
    before the object. *)
Theorem individual_prefab_ids u uScene so models root m obj s s' :
  object_for u so m = Some obj →
  export_model u uScene so 0 models root m s = Normal () s' →
  let e := length (xml s) in
  ET.has_tag "node" (xml s') e = true ∧
  ET.get e "id" (xml s') = Some (format_d (nodeID s)) ∧
  nodeID s' = 0x1000000%Z ∧
  (urho_create_subnode obj = true →
     ∃ c, c ∈ ET.children e (xml s') ∧ ET.has_tag "node" (xml s') c = true ∧
          ET.get c "id" (xml s') = Some "16777216").
Proof.
  intros Hobj. rewrite export_model_steps.
  assert ((if mergeObjects so || batchComponents so then mret (active u)
           else match objects u !! ExportScene.name m with
                | Some obj => mret obj
                | None => raise (KeyError (ExportScene.name m))
                end) s = Normal obj s) as Hrun0.
  { unfold object_for in Hobj. destruct (_ || _); [by injection Hobj as ->|].
    by rewrite Hobj. }
  erewrite bind_run by exact Hrun0.
  cbv zeta. destruct (falsy _); [done|].
  set (modelFile := default "" (FindFile (PathType_MODELS u)
                                  (Some (ExportScene.name m)) (ExportScene.files uScene))).
  set (materials := gather_materials u (ExportScene.files uScene) m).
  change (bool_decide (0 = 0)) with true. cbn [andb negb].
  change (bool_decide (0 < 0)) with false. rewrite andb_false_r.
  erewrite bind_run by apply individual_node_run.
  set (e := length (xml s)). set (s1 := with_nodeID _ _).
  assert (xml s1 !! e = Some (ET.mkElement "node" [("id", format_d (nodeID s))] []))
    as He1.
  { subst s1 e. simpl. by rewrite lookup_app_r, Nat.sub_diag by done. }
  assert (e < length (xml s1)) as Hlt1 by by eapply lookup_lt_Some.
  erewrite bind_run by by apply attribute_run.
  set (s2 := with_xml _ s1).
  assert (old_kept (xml s1) (xml s2)) as Hk2 by apply old_kept_grow.
  unfold when at 1.
  unfold mbind at 1, M_bind at 1, mret at 1, M_ret at 1.
  unfold mbind at 1, M_bind at 1.
  destruct (Physics u so 0 e m obj modelFile s2) as [[] s3| |] eqn:Hphys; [|done..].
  apply Physics_kept in Hphys as [Hk3 (Hn3 & _)]; [|destruct Hk2; lia].
  assert (old_kept (xml s1) (xml s3)) as Hk13 by by eapply old_kept_trans.
  assert (e < length (xml s3)) as Hlt3 by (destruct Hk13; lia).
  rewrite andb_true_r.
  destruct (urho_create_subnode obj) eqn:Hsub.
  - erewrite bind_run by by apply SubNode_run.
    set (c := length (xml s3)). set (s4 := with_xml _ s3).
    assert (old_kept (xml s3) (xml s4)) as Hk4.
    { subst s4. simpl. eapply old_kept_trans; [apply old_kept_new_child|].
      apply old_kept_grow. }
    assert (c < length (xml s4)) as Hc4 by (subst s4 c; store_length).
    destruct (export_tail_kept u c e m obj modelFile materials 0 s4 Hc4)
      as (s5 & -> & Hk5 & Hn5 & _).
    intros [= <-].
    assert (old_kept (xml s1) (xml s5)) as Hk15.
    { eapply old_kept_trans; [exact Hk13|]. by eapply old_kept_trans. }
    split_and!.
    + rewrite (old_kept_has_tag (xml s1)) by done. unfold ET.has_tag. by rewrite He1.
    + rewrite (old_kept_get (xml s1)) by done. unfold ET.get. by rewrite He1.
    + rewrite Hn5. subst s4. cbn [nodeID with_xml]. by rewrite Hn3.
    + intros _. exists c. split_and!.
      * eapply old_kept_children; [exact Hk5|]. subst s4. simpl.
        rewrite children_grow_other by store_length.
        unfold ET.children. rewrite lookup_app_l by by rewrite length_alter.
        rewrite list_lookup_alter_eq.
        destruct (lookup_lt_is_Some_2 (xml s3) e Hlt3) as [el ->]. simpl.
        apply elem_of_app. right. left.
      * rewrite (old_kept_has_tag (xml s4)) by done. subst s4. simpl.
        rewrite has_tag_grow_old by store_length.
        unfold ET.has_tag. rewrite lookup_app_r by by rewrite length_alter.
        by rewrite length_alter, Nat.sub_diag.
      * rewrite (old_kept_get (xml s4)) by done. subst s4. simpl.
        rewrite get_grow_old by store_length.
        unfold ET.get. rewrite lookup_app_r by by rewrite length_alter.
        rewrite length_alter, Nat.sub_diag. simpl. by rewrite Hn3.
  - unfold mbind at 1, M_bind at 1, mret at 1, M_ret at 1.
    destruct (export_tail_kept u e e m obj modelFile materials 0 s3 Hlt3)
      as (s5 & -> & Hk5 & Hn5 & _).
    intros [= <-].
    assert (old_kept (xml s1) (xml s5)) as Hk15 by by eapply old_kept_trans.
    split_and!; [| | |done].
    + rewrite (old_kept_has_tag (xml s1)) by done. unfold ET.has_tag. by rewrite He1.
    + rewrite (old_kept_get (xml s1)) by done. unfold ET.get. by rewrite He1.
    + rewrite Hn5. by rewrite Hn3.
Qed.

(** An object that asks for a sub-node, everything else at its default. *)
Definition on_subnode : Object :=
  {| urho_activate_physics := false;
     urho_create_subnode := true;
     urho_subnode_rotation := zero3;
     urho_create_navigable := false;
     model := UrhoComponentModelReset;
     shape := UrhoComponentShapeReset;
     body := UrhoComponentBodyReset;
     Prefabs.nodePos := zero3; Prefabs.nodeRot := zero3; Prefabs.nodeScale := one3 |}.

Definition rock_prefab : Outcome unit :=
  export_model (env [("Rock", on_subnode)]) (scene_of [static_model "Rock" None])
    (options true false false false) 0 [static_model "Rock" None] 0
    (static_model "Rock" None) root_only.

Lemma individual_prefab_ids_witness :
  let s' := state_of rock_prefab in
  let e := length (xml root_only) in
  ET.has_tag "node" (xml s') e = true ∧
  ET.get e "id" (xml s') = Some (format_d (nodeID root_only)) ∧
  nodeID s' = 0x1000000%Z ∧
  (urho_create_subnode on_subnode = true →
     ∃ c, c ∈ ET.children e (xml s') ∧ ET.has_tag "node" (xml s') c = true ∧
          ET.get c "id" (xml s') = Some "16777216").
Proof.
  apply (individual_prefab_ids (env [("Rock", on_subnode)])
           (scene_of [static_model "Rock" None]) (options true false false false)
           [static_model "Rock" None] 0 (static_model "Rock" None) on_subnode
           root_only (state_of rock_prefab)).
  - reflexivity.
  - vm_compute. reflexivity.
Defined.

(** *** Identifiers in the documents of the later passes *)

(** The [id] attributes of the elements with tag [tg], in the order in
    which the elements were created. *)
Definition ids_of (tg : string) (h : ET.Store) : list string :=
  omap (λ el, if decide (ET.tag el = tg) then ET.attrib_get "id" (ET.attrib el)
              else None) h.

(** The ids are the decimal forms of numbers that differ from one another
    and stay below [bound]. *)
Definition ascending (bound : Z) (ids : list string) : Prop :=
  ∃ zs : list Z, ids = format_d <$> zs ∧ NoDup zs ∧ Forall (λ z, (z < bound)%Z) zs.

Lemma ascending_snoc bound ids :
  ascending bound ids → ascending (bound + 1) (ids ++ [format_d bound]).
Proof.
  intros (zs & -> & Hs & Hb). exists (zs ++ [bound]). split_and!.
  - by rewrite fmap_app.
  - apply NoDup_app. split_and!; [done| |apply NoDup_singleton].
    intros z Hz ->%list_elem_of_singleton.
    eapply Forall_forall in Hb; [|exact Hz]. lia.
  - apply Forall_app. split.
    + eapply Forall_impl; [exact Hb|]. simpl. lia.
    + repeat constructor. lia.
Qed.

Lemma ascending_NoDup bound ids : ascending bound ids → NoDup ids.
Proof. intros (zs & -> & Hs & _). by apply (NoDup_fmap_2 _). Qed.

Lemma ids_of_app tg (h1 h2 : ET.Store) :
  ids_of tg (h1 ++ h2) = ids_of tg h1 ++ ids_of tg h2.
Proof. apply omap_app. Qed.

Lemma ids_of_alter tg f p (h : ET.Store) :
  (∀ el, ET.tag (f el) = ET.tag el ∧ ET.attrib (f el) = ET.attrib el) →
  ids_of tg (alter f p h) = ids_of tg h.
Proof.
  intros Hf. unfold ids_of. revert p. induction h as [|el h IH]; intros p; [done|].
  destruct p as [|p]; cbn.
  - destruct (Hf el) as [-> ->]. done.
  - by rewrite IH.
Qed.

Lemma ids_of_grow tg parent l (h : ET.Store) :
  tg ≠ "attribute" → ids_of tg (grow parent l h) = ids_of tg h.
Proof.
  intros Htg. unfold grow. rewrite ids_of_app, ids_of_alter by done.
  assert (ids_of tg (attribute_element <$> l) = []) as ->;
    [|by rewrite app_nil_r].
  induction l as [|a l IH]; [done|].
  unfold ids_of in *. cbn [fmap list_fmap omap list_omap]. simpl.
  rewrite decide_False by done. exact IH.
Qed.

Lemma ids_of_new_child tg parent c (e : ET.Element) (h : ET.Store) :
  ids_of tg (alter (ET.add_kid c) parent h ++ [e]) = ids_of tg (h ++ [e]).
Proof. by rewrite !ids_of_app, ids_of_alter. Qed.

Lemma ids_of_with_component tg parent ats l (h : ET.Store) :
  tg ≠ "attribute" →
  ids_of tg (with_component parent ats l h) =
  ids_of tg (h ++ [ET.mkElement "component" ats []]).
Proof.
  intros Htg. unfold with_component. by rewrite ids_of_grow, ids_of_new_child.
Qed.

(** The component ids go up and stay below the component counter; the
    node ids go up and do not pass the node counter. *)
Definition ids_inv (s : State) : Prop :=
  ascending (compoID s) (ids_of "component" (xml s)) ∧
  ascending (nodeID s + 1) (ids_of "node" (xml s)).

Lemma component_ids parent ty c l (h : ET.Store) :
  ascending c (ids_of "component" h) →
  ascending (c + 1)
    (ids_of "component"
       (with_component parent [("type", ty); ("id", format_d c)] l h)).
Proof.
  intros Hc. rewrite ids_of_with_component, ids_of_app by done.
  by apply ascending_snoc.
Qed.

Lemma component_node_ids parent ats l (h : ET.Store) :
  ids_of "node" (with_component parent ats l h) = ids_of "node" h.
Proof.
  rewrite ids_of_with_component, ids_of_app by done. simpl. by rewrite app_nil_r.
Qed.

Lemma ids_inv_component parent ty l s :
  ids_inv s →
  ids_inv (with_compoID (compoID s + 1)
             (with_xml (with_component parent
                          [("type", ty); ("id", format_d (compoID s))] l (xml s)) s)).
Proof.
  intros [Hc Hn]. split; cbn [xml with_xml compoID with_compoID nodeID].
  - by apply component_ids.
  - by rewrite component_node_ids.
Qed.

Lemma ids_inv_grow parent l s :
  ids_inv s → ids_inv (with_xml (grow parent l (xml s)) s).
Proof.
  intros [Hc Hn].
  split; cbn [xml with_xml compoID with_compoID nodeID]; by rewrite ids_of_grow.
Qed.

Lemma ids_inv_books s s' :
  xml s' = xml s → compoID s' = compoID s → nodeID s' = nodeID s →
  ids_inv s → ids_inv s'.
Proof. intros Hx Hc Hn [? ?]. split; by rewrite Hx, ?Hc, ?Hn. Qed.

Lemma Physics_later u so p node m obj modelFile s s' :
  node < length (xml s) →
  Physics u so (S p) node m obj modelFile s = Normal () s' →
  ids_inv s → ids_inv s'.
Proof.
  intros Hnode. unfold Physics, when. destruct (physics_enabled so obj).
  2:{ by intros [= <-]. }
  unfold mbind at 1, M_bind at 1.
  destruct (CollisionShape_vectors m (shape obj) s) as [[size offset] s1| |] eqn:Hv;
    [|done..].
  apply CollisionShape_vectors_state in Hv as (Hx & Hc & Hn & _).
  erewrite bind_run by (apply RigidBody_run; by rewrite Hx).
  rewrite CollisionShape_run
    by (simpl; unfold with_component;
        rewrite length_grow, length_app, length_alter, Hx; lia).
  intros [= <-] [Hcs Hns].
  split; cbn [xml with_xml compoID with_compoID nodeID].
  - do 2 apply component_ids. by rewrite Hx, Hc.
  - by rewrite !component_node_ids, Hx, Hn.
Qed.

Lemma export_tail_later u parent node m obj modelFile materials p s :
  parent < length (xml s) →
  ids_inv s →
  ∃ s',
    export_tail u parent node m obj modelFile materials (S p) s = Normal () s' ∧
    ids_inv s' ∧ old_kept (xml s) (xml s') ∧ elements s' = elements s.
Proof.
  intros Hparent Hinv. unfold export_tail.
  assert (∃ s1, when (urho_create_navigable obj
                      && (String.eqb (type m) "StaticModel"
                          || String.eqb (type m) "TerrainPatch"))
                     (component parent "Navigable" ≫= λ _, mret ()) s = Normal () s1 ∧
                ids_inv s1 ∧ old_kept (xml s) (xml s1) ∧
                elements s1 = elements s) as (s1 & Hrun1 & Hinv1 & Hk1 & He1).
  { destruct (_ && _); simpl.
    - erewrite bind_run by by apply component_run. eexists. split; [done|].
      split_and!; [|apply old_kept_new_child|done].
      pose proof (ids_inv_component parent "Navigable" [] s Hinv) as H.
      unfold with_component in H. by rewrite grow_nil in H.
    - exists s. split_and!; [done..|apply old_kept_refl|done]. }
  erewrite bind_run by exact Hrun1.
  assert (parent < length (xml s1)) as Hparent1 by (destruct Hk1; lia).
  erewrite bind_run by by apply Model_run.
  rewrite (bool_decide_eq_false_2 (S p = 0)) by done.
  eexists. split; [done|]. split_and!.
  - by apply ids_inv_component.
  - simpl. eapply old_kept_trans; [exact Hk1|apply old_kept_with_component].
  - done.
Qed.

Lemma elements_ok_kept models s s' :
  old_kept (xml s) (xml s') → elements s' = elements s →
  elements_ok models s → elements_ok models s'.
Proof.
  intros [Hlen _] He Hok p pe. rewrite He. intros Hp.
  destruct (Hok p pe Hp) as [? ?]. split; [lia|done].
Qed.

(** One object of a later pass: the node and every component take a
    fresh id from the counters. *)
Lemma export_model_later u uScene so p models root m s s' :
  export_model u uScene so (S p) models root m s = Normal () s' →
  root < length (xml s) → elements_ok models s → m ∈ models → ids_inv s →
  root < length (xml s') ∧ elements_ok models s' ∧ ids_inv s'.
Proof.
  rewrite export_model_steps. intros Hrun Hroot Hok Hm Hinv. revert Hrun.
  unfold mbind at 1, M_bind at 1.
  destruct ((if mergeObjects so || batchComponents so then mret (active u)
             else match objects u !! ExportScene.name m with
                  | Some obj => mret obj
                  | None => raise (KeyError (ExportScene.name m))
                  end) s) as [obj s0| |] eqn:Hobj; [|done..].
  assert (s0 = s) as ->.
  { destruct (_ || _); [by injection Hobj|].
    destruct (objects u !! _); [by injection Hobj|done]. }
  cbv zeta. destruct (falsy _); [done|].
  set (modelFile := default "" (FindFile (PathType_MODELS u)
                                  (Some (ExportScene.name m)) (ExportScene.files uScene))).
  set (materials := gather_materials u (ExportScene.files uScene) m).
  rewrite (bool_decide_eq_false_2 (S p = 0)) by done.
  destruct (attach_node_run models root m s Hroot Hok) as [Hattach Ht].
  erewrite bind_run by exact Hattach.
  set (e := length (xml s)). set (t := target root m (elements s)) in *.
  set (s1 := with_xml _ _).
  assert (old_kept (xml s) (xml s1)) as Hk1 by apply old_kept_new_child.
  assert (e < length (xml s1)) as He1 by (subst s1 e; store_length).
  assert (ids_inv s1) as Hinv1.
  { destruct Hinv as [Hc Hn]. subst s1.
    split; cbn [xml with_xml compoID with_compoID nodeID with_nodeID with_element].
    - rewrite ids_of_new_child, ids_of_app. simpl. by rewrite app_nil_r.
    - rewrite ids_of_new_child, ids_of_app. simpl. by apply ascending_snoc. }
  assert (elements_ok models s1) as Hok1.
  { intros q qe. subst s1. simpl. rewrite length_app, length_alter. simpl.
    intros [[<- <-]|[_ Hq]]%lookup_insert_Some.
    - split; [fold e; lia|]. by exists m.
    - destruct (Hok q qe Hq) as [? ?]. split; [lia|done]. }
  erewrite bind_run by by apply attribute_run.
  set (s2 := with_xml _ s1).
  assert (ids_inv s2) as Hinv2 by by apply ids_inv_grow.
  assert (old_kept (xml s1) (xml s2)) as Hk2 by apply old_kept_grow.
  assert (e < length (xml s2)) as He2 by (destruct Hk2; lia).
  assert (∃ s3, when (negb (globalOrigin u) && bool_decide (0 < S p))
                     (transforms u e obj) s2 = Normal () s3 ∧
                ids_inv s3 ∧ old_kept (xml s2) (xml s3) ∧ elements s3 = elements s2)
    as (s3 & Hrun3 & Hinv3 & Hk3 & Hel3).
  { destruct (_ && _); simpl.
    - unfold transforms.
      erewrite bind_run by by apply attribute_run.
      erewrite bind_run by (apply attribute_run; store_length).
      rewrite attribute_run by store_length.
      eexists. split; [done|]. split_and!.
      + by do 3 apply ids_inv_grow.
      + simpl. eapply old_kept_trans; [apply old_kept_grow|].
        eapply old_kept_trans; apply old_kept_grow.
      + done.
    - exists s2. split_and!; [done..|apply old_kept_refl|done]. }
  erewrite bind_run by exact Hrun3.
  assert (e < length (xml s3)) as He3 by (destruct Hk3; lia).
  unfold mbind at 1, M_bind at 1.
  destruct (Physics u so (S p) e m obj modelFile s3) as [[] s4| |] eqn:Hphys; [|done..].
  pose proof (Physics_later _ _ _ _ _ _ _ _ _ He3 Hphys Hinv3) as Hinv4.
  apply Physics_kept in Hphys as [Hk4 (_ & Hel4 & _)]; [|done].
  assert (e < length (xml s4)) as He4 by (destruct Hk4; lia).
  rewrite andb_false_r. unfold mbind at 1, M_bind at 1, mret at 1, M_ret at 1.
  destruct (export_tail_later u e e m obj modelFile materials p s4 He4 Hinv4)
    as (s5 & -> & Hinv5 & Hk5 & Hel5).
  intros [= <-].
  assert (old_kept (xml s1) (xml s5)) as Hk15.
  { eapply old_kept_trans; [exact Hk2|]. eapply old_kept_trans; [exact Hk3|].
    by eapply old_kept_trans. }
  split_and!.
  - destruct Hk1, Hk15. lia.
  - eapply elements_ok_kept; [exact Hk15| |exact Hok1].
    by rewrite Hel5, Hel4, Hel3.
  - done.
Qed.

Lemma loop_later u uScene so p models root l : ∀ s s',
  for_each l (export_model u uScene so (S p) models root) s = Normal () s' →
  (∀ m, m ∈ l → m ∈ models) →
  root < length (xml s) → elements_ok models s → ids_inv s →
  ids_inv s'.
Proof.
  induction l as [|m l IH]; intros s s' Hrun Hl Hroot Hok Hinv.
  - by injection Hrun as <-.
  - cbn [for_each] in Hrun. revert Hrun. unfold mbind at 1, M_bind at 1.
    destruct (export_model u uScene so (S p) models root m s) as [[] s1| |] eqn:Hm;
      [|done..].
    intros Hrun.
    destruct (export_model_later _ _ _ _ _ _ _ _ _ Hm Hroot Hok) as (Hroot1 & Hok1 & Hinv1);
      [apply Hl; left|done|].
    apply (IH s1 s' Hrun); [|done..]. intros m' Hm'. apply Hl. by right.
Qed.

(** The scene components have the ids 1, 2, 4, 5, 6 and 7, as far as
    they are created; the light node and the root node take the first
    node ids. *)
Lemma setup_ids uScene so sceneRoot root s0 :
  setup uScene so initial_state = Normal (sceneRoot, root) s0 →
  root < length (xml s0) ∧ elements s0 = ∅ ∧ ids_inv s0.
Proof.
  destruct so as [ind col scn phys merge batch nav sky skyPath mode].
  unfold setup, Prefabs.scene_components.
  cbn [doScenePrefab createSkybox navigation doPhysics exportMode skyboxPath].
  set (gate := phys && negb (String.eqb mode "Props")). clearbody gate.
  set (zs := if scn then
               [1%Z; 2%Z] ++ (if sky then [4%Z] else []) ++ (if nav then [5%Z] else [])
               ++ (if gate then [6%Z] else []) ++ [7%Z]
             else []).
  set (ns := if scn then [0x1000000%Z; 0x1000001%Z] else [0x1000000%Z]).
  assert (NoDup zs ∧ Forall (λ z, (z < 0x1000000)%Z) zs) as [Hzs1 Hzs2].
  { subst zs. destruct scn, sky, nav, gate;
      split; apply (bool_decide_unpack _); by vm_compute. }
  intros Hrun.
  assert (root < length (xml s0) ∧ elements s0 = ∅ ∧ compoID s0 = 0x1000000%Z ∧
          ids_of "component" (xml s0) = format_d <$> zs ∧
          ids_of "node" (xml s0) = format_d <$> ns ∧
          Forall (λ z, (z < nodeID s0 + 1)%Z) ns ∧ NoDup ns) as H.
  { subst zs ns. revert Hrun.
    destruct scn, sky, nav, gate;
      intros Hrun; vm_compute in Hrun; injection Hrun as <- <- <-;
      (split_and!; [vm_compute; lia|reflexivity|reflexivity|reflexivity|reflexivity
                   |apply (bool_decide_unpack _); by vm_compute
                   |apply (bool_decide_unpack _); by vm_compute]). }
  destruct H as (Hroot & Hel & Hc & Hcs & Hns & Hnb & Hnd).
  split_and!; [done..|]. split.
  - rewrite Hc. by exists zs.
  - by exists ns.
Qed.

Lemma finish_xml u uScene so sceneRoot root s :
  ∃ s', finish u uScene so sceneRoot root s = Normal () s' ∧ xml s' = xml s.
Proof.
  unfold finish, when, log, WriteXmlFile, modify, mbind, M_bind, mret, M_ret.
  destruct (_ && _), sceneRoot; repeat (destruct (CheckFilepath u _)); by eexists.
Qed.

(** In the collective and scene documents every component has an id of
    its own and every node has an id of its own: whenever a call for a
    later pass completes, no two component elements it created carry the
    same id, and no two node elements do. *)
Theorem later_pass_ids_unique u uScene so currentPass fuel s' :
  0 < currentPass →
  UrhoExportPrefabs u uScene so currentPass fuel = Normal () s' →
  NoDup (ids_of "component" (xml s')) ∧ NoDup (ids_of "node" (xml s')).
Proof.
  intros Hpass. destruct currentPass as [|p]; [lia|].
  unfold UrhoExportPrefabs, UrhoExportPrefabs_body.
  unfold mbind at 1, M_bind at 1.
  destruct (setup uScene so initial_state) as [[sceneRoot root] s0| |] eqn:Hsetup;
    [|done..].
  apply setup_ids in Hsetup as (Hroot & Hel & Hinv).
  destruct (SortModels fuel (modelsList uScene)) as [models|]; [|done].
  unfold mbind at 1, M_bind at 1.
  destruct (for_each models _ s0) as [[] s1| |] eqn:Hloop; [|done..].
  apply loop_later in Hloop;
    [|done..|by intros q qe; rewrite Hel, lookup_empty|done].
  destruct (finish_xml u uScene so sceneRoot root s1) as (s2 & -> & Hx).
  intros [= <-]. rewrite Hx. destruct Hloop as [Hc Hn].
  split; by eapply ascending_NoDup.
Qed.

Lemma later_pass_ids_unique_witness :
  let s' := state_of (UrhoExportPrefabs cubes_env (scene_of cube_and_child)
                        (options false true true true) 1 10) in
  NoDup (ids_of "component" (xml s')) ∧ NoDup (ids_of "node" (xml s')).
Proof.
  apply (later_pass_ids_unique cubes_env (scene_of cube_and_child)
           (options false true true true) 1 10).
  - lia.
  - vm_compute. reflexivity.
Defined.

